(** * rofi helper.c: query matching, highlighting and fuzzy ranking

    A shallow embedding of the matching core of [source/helper.c]:
    [glob_to_regex], [fuzzy_to_regex], [create_regex], [tokenize],
    [helper_token_match], [helper_token_match_get_pango_attr],
    [levenshtein] and the FZF-like scorer [rofi_scorer_fuzzy_evaluate];
    of its command line helpers: [find_arg], [find_arg_str],
    [find_arg_strv], [find_arg_int], [find_arg_uint], [find_arg_char] and
    [helper_parse_char]; of [rofi_force_utf8]; and of [helper_parse_setup]
    with [helper_eval_cb].

    The C code leans on GLib (UTF-8 iteration, Unicode character tables,
    [GRegex] on top of PCRE), on Pango and on the C library.  Those
    libraries are modelled here: strings as their sequence of code points,
    the Unicode tables as a record of functions the development is
    parametric in, [GRegex] as a small backtracking engine for a fragment of
    the PCRE pattern language that contains every pattern the program itself
    generates, [strcasecmp], [strtol] and [strtoul] as ISO C and POSIX
    describe them in the "C" locale, and [g_utf8_validate] and
    [g_shell_parse_argv] as parameters. *)

From Stdlib Require Import String Ascii ZArith List Bool Lia.
From Stdlib Require Import Sorted Permutation.
From Stdlib Require DecimalString DecimalPos.
Import ListNotations.
Open Scope Z_scope.

(* ================================================================= *)
(** ** Text *)

(** GLib's [gunichar]: one Unicode code point. *)
Definition gunichar := Z.

(** A NUL-terminated, valid UTF-8 C string, as the sequence of its code
    points (the terminator is not part of the list).  The byte-indexed loops
    of the source ([glob_to_regex], [strtok_r]) only look for ASCII bytes,
    which in UTF-8 never occur inside a multi-byte sequence, so they are
    transcribed code point by code point. *)
Definition utf8 := list gunichar.

(** Number of bytes of the UTF-8 encoding of a code point; match offsets
    reported by [g_match_info_fetch_pos] count bytes. *)
Definition utf8_width (c : gunichar) : Z :=
  if c <? 128 then 1 else if c <? 2048 then 2 else if c <? 65536 then 3 else 4.

(** [g_utf8_strlen (s, -1)]: the number of code points. *)
Definition g_utf8_strlen (s : utf8) : Z := Z.of_nat (length s).

(** An ASCII literal as a [utf8] value, for writing examples. *)
Definition cps (s : string) : utf8 :=
  map (fun a => Z.of_N (N_of_ascii a)) (list_ascii_of_string s).

(** The Unicode data the program reaches through GLib and PCRE.  The tables
    themselves are not part of the repository, so the development is
    parametric in them. *)
Record Unicode : Type := {
  g_unichar_islower : gunichar -> bool;
  g_unichar_isupper : gunichar -> bool;
  g_unichar_isdigit : gunichar -> bool;
  g_unichar_isspace : gunichar -> bool;
  g_unichar_tolower : gunichar -> gunichar;
  (** canonical representative of a code point's caseless set, as used by a
      pattern compiled with [G_REGEX_CASELESS] *)
  pcre_fold : gunichar -> gunichar;
  (** code points matched by the pattern escape [\s] *)
  pcre_space : gunichar -> bool;
  (** code points the pattern [.] refuses: the line endings *)
  pcre_newline : gunichar -> bool
}.

Definition in_range (lo hi c : Z) : bool := (lo <=? c) && (c <=? hi).

(** The tables restricted to the Basic Latin block (every code point above
    it is caseless, not a letter, digit or space).  Line endings are the
    ones PCRE recognises under [PCRE_NEWLINE_ANY], GLib's default. *)
Definition basic_latin : Unicode := {|
  g_unichar_islower := in_range 97 122;
  g_unichar_isupper := in_range 65 90;
  g_unichar_isdigit := in_range 48 57;
  g_unichar_isspace := fun c => (c =? 32) || (c =? 9) || (c =? 10) || (c =? 12) || (c =? 13);
  g_unichar_tolower := fun c => if in_range 65 90 c then c + 32 else c;
  pcre_fold := fun c => if in_range 65 90 c then c + 32 else c;
  pcre_space := fun c => (c =? 32) || in_range 9 13 c;
  pcre_newline := fun c => in_range 10 13 c || (c =? 133) || (c =? 8232) || (c =? 8233)
|}.

(* ================================================================= *)
(** ** C integers *)

(** [int] and [unsigned int] are 32-bit and [glong] is the 64-bit [long] of
    an LP64 platform.  C leaves signed overflow undefined; the model
    reduces the result of each [int] operation as two's complement hardware
    does. *)

(** Two's complement reduction to a 32-bit [int]. *)
Definition int_wrap (z : Z) : Z := (z + 2147483648) mod 4294967296 - 2147483648.

(** Reduction to a 32-bit [unsigned int] / [guint]. *)
Definition uint_wrap (z : Z) : Z := z mod 4294967296.

Definition INT_MIN : Z := -2147483648.
Definition UINT_MAX : Z := 4294967295.
Definition G_MAXLONG : Z := 9223372036854775807.

(** GLib's [MAX] macro. *)
Definition MAX (a b : Z) : Z := if a >? b then a else b.

(* ================================================================= *)
(** ** GRegex: patterns *)

(** GLib hands patterns to PCRE with UTF-8 enabled.  What is modelled of it:
    a pattern is searched for from left to right and the first position at
    which it matches wins; at a position the alternatives are tried in
    order and quantifiers are greedy, giving back what they took when the
    rest of the pattern fails; [.] matches any character but a line ending;
    [\s] matches white space and [\S] anything else; with
    [G_REGEX_CASELESS] letters match their other case.  [G_REGEX_OPTIMIZE]
    does not change what is matched. *)

(** One-character pattern items. *)
Inductive atom : Type :=
| ALit (c : gunichar)      (* a literal code point *)
| ADot                     (* [.] *)
| ASpace (negated : bool). (* [\s] and [\S] *)

(** Greedy quantifiers. *)
Inductive quant : Type := QOne | QStar | QPlus | QOpt.

(** Compiled patterns.  The fragment: one-character atoms, greedy
    quantifiers on atoms, concatenation, alternation and numbered capturing
    groups. *)
Inductive regex : Type :=
| REmpty
| RAtom (a : atom) (q : quant)
| RSeq (r1 r2 : regex)
| RAlt (r1 r2 : regex)
| RGroup (n : nat) (r : regex).

(** A [GRegex]: the compiled pattern and whether it was compiled with
    [G_REGEX_CASELESS]. *)
Record GRegex : Type := { re_code : regex; re_caseless : bool }.

(** *** Pattern compilation *)

(** A parenthesis level under construction: the finished alternatives (most
    recent first), the items of the current alternative (most recent first)
    and the number of the group being built. *)
Record pframe : Type := { fr_alts : list regex; fr_items : list regex; fr_group : nat }.

Definition mk_seq (items : list regex) : regex := fold_right RSeq REmpty items.

Definition frame_branch (f : pframe) : regex := mk_seq (rev (fr_items f)).

Definition frame_regex (f : pframe) : regex :=
  fold_left (fun acc b => RAlt b acc) (fr_alts f) (frame_branch f).

Definition frame_push (f : pframe) (r : regex) : pframe :=
  {| fr_alts := fr_alts f; fr_items := r :: fr_items f; fr_group := fr_group f |}.

Definition frame_bar (f : pframe) : pframe :=
  {| fr_alts := frame_branch f :: fr_alts f; fr_items := []; fr_group := fr_group f |}.

(** Parser state: current level, enclosing levels, next group number. *)
Record pstate : Type := { ps_cur : pframe; ps_stack : list pframe; ps_next : nat }.

Definition ps_init : pstate :=
  {| ps_cur := {| fr_alts := []; fr_items := []; fr_group := 0 |}; ps_stack := []; ps_next := 1 |}.

Definition ps_push (st : pstate) (r : regex) : pstate :=
  {| ps_cur := frame_push (ps_cur st) r; ps_stack := ps_stack st; ps_next := ps_next st |}.

Definition ps_open (st : pstate) : pstate :=
  {| ps_cur := {| fr_alts := []; fr_items := []; fr_group := ps_next st |};
     ps_stack := ps_cur st :: ps_stack st;
     ps_next := S (ps_next st) |}.

Definition ps_close (st : pstate) : option pstate :=
  match ps_stack st with
  | [] => None
  | outer :: stack =>
      Some {| ps_cur := frame_push outer (RGroup (fr_group (ps_cur st)) (frame_regex (ps_cur st)));
              ps_stack := stack; ps_next := ps_next st |}
  end.

Definition ps_bar (st : pstate) : pstate :=
  {| ps_cur := frame_bar (ps_cur st); ps_stack := ps_stack st; ps_next := ps_next st |}.

(** A quantifier applies to the preceding item, which must be an atom that
    carries no quantifier yet. *)
Definition ps_quant (st : pstate) (q : quant) : option pstate :=
  match fr_items (ps_cur st) with
  | RAtom a QOne :: items =>
      Some {| ps_cur := {| fr_alts := fr_alts (ps_cur st); fr_items := RAtom a q :: items;
                           fr_group := fr_group (ps_cur st) |};
              ps_stack := ps_stack st; ps_next := ps_next st |}
  | _ => None
  end.

Definition ascii_alnum (c : gunichar) : bool :=
  in_range 48 57 c || in_range 65 90 c || in_range 97 122 c.

(** The pattern reader.  [None] is a pattern GLib refuses ([g_regex_new]
    returns NULL), and also a pattern outside the modelled fragment: a
    character class, an anchor, a brace, a quantified group, a lazy or
    possessive quantifier, an extended group [(?...)], or a backslash before
    a letter or digit other than [s] and [S]. *)
Fixpoint parse_loop (st : pstate) (p : utf8) : option regex :=
  match p with
  | [] => match ps_stack st with [] => Some (frame_regex (ps_cur st)) | _ :: _ => None end
  | c :: p' =>
      if c =? 92 (* \ *) then
        match p' with
        | [] => None
        | d :: p'' =>
            if d =? 115 (* s *) then parse_loop (ps_push st (RAtom (ASpace false) QOne)) p''
            else if d =? 83 (* S *) then parse_loop (ps_push st (RAtom (ASpace true) QOne)) p''
            else if ascii_alnum d then None
            else parse_loop (ps_push st (RAtom (ALit d) QOne)) p''
        end
      else if c =? 40 (* ( *) then
        match p' with
        | d :: _ => if (d =? 63) || (d =? 42) then None else parse_loop (ps_open st) p'
        | [] => parse_loop (ps_open st) p'
        end
      else if c =? 41 (* ) *) then
        match ps_close st with Some st' => parse_loop st' p' | None => None end
      else if c =? 124 (* | *) then parse_loop (ps_bar st) p'
      else if c =? 42 (* * *) then
        match ps_quant st QStar with Some st' => parse_loop st' p' | None => None end
      else if c =? 43 (* + *) then
        match ps_quant st QPlus with Some st' => parse_loop st' p' | None => None end
      else if c =? 63 (* ? *) then
        match ps_quant st QOpt with Some st' => parse_loop st' p' | None => None end
      else if c =? 46 (* . *) then parse_loop (ps_push st (RAtom ADot QOne)) p'
      else if (c =? 91) || (c =? 94) || (c =? 36) || (c =? 123) (* [ ^ $ { *) then None
      else parse_loop (ps_push st (RAtom (ALit c) QOne)) p'
  end.

(** [g_regex_new (pattern, compile_options, 0, NULL)]; of the compile
    options only [G_REGEX_CASELESS] changes what is matched. *)
Definition g_regex_new (pattern : utf8) (caseless : bool) : option GRegex :=
  match parse_loop ps_init pattern with
  | Some r => Some {| re_code := r; re_caseless := caseless |}
  | None => None
  end.

(** [g_regex_escape_string (s, -1)]: a backslash before each of
    [\ | ( ) [ ] { } ^ $ * + ? .]  (The NUL case of GLib's switch cannot be
    reached through a length of -1.) *)
Definition regex_special (c : gunichar) : bool :=
  (c =? 92) || (c =? 124) || (c =? 40) || (c =? 41) || (c =? 91) || (c =? 93) ||
  (c =? 123) || (c =? 125) || (c =? 94) || (c =? 36) || (c =? 42) || (c =? 43) ||
  (c =? 63) || (c =? 46).

Fixpoint g_regex_escape_string (s : utf8) : utf8 :=
  match s with
  | [] => []
  | c :: s' => if regex_special c then 92 :: c :: g_regex_escape_string s'
               else c :: g_regex_escape_string s'
  end.

(* ================================================================= *)
(** ** GRegex: matching *)

(** The groups set so far, most recent first: group number and the byte
    offsets of its start and end. *)
Definition captures := list (nat * (Z * Z)).

(** What remains to be matched after an item: called with the offset
    reached, the rest of the subject and the groups set so far. *)
Definition cont := Z -> utf8 -> captures -> option (captures * utf8).

Section Matching.
Variable U : Unicode.
Variable caseless : bool.

Definition atom_ok (a : atom) (x : gunichar) : bool :=
  match a with
  | ALit c => if caseless then pcre_fold U c =? pcre_fold U x else c =? x
  | ADot => negb (pcre_newline U x)
  | ASpace negated => xorb negated (pcre_space U x)
  end.

(** A greedy run of an atom: take as many as possible, give back one at a
    time while the continuation fails. *)
Fixpoint atom_star (a : atom) (k : cont) (pos : Z) (s : utf8) (c : captures)
  : option (captures * utf8) :=
  match s with
  | x :: s' =>
      if atom_ok a x then
        match atom_star a k (pos + utf8_width x) s' c with
        | Some m => Some m
        | None => k pos s c
        end
      else k pos s c
  | [] => k pos s c
  end.

Definition atom_one (a : atom) (k : cont) (pos : Z) (s : utf8) (c : captures)
  : option (captures * utf8) :=
  match s with
  | x :: s' => if atom_ok a x then k (pos + utf8_width x) s' c else None
  | [] => None
  end.

(** Backtracking matcher anchored at [pos]: first alternative first,
    quantifiers greedy. *)
Fixpoint rmatch (r : regex) (k : cont) (pos : Z) (s : utf8) (c : captures)
  : option (captures * utf8) :=
  match r with
  | REmpty => k pos s c
  | RAtom a QOne => atom_one a k pos s c
  | RAtom a QStar => atom_star a k pos s c
  | RAtom a QPlus => atom_one a (atom_star a k) pos s c
  | RAtom a QOpt =>
      match atom_one a k pos s c with
      | Some m => Some m
      | None => k pos s c
      end
  | RSeq r1 r2 => rmatch r1 (rmatch r2 k) pos s c
  | RAlt r1 r2 =>
      match rmatch r1 k pos s c with
      | Some m => Some m
      | None => rmatch r2 k pos s c
      end
  | RGroup n r' => rmatch r' (fun pos' s' c' => k pos' s' ((n, (pos, pos')) :: c')) pos s c
  end.

(** The whole pattern matched: record group 0. *)
Definition accept (start : Z) : cont :=
  fun pos rest c => Some ((0%nat, (start, pos)) :: c, rest).

(** [pcre_exec] from byte offset [pos], where [s] is the subject from that
    offset on: the leftmost start at which the pattern matches.  The result
    is the groups and the subject after the end of the match. *)
Fixpoint pcre_exec (r : regex) (pos : Z) (s : utf8) : option (captures * utf8) :=
  match rmatch r (accept pos) pos s [] with
  | Some m => Some m
  | None =>
      match s with
      | [] => None
      | x :: s' => pcre_exec r (pos + utf8_width x) s'
      end
  end.
End Matching.

Fixpoint capture_get (c : captures) (n : nat) : option (Z * Z) :=
  match c with
  | [] => None
  | (m, span) :: c' => if Nat.eqb m n then Some span else capture_get c' n
  end.

(** [g_match_info_get_match_count]: one more than the highest group set. *)
Definition g_match_info_get_match_count (c : captures) : nat :=
  S (fold_right (fun e acc => Nat.max (fst e) acc) 0%nat c).

(** [g_match_info_fetch_pos]: a group that took no part in the match is
    reported as (-1, -1). *)
Definition g_match_info_fetch_pos (c : captures) (n : nat) : Z * Z :=
  match capture_get c n with
  | Some span => span
  | None => (-1, -1)
  end.

(** [g_regex_match (regex, string, 0, NULL)]. *)
Definition g_regex_match (U : Unicode) (re : GRegex) (s : utf8) : bool :=
  match pcre_exec U (re_caseless re) (re_code re) 0 s with
  | Some _ => true
  | None => false
  end.

(** The successive matches that [g_regex_match (.., &gmi)] followed by
    [g_match_info_next] deliver while [g_match_info_matches] holds.  After a
    match the search resumes at its end, one character further when the
    match ended where the search began; a match equal to the previous one is
    skipped.  ([G_REGEX_MATCH_PARTIAL] asks for a soft partial match, which
    reports the same complete matches.) *)
Fixpoint match_info_loop (U : Unicode) (re : GRegex) (fuel : nat) (pos : Z) (s : utf8)
    (prev : Z * Z) : list captures :=
  match fuel with
  | O => []
  | S fuel' =>
      match pcre_exec U (re_caseless re) (re_code re) pos s with
      | None => []
      | Some (c, rest) =>
          let span := g_match_info_fetch_pos c 0 in
          let fresh := negb ((fst span =? fst prev) && (snd span =? snd prev)) in
          let later :=
            if pos =? snd span then
              match s with
              | [] => []
              | x :: s' => match_info_loop U re fuel' (pos + utf8_width x) s' span
              end
            else match_info_loop U re fuel' (snd span) rest span in
          if fresh then c :: later else later
      end
  end.

Definition g_regex_match_all (U : Unicode) (re : GRegex) (s : utf8) : list captures :=
  match_info_loop U re (S (S (length s))) 0 s (-1, -1).

(* ================================================================= *)
(** ** Configuration *)

(** Modelled from the spec: the enumeration of matching methods declared
    in settings.h ("MatchingMethod: variant {Literal, Glob, Regex, Fuzzy}"),
    under the constant names that [create_regex] switches on; [MM_NORMAL],
    the [default] branch, is the literal method. *)
Inductive MatchingMethod : Type := MM_NORMAL | MM_REGEX | MM_GLOB | MM_FUZZY.

(** Modelled from the spec: the fields of the global [config], declared in
    settings.h, that the matching core reads ("matching method, case
    sensitivity, tokenization on/off"). *)
Record Settings : Type := {
  config_matching_method : MatchingMethod;
  config_tokenize : bool;
  config_case_sensitive : bool
}.

(* ================================================================= *)
(** ** Pattern construction: [glob_to_regex], [fuzzy_to_regex], [create_regex] *)

(** The loop of [glob_to_regex] over the escaped string [r]: at a backslash
    look at the next character, rewrite [\*] to [.*] and [\?] to [\S], and
    step over both. *)
Fixpoint glob_loop (r : utf8) : utf8 :=
  match r with
  | [] => []
  | c :: r' =>
      if c =? 92 then
        match r' with
        | [] => [c]
        | d :: r'' =>
            if d =? 42 then 46 :: d :: glob_loop r''
            else if d =? 63 then c :: 83 :: glob_loop r''
            else c :: d :: glob_loop r''
        end
      else c :: glob_loop r'
  end.

Definition glob_to_regex (input : utf8) : utf8 :=
  glob_loop (g_regex_escape_string input).

(** The loop of [fuzzy_to_regex] over the escaped string: one group per
    character, a backslash kept with the character it escapes, [.*] between
    groups. *)
Fixpoint fuzzy_loop (first : bool) (r : utf8) : utf8 :=
  match r with
  | [] => []
  | c :: r' =>
      (if first then [40] else [46; 42; 40]) ++
      (if c =? 92 then
         92 :: match r' with
               | [] => []
               | d :: r'' => d :: 41 :: fuzzy_loop false r''
               end
       else c :: 41 :: fuzzy_loop false r')
  end.

Definition fuzzy_to_regex (input : utf8) : utf8 :=
  fuzzy_loop true (g_regex_escape_string input).

(** The helper [R]. *)
Definition R (s : utf8) (case_sensitive : bool) : option GRegex :=
  g_regex_new s (negb case_sensitive).

Definition create_regex (config : Settings) (input : utf8) (case_sensitive : bool)
  : option GRegex :=
  match config_matching_method config with
  | MM_GLOB => R (glob_to_regex input) case_sensitive
  | MM_REGEX =>
      match R input case_sensitive with
      | Some retv => Some retv
      | None => R (g_regex_escape_string input) case_sensitive
      end
  | MM_FUZZY => R (fuzzy_to_regex input) case_sensitive
  | MM_NORMAL => R (g_regex_escape_string input) case_sensitive
  end.

(* ================================================================= *)
(** ** [tokenize] *)

(** The tokens that repeated [strtok_r (.., " ", ..)] returns: the maximal
    runs without a space.  [cur] is the run being read, reversed. *)
Fixpoint strtok_all (cur : utf8) (s : utf8) : list utf8 :=
  match s with
  | [] => match cur with [] => [] | _ :: _ => [rev cur] end
  | c :: s' =>
      if c =? 32 then
        match cur with
        | [] => strtok_all [] s'
        | _ :: _ => rev cur :: strtok_all [] s'
        end
      else strtok_all (c :: cur) s'
  end.

(** A NULL-terminated array of pointers shows its entries up to the first
    NULL. *)
Fixpoint until_null {A : Type} (l : list (option A)) : list A :=
  match l with
  | Some a :: l' => a :: until_null l'
  | _ => []
  end.

(** [GRegex **]: NULL, or a NULL-terminated array. *)
Definition TokenSet := option (list GRegex).

Definition tokenize (config : Settings) (input : option utf8) (case_sensitive : bool)
  : TokenSet :=
  match input with
  | None => None
  | Some input =>
      match input with
      | [] => None
      | _ :: _ =>
          if negb (config_tokenize config) then
            Some (until_null [create_regex config input case_sensitive])
          else
            match strtok_all [] input with
            | [] => None
            | toks => Some (until_null (map (fun token => create_regex config token case_sensitive) toks))
            end
      end
  end.

(* ================================================================= *)
(** ** [helper_token_match] *)

(** The loop [for (j = 0; match && tokens[j]; j++)]. *)
Fixpoint token_match_loop (U : Unicode) (tokens : list GRegex) (input : utf8) : bool :=
  match tokens with
  | [] => true
  | t :: tokens' =>
      if g_regex_match U t input then token_match_loop U tokens' input else false
  end.

Definition helper_token_match (U : Unicode) (tokens : TokenSet) (input : utf8) : bool :=
  match tokens with
  | None => true
  | Some toks => token_match_loop U toks input
  end.

(* ================================================================= *)
(** ** [helper_token_match_get_pango_attr] *)

(** Modelled from the spec: the "style bit flags {Bold, Underline, Italic,
    Color}" of a [ThemeHighlight].  The numeric values of [HL_BOLD],
    [HL_UNDERLINE], [HL_ITALIC] and [HL_COLOR] are declared in a header
    outside this file; the highlighter only tests each flag on its own, so
    the style is kept as the four tests. *)
Record HighlightStyle : Type := {
  HL_BOLD : bool; HL_UNDERLINE : bool; HL_ITALIC : bool; HL_COLOR : bool
}.

Inductive PangoAttrValue : Type :=
| pango_attr_weight_bold
| pango_attr_underline_single
| pango_attr_style_italic
| pango_attr_foreground (red green blue : Z).

Record PangoAttribute : Type := {
  pa_value : PangoAttrValue;
  start_index : Z;   (* guint *)
  end_index : Z      (* guint *)
}.

Definition PangoAttrList := list PangoAttribute.

(** [pango_attr_list_insert]: the list is ordered by [start_index]; the new
    attribute goes after all attributes that start at or before it. *)
Fixpoint pango_attr_list_insert (l : PangoAttrList) (pa : PangoAttribute) : PangoAttrList :=
  match l with
  | [] => [pa]
  | b :: l' =>
      if start_index b >? start_index pa then pa :: b :: l'
      else b :: pango_attr_list_insert l' pa
  end.

Section Highlight.
(** The colour channels are C doubles in [0, 1]; [to_channel x] stands for
    [x * 65535] converted to [guint16]. *)
Variable double : Type.
Variable to_channel : double -> Z.

(** Modelled from the spec: a [ThemeHighlight] is the style flags "plus an
    RGB triple". *)
Record ThemeHighlight : Type := {
  th_style : HighlightStyle;
  th_red : double; th_green : double; th_blue : double
}.

Definition mk_attr (v : PangoAttrValue) (span : Z * Z) : PangoAttribute :=
  {| pa_value := v; start_index := uint_wrap (fst span); end_index := uint_wrap (snd span) |}.

(** The four [if (th.style & ...)] blocks for one span. *)
Definition insert_span (th : ThemeHighlight) (retv : PangoAttrList) (span : Z * Z)
  : PangoAttrList :=
  let retv := if HL_BOLD (th_style th)
              then pango_attr_list_insert retv (mk_attr pango_attr_weight_bold span) else retv in
  let retv := if HL_UNDERLINE (th_style th)
              then pango_attr_list_insert retv (mk_attr pango_attr_underline_single span) else retv in
  let retv := if HL_ITALIC (th_style th)
              then pango_attr_list_insert retv (mk_attr pango_attr_style_italic span) else retv in
  if HL_COLOR (th_style th)
  then pango_attr_list_insert retv
         (mk_attr (pango_attr_foreground (to_channel (th_red th)) (to_channel (th_green th))
                     (to_channel (th_blue th))) span)
  else retv.

(** The groups visited for one match:
    [for (index = (count > 1) ? 1 : 0; index < count; index++)]. *)
Definition match_indices (count : nat) : list nat :=
  let first := if (1 <? count)%nat then 1%nat else 0%nat in
  seq first (count - first).

(** The spans reported for one match. *)
Definition match_spans (c : captures) : list (Z * Z) :=
  map (g_match_info_fetch_pos c) (match_indices (g_match_info_get_match_count c)).

Definition highlight_match (th : ThemeHighlight) (retv : PangoAttrList) (c : captures)
  : PangoAttrList :=
  fold_left (insert_span th) (match_spans c) retv.

Definition highlight_token (U : Unicode) (th : ThemeHighlight) (input : utf8)
    (retv : PangoAttrList) (token : GRegex) : PangoAttrList :=
  fold_left (highlight_match th) (g_regex_match_all U token input) retv.

Definition helper_token_match_get_pango_attr (U : Unicode) (th : ThemeHighlight)
    (tokens : TokenSet) (input : utf8) (retv : PangoAttrList) : PangoAttrList :=
  match tokens with
  | None => retv
  | Some toks => fold_left (highlight_token U th input) toks retv
  end.
End Highlight.

Arguments th_style {double}.
Arguments Build_ThemeHighlight {double}.

(* ================================================================= *)
(** ** [levenshtein] *)

(** The macro [MIN3]. *)
Definition MIN3 (a b c : Z) : Z :=
  if a <? b then (if a <? c then a else c) else (if b <? c then b else c).

Section Levenshtein.
Variable U : Unicode.
Variable config : Settings.

Definition lev_fold (c : gunichar) : gunichar :=
  if config_case_sensitive config then c else g_unichar_tolower U c.

(** The inner loop over [y]: [needles] is the needle from position [y]
    on, [column] the old entries [column[y..]], [left] the new
    [column[y-1]], [lastdiag] the old [column[y-1]]. *)
Fixpoint lev_inner (haystackc : gunichar) (needles : utf8) (column : list Z)
    (left lastdiag : Z) : list Z :=
  match needles, column with
  | nc :: needles', olddiag :: column' =>
      let needlec := lev_fold nc in
      let v := uint_wrap (MIN3 (uint_wrap (olddiag + 1)) (uint_wrap (left + 1))
                               (lastdiag + (if needlec =? haystackc then 0 else 1))) in
      v :: lev_inner haystackc needles' column' v olddiag
  | _, _ => []
  end.

(** The outer loop over [x], starting at row [x]. *)
Fixpoint lev_outer (needle haystack : utf8) (x : Z) (column : list Z) : list Z :=
  match haystack with
  | [] => column
  | hc :: haystack' =>
      let haystackc := lev_fold hc in
      lev_outer needle haystack' (x + 1)
        (uint_wrap x :: lev_inner haystackc needle (tl column) (uint_wrap x) (x - 1))
  end.

(** [needlelen] and [haystacklen] are code point counts, at most the
    lengths of the strings. *)
Definition levenshtein (needle : utf8) (needlelen : Z) (haystack : utf8) (haystacklen : Z) : Z :=
  if needlelen =? G_MAXLONG then UINT_MAX
  else
    let column := map (fun y => uint_wrap (Z.of_nat y)) (seq 0 (S (Z.to_nat needlelen))) in
    nth (Z.to_nat needlelen)
        (lev_outer (firstn (Z.to_nat needlelen) needle)
                   (firstn (Z.to_nat haystacklen) haystack) 1 column) 0.

(** The spec's [editDistance]: both lengths taken with [g_utf8_strlen]. *)
Definition editDistance (a b : utf8) : Z :=
  levenshtein a (g_utf8_strlen a) b (g_utf8_strlen b).
End Levenshtein.

(* ================================================================= *)
(** ** The fuzzy scorer *)

Definition FUZZY_SCORER_MAX_LENGTH : Z := 256.
Definition MIN_SCORE : Z := Z.quot INT_MIN 2.
Definition LEADING_GAP_SCORE : Z := -4.
Definition GAP_SCORE : Z := -5.
Definition WORD_START_SCORE : Z := 50.
Definition NON_WORD_SCORE : Z := 40.
Definition CAMEL_SCORE : Z := WORD_START_SCORE + GAP_SCORE - 1.
Definition CONSECUTIVE_SCORE : Z := WORD_START_SCORE + GAP_SCORE.
Definition PATTERN_NON_START_MULTIPLIER : Z := 1.
Definition PATTERN_START_MULTIPLIER : Z := 2.

Inductive CharClass : Type := LOWER | UPPER | DIGIT | NON_WORD.

Definition CharClass_eqb (a b : CharClass) : bool :=
  match a, b with
  | LOWER, LOWER | UPPER, UPPER | DIGIT, DIGIT | NON_WORD, NON_WORD => true
  | _, _ => false
  end.

Definition rofi_scorer_get_score_for (prev curr : CharClass) : Z :=
  if CharClass_eqb prev NON_WORD && negb (CharClass_eqb curr NON_WORD) then WORD_START_SCORE
  else if (CharClass_eqb prev LOWER && CharClass_eqb curr UPPER)
          || (negb (CharClass_eqb prev DIGIT) && CharClass_eqb curr DIGIT) then CAMEL_SCORE
  else if CharClass_eqb curr NON_WORD then NON_WORD_SCORE
  else 0.

Section Scorer.
Variable U : Unicode.
Variable config : Settings.

Definition rofi_scorer_get_character_class (c : gunichar) : CharClass :=
  if g_unichar_islower U c then LOWER
  else if g_unichar_isupper U c then UPPER
  else if g_unichar_isdigit U c then DIGIT
  else NON_WORD.

(** The first loop: [score[si]] for the characters of [str], where [prev]
    is the class of the character before them. *)
Fixpoint score_loop (prev : CharClass) (str : utf8) : list Z :=
  match str with
  | [] => []
  | sc :: str' =>
      let cur := rofi_scorer_get_character_class sc in
      rofi_scorer_get_score_for prev cur :: score_loop cur str'
  end.

Definition scorer_char_eq (pc sc : gunichar) : bool :=
  if config_case_sensitive config then pc =? sc
  else g_unichar_tolower U pc =? g_unichar_tolower U sc.

(** The inner loop over [si] for one pattern character [pc]: [str],
    [score] and [dp] are the arrays from index [si] on.  Returns the new
    [dp] entries and the final [uleft] and [ulefts]. *)
Fixpoint scorer_row (pc : gunichar) (pfirst pstart : bool) (si : Z)
    (str : utf8) (score dp : list Z) (lefts uleft ulefts : Z) : list Z * (Z * Z) :=
  match str, score, dp with
  | sc :: str', score_si :: score', dp_si :: dp' =>
      let lefts := MAX (int_wrap (lefts + GAP_SCORE)) dp_si in
      let cell :=
        if scorer_char_eq pc sc then
          let t := int_wrap (score_si * (if pstart then PATTERN_START_MULTIPLIER
                                         else PATTERN_NON_START_MULTIPLIER)) in
          if pfirst then int_wrap (LEADING_GAP_SCORE * si + t)
          else MAX (int_wrap (uleft + CONSECUTIVE_SCORE)) (int_wrap (ulefts + t))
        else MIN_SCORE in
      let '(dp_rest, final) := scorer_row pc pfirst pstart (si + 1) str' score' dp' lefts dp_si lefts in
      (cell :: dp_rest, final)
  | _, _, _ => ([], (uleft, ulefts))
  end.

(** The loop over the pattern.  [uleft] and [ulefts] are function-level
    variables of the source and keep their values from one row to the
    next. *)
Fixpoint scorer_rows (pattern : utf8) (pfirst pstart : bool) (str : utf8)
    (score dp : list Z) (uleft ulefts : Z) : list Z :=
  match pattern with
  | [] => dp
  | pc :: pattern' =>
      if g_unichar_isspace U pc then scorer_rows pattern' pfirst true str score dp uleft ulefts
      else
        let '(dp', (uleft', ulefts')) :=
          scorer_row pc pfirst pstart 0 str score dp MIN_SCORE uleft ulefts in
        scorer_rows pattern' false false str score dp' uleft' ulefts'
  end.

(** The last loop: the best value of the final row under the gap
    penalty. *)
Definition scorer_final (dp : list Z) : Z :=
  fold_left (fun lefts dp_si => MAX (int_wrap (lefts + GAP_SCORE)) dp_si) dp MIN_SCORE.

(** [plen] and [slen] are code point counts, at most the lengths of the
    strings. *)
Definition rofi_scorer_fuzzy_evaluate (pattern : utf8) (plen : Z) (str : utf8) (slen : Z) : Z :=
  if slen >? FUZZY_SCORER_MAX_LENGTH then int_wrap (- MIN_SCORE)
  else
    let str := firstn (Z.to_nat slen) str in
    let score := score_loop NON_WORD str in
    let dp := map (fun _ => MIN_SCORE) str in
    let dp := scorer_rows (firstn (Z.to_nat plen) pattern) true true str score dp 0 0 in
    int_wrap (- scorer_final dp).

(** The spec's [fuzzyScore]: both lengths taken with [g_utf8_strlen]. *)
Definition fuzzyScore (pattern candidate : utf8) : Z :=
  rofi_scorer_fuzzy_evaluate pattern (g_utf8_strlen pattern) candidate (g_utf8_strlen candidate).
End Scorer.

(* ================================================================= *)
(** ** Reference notions the program is compared with *)

Section Language.
Variable U : Unicode.
Variable caseless : bool.

(** The strings a pattern denotes. *)
Fixpoint lang (r : regex) (s : utf8) : Prop :=
  match r with
  | REmpty => s = []
  | RAtom a QOne => exists x, s = [x] /\ atom_ok U caseless a x = true
  | RAtom a QStar => Forall (fun x => atom_ok U caseless a x = true) s
  | RAtom a QPlus => s <> [] /\ Forall (fun x => atom_ok U caseless a x = true) s
  | RAtom a QOpt => s = [] \/ exists x, s = [x] /\ atom_ok U caseless a x = true
  | RSeq r1 r2 => exists s1 s2, s = s1 ++ s2 /\ lang r1 s1 /\ lang r2 s2
  | RAlt r1 r2 => lang r1 s \/ lang r2 s
  | RGroup _ r' => lang r' s
  end.

(** Two code points are the same character for a pattern compiled with or
    without [G_REGEX_CASELESS]. *)
Definition same_char (p x : gunichar) : bool :=
  if caseless then pcre_fold U p =? pcre_fold U x else p =? x.

(** Something that can start at a position starts somewhere in [C]. *)
Fixpoint find_from (here : utf8 -> bool) (C : utf8) : bool :=
  here C || match C with [] => false | _ :: C' => find_from here C' end.

(** [P] starts [C], character by character. *)
Fixpoint literal_here (P C : utf8) : bool :=
  match P, C with
  | [], _ => true
  | p :: P', x :: C' => same_char p x && literal_here P' C'
  | _ :: _, [] => false
  end.

(** [P] occurs in [C] as a contiguous piece. *)
Definition literal_find (P C : utf8) : bool := find_from (literal_here P) C.

(** One character of a glob, other than [*], against one character of the
    candidate: [?] stands for any character that is not white space. *)
Definition glob_char (p x : gunichar) : bool :=
  if p =? 63 then negb (pcre_space U x) else same_char p x.

(** A glob matched at the start of [C]: [*] stands for a run, possibly
    empty, of characters that are not line endings, [?] for one character
    that is not white space, any other character for itself. *)
Fixpoint glob_here (P : utf8) : utf8 -> bool :=
  match P with
  | [] => fun _ => true
  | p :: P' =>
      if p =? 42 then
        fix run (C : utf8) : bool :=
          glob_here P' C ||
          match C with
          | [] => false
          | x :: C' => negb (pcre_newline U x) && run C'
          end
      else
        fun C => match C with
                 | [] => false
                 | x :: C' => glob_char p x && glob_here P' C'
                 end
  end.

Definition glob_find (P C : utf8) : bool := find_from (glob_here P) C.

(** The rest of a fuzzy token after one of its characters was found: each
    further character of [P] is found in order, after a run, possibly
    empty, of characters that are not line endings. *)
Fixpoint fuzzy_tail (P C : utf8) {struct C} : bool :=
  match P with
  | [] => true
  | p :: P' =>
      match C with
      | [] => false
      | x :: C' => (same_char p x && fuzzy_tail P' C') || (negb (pcre_newline U x) && fuzzy_tail P C')
      end
  end.

(** A fuzzy token found with its first character at the start of [C]. *)
Definition fuzzy_here (P C : utf8) : bool :=
  match P with
  | [] => true
  | p :: P' =>
      match C with
      | [] => false
      | x :: C' => same_char p x && fuzzy_tail P' C'
      end
  end.

Definition fuzzy_accepts (P C : utf8) : bool := find_from (fuzzy_here P) C.
End Language.

(** A pattern has an occurrence somewhere in the candidate. *)
Definition occurs (U : Unicode) (re : GRegex) (candidate : utf8) : Prop :=
  exists before found after,
    candidate = before ++ found ++ after /\ lang U (re_caseless re) (re_code re) found.

(** The tokens of a token set; a NULL set has none. *)
Definition token_list (tokens : TokenSet) : list GRegex :=
  match tokens with
  | None => []
  | Some toks => toks
  end.

(** The code points of [P] occur in [C] in the same order, anything in
    between. *)
Fixpoint subsequence (P C : utf8) {struct C} : bool :=
  match P with
  | [] => true
  | p :: P' =>
      match C with
      | [] => false
      | x :: C' => if p =? x then subsequence P' C' else subsequence P C'
      end
  end.

(** The parsed form of the three generated kinds of pattern. *)
Definition literal_items (P : utf8) : list regex :=
  map (fun p => RAtom (ALit p) QOne) P.

Definition glob_item (p : gunichar) : regex :=
  if p =? 42 then RAtom ADot QStar
  else if p =? 63 then RAtom (ASpace true) QOne
  else RAtom (ALit p) QOne.

Fixpoint fuzzy_items (first : bool) (n : nat) (P : utf8) : list regex :=
  match P with
  | [] => []
  | p :: P' =>
      (if first then [] else [RAtom ADot QStar]) ++
      RGroup n (mk_seq [RAtom (ALit p) QOne]) :: fuzzy_items false (S n) P'
  end.

(** The span rule as the specification words it: with more than one capture
    group each group's span, otherwise the span of the whole match. *)
Definition spans_by_group_count (c : captures) : list (Z * Z) :=
  let groups := (g_match_info_get_match_count c - 1)%nat in
  if (1 <? groups)%nat then map (g_match_info_fetch_pos c) (seq 1 groups)
  else [g_match_info_fetch_pos c 0].

(** The Levenshtein distance by its recurrence: the distance to or from
    the empty string is the length of the other string; otherwise it is the
    least of the distance without the first character of [a] plus 1, the
    distance without the first character of [b] plus 1, and the distance
    without both plus 0 if the two characters agree, else 1. *)
Fixpoint lev_rec (same : gunichar -> gunichar -> bool) (a : utf8) : utf8 -> Z :=
  match a with
  | [] => fun b => Z.of_nat (length b)
  | x :: a' =>
      fix inner (b : utf8) : Z :=
        match b with
        | [] => Z.of_nat (length (x :: a'))
        | y :: b' =>
            Z.min (lev_rec same a' (y :: b') + 1)
                  (Z.min (inner b' + 1) (lev_rec same a' b' + (if same x y then 0 else 1)))
        end
  end.

Definition levenshtein_distance (same : gunichar -> gunichar -> bool) (a b : utf8) : Z :=
  lev_rec same a b.

(** The column of the distance table for a haystack prefix: [h] is that
    prefix, last character first, and the entries are the distances of the
    needle prefixes that extend [rp] (last character first) by the
    characters of [needles], one more each time. *)
Fixpoint lev_column (same : gunichar -> gunichar -> bool) (rp needles h : utf8) : list Z :=
  match needles with
  | [] => []
  | n :: needles' => lev_rec same (n :: rp) h :: lev_column same (n :: rp) needles' h
  end.

(** Two tables agree on the code points of a string. *)
Definition tables_agree (U V : Unicode) (s : utf8) : Prop :=
  Forall (fun c =>
            g_unichar_islower U c = g_unichar_islower V c /\
            g_unichar_isupper U c = g_unichar_isupper V c /\
            g_unichar_isdigit U c = g_unichar_isdigit V c /\
            g_unichar_isspace U c = g_unichar_isspace V c /\
            g_unichar_tolower U c = g_unichar_tolower V c) s.

(** Configurations used in the statements. *)
Definition settings (m : MatchingMethod) (tok cs : bool) : Settings :=
  {| config_matching_method := m; config_tokenize := tok; config_case_sensitive := cs |}.

(** The escaped form of one character. *)
Definition escaped_char (c : gunichar) : utf8 :=
  if regex_special c then [92; c] else [c].

(** What [glob_to_regex] makes of one character. *)
Definition glob_piece (p : gunichar) : utf8 :=
  if p =? 42 then [46; 42] else if p =? 63 then [92; 83] else escaped_char p.

(** The parser state after a run of items on the current level. *)
Definition ps_items (st : pstate) (items : list regex) : pstate :=
  fold_left ps_push items st.

(** The length in bytes of the UTF-8 encoding. *)
Definition utf8_bytes (s : utf8) : Z :=
  fold_right (fun c acc => utf8_width c + acc) 0 s.

(** A pattern without capturing groups. *)
Fixpoint groupless (r : regex) : bool :=
  match r with
  | REmpty | RAtom _ _ => true
  | RSeq r1 r2 | RAlt r1 r2 => groupless r1 && groupless r2
  | RGroup _ _ => false
  end.

(** A continuation succeeds exactly on the rests in [K], whatever the
    offset and the groups it is called with. *)
Definition realises (k : cont) (K : utf8 -> Prop) : Prop :=
  forall pos s c, k pos s c <> None <-> K s.

(** The number of style flags that are set: the number of attributes the
    highlighter inserts for one span. *)
Definition style_count (st : HighlightStyle) : nat :=
  ((if HL_BOLD st then 1 else 0) + (if HL_UNDERLINE st then 1 else 0) +
   (if HL_ITALIC st then 1 else 0) + (if HL_COLOR st then 1 else 0))%nat.

(** A span of byte offsets that lies between two offsets. *)
Definition span_within (lo hi : Z) (span : Z * Z) : Prop :=
  lo <= fst span /\ fst span <= snd span /\ snd span <= hi.

(** Spans that follow one another from offset [pos] on without overlap, each
    as wide as one UTF-8 character. *)
Fixpoint span_chain (pos : Z) (spans : list (Z * Z)) : Prop :=
  match spans with
  | [] => True
  | span :: spans' =>
      pos <= fst span /\ 1 <= snd span - fst span <= 4 /\ span_chain (snd span) spans'
  end.

(** The attribute list is ordered by [start_index]. *)
Definition attrs_ordered (l : PangoAttrList) : Prop :=
  StronglySorted (fun a b => start_index a <= start_index b) l.

(** All the spans the highlighter reports for a token set, in the order it
    visits them: token by token, match by match, group by group. *)
Definition highlight_spans (U : Unicode) (tokens : TokenSet) (input : utf8) : list (Z * Z) :=
  flat_map (fun t => flat_map match_spans (g_regex_match_all U t input)) (token_list tokens).

(** The scorer over the integers: the loops of [rofi_scorer_fuzzy_evaluate]
    with no reduction of the [int] results to 32 bits. *)
Section ExactScorer.
Variable U : Unicode.
Variable config : Settings.

Fixpoint exact_row (pc : gunichar) (pfirst pstart : bool) (si : Z)
    (str : utf8) (score dp : list Z) (lefts uleft ulefts : Z) : list Z * (Z * Z) :=
  match str, score, dp with
  | sc :: str', score_si :: score', dp_si :: dp' =>
      let lefts := Z.max (lefts + GAP_SCORE) dp_si in
      let cell :=
        if scorer_char_eq U config pc sc then
          let t := score_si * (if pstart then PATTERN_START_MULTIPLIER
                               else PATTERN_NON_START_MULTIPLIER) in
          if pfirst then LEADING_GAP_SCORE * si + t
          else Z.max (uleft + CONSECUTIVE_SCORE) (ulefts + t)
        else MIN_SCORE in
      let '(dp_rest, final) := exact_row pc pfirst pstart (si + 1) str' score' dp' lefts dp_si lefts in
      (cell :: dp_rest, final)
  | _, _, _ => ([], (uleft, ulefts))
  end.

Fixpoint exact_rows (pattern : utf8) (pfirst pstart : bool) (str : utf8)
    (score dp : list Z) (uleft ulefts : Z) : list Z :=
  match pattern with
  | [] => dp
  | pc :: pattern' =>
      if g_unichar_isspace U pc then exact_rows pattern' pfirst true str score dp uleft ulefts
      else
        let '(dp', (uleft', ulefts')) :=
          exact_row pc pfirst pstart 0 str score dp MIN_SCORE uleft ulefts in
        exact_rows pattern' false false str score dp' uleft' ulefts'
  end.

(** The best value of a run of cells under the gap penalty, from [lefts]. *)
Definition gap_decay (lefts : Z) (dp : list Z) : Z :=
  fold_left (fun lefts dp_si => Z.max (lefts + GAP_SCORE) dp_si) dp lefts.

Definition exact_evaluate (pattern : utf8) (plen : Z) (str : utf8) (slen : Z) : Z :=
  if slen >? FUZZY_SCORER_MAX_LENGTH then - MIN_SCORE
  else
    let str := firstn (Z.to_nat slen) str in
    let score := score_loop U NON_WORD str in
    let dp := map (fun _ => MIN_SCORE) str in
    - gap_decay MIN_SCORE
        (exact_rows (firstn (Z.to_nat plen) pattern) true true str score dp 0 0).

(** The characters of [P] are found in [C] in the same order, as the
    scorer compares characters. *)
Inductive embeds : utf8 -> utf8 -> Prop :=
  | embeds_nil (C : utf8) : embeds [] C
  | embeds_take (p : gunichar) (P : utf8) (c : gunichar) (C : utf8) :
      scorer_char_eq U config p c = true -> embeds P C -> embeds (p :: P) (c :: C)
  | embeds_skip (P : utf8) (c : gunichar) (C : utf8) : embeds P C -> embeds P (c :: C).

(** The characters of a pattern that are not white space. *)
Definition pattern_letters (pattern : utf8) : utf8 :=
  filter (fun pc => negb (g_unichar_isspace U pc)) pattern.
End ExactScorer.

(* ================================================================= *)
(** ** Command line arguments: [find_arg] and its variants *)

(** A NUL-terminated C string of any bytes, as the sequence of its bytes
    (0 to 255; the terminator is not part of the list). *)
Definition cstring := list Z.

(** An ASCII literal as a [cstring], for writing examples. *)
Definition c_str (s : string) : cstring :=
  map (fun a => Z.of_N (N_of_ascii a)) (list_ascii_of_string s).

Definition strlen (s : cstring) : Z := Z.of_nat (length s).

(** [s[i]]; the byte at the end of the string is the terminator. *)
Definition char_at (s : cstring) (i : nat) : Z := nth i s 0.

(** The C library is taken in the "C" locale. *)
Definition c_tolower (c : Z) : Z := if in_range 65 90 c then c + 32 else c.

Definition c_isspace (c : Z) : bool := (c =? 32) || in_range 9 13 c.

(** [strcasecmp]: the difference of the first two bytes that differ after
    [tolower], the end of a string counting as the byte 0. *)
Fixpoint strcasecmp (a b : cstring) : Z :=
  match a, b with
  | [], [] => 0
  | [], y :: _ => 0 - c_tolower y
  | x :: _, [] => c_tolower x
  | x :: a', y :: b' =>
      if c_tolower x =? c_tolower y then strcasecmp a' b' else c_tolower x - c_tolower y
  end.

Definition LONG_MAX : Z := G_MAXLONG.
Definition LONG_MIN : Z := - G_MAXLONG - 1.
Definition ULONG_MAX : Z := 18446744073709551615.

(** The value of a digit or letter in a number; [None] for other bytes. *)
Definition digit_value (c : Z) : option Z :=
  if in_range 48 57 c then Some (c - 48)
  else if in_range 97 122 c then Some (c - 87)
  else if in_range 65 90 c then Some (c - 55)
  else None.

Fixpoint skip_spaces (s : cstring) : cstring :=
  match s with
  | c :: s' => if c_isspace c then skip_spaces s' else s
  | [] => []
  end.

Definition strtol_sign (s : cstring) : bool * cstring :=
  match s with
  | c :: s' => if c =? 45 then (true, s') else if c =? 43 then (false, s') else (false, s)
  | [] => (false, [])
  end.

(** The optional [0x] of a number in base 16; it belongs to the number only
    in front of a digit. *)
Definition strtol_prefix (base : Z) (s : cstring) : cstring :=
  match s with
  | z :: x :: d :: s' =>
      if (base =? 16) && (z =? 48) && ((x =? 120) || (x =? 88)) &&
         match digit_value d with Some v => v <? 16 | None => false end
      then d :: s' else s
  | _ => s
  end.

(** The digits of the number, as far as they go. *)
Fixpoint strtol_digits (base acc : Z) (s : cstring) : Z :=
  match s with
  | c :: s' =>
      match digit_value c with
      | Some v => if v <? base then strtol_digits base (acc * base + v) s' else acc
      | None => acc
      end
  | [] => acc
  end.

(** The sign and the magnitude that [strtol] and [strtoul] read: white
    space, an optional sign, an optional prefix, digits.  With no digit the
    magnitude is 0. *)
Definition strtol_magnitude (s : cstring) (base : Z) : bool * Z :=
  let '(negative, s) := strtol_sign (skip_spaces s) in
  (negative, strtol_digits base 0 (strtol_prefix base s)).

(** [strtol (s, NULL, base)]: a value outside of [long] is replaced by
    [LONG_MIN] or [LONG_MAX]. *)
Definition strtol (s : cstring) (base : Z) : Z :=
  let '(negative, v) := strtol_magnitude s base in
  if negative then Z.max (- v) LONG_MIN else Z.min v LONG_MAX.

(** [strtoul (s, NULL, base)]: a magnitude outside of [unsigned long] is
    replaced by [ULONG_MAX]; after a minus sign the value is negated in
    [unsigned long]. *)
Definition strtoul (s : cstring) (base : Z) : Z :=
  let '(negative, v) := strtol_magnitude s base in
  if v >? ULONG_MAX then ULONG_MAX
  else if negative then (- v) mod (ULONG_MAX + 1) else v.

(** A [char] is given as the byte it is stored as, 0 to 255. *)
Definition char_wrap (z : Z) : Z := z mod 256.

Definition helper_parse_char (arg : cstring) : Z :=
  let len := strlen arg in
  if len =? 1 then char_at arg 0
  else
    let unescaped :=
      if (len =? 2) && (char_at arg 0 =? 92) then
        let c := char_at arg 1 in
        if c =? 110 then Some 10
        else if c =? 97 then Some 7
        else if c =? 98 then Some 8
        else if c =? 116 then Some 9
        else if c =? 118 then Some 11
        else if c =? 102 then Some 12
        else if c =? 114 then Some 13
        else if c =? 92 then Some 92
        else if c =? 48 then Some 0
        else None
      else None in
    match unescaped with
    | Some c => c
    | None =>
        if (len >? 2) && (char_at arg 0 =? 92) && (char_at arg 1 =? 120)
        then char_wrap (strtol (skipn 2 arg) 16)
        else 10
    end.

(** What [find_arg_strv] returns: NULL, or the array it allocated; the third
    case stands for a write outside of the array. *)
Inductive strv_result : Type :=
  | StrvNull
  | StrvArray (slots : list (option cstring))
  | StrvOverrun.

(** [a[i] = x] on an array of known size. *)
Fixpoint array_set {A : Type} (a : list A) (i : nat) (x : A) : option (list A) :=
  match a, i with
  | [], _ => None
  | _ :: a', O => Some (x :: a')
  | y :: a', S i' => option_map (cons y) (array_set a' i' x)
  end.

Section Arguments.
(** The arguments stored by [cmd_set_arguments]. *)
Variable stored_argv : list cstring.

Definition stored_argc : Z := Z.of_nat (length stored_argv).

(** The loop of [find_arg], with [argv] the arguments from index [i] on. *)
Fixpoint find_arg_loop (i : Z) (argv : list cstring) (key : cstring) : Z :=
  match argv with
  | [] => i
  | a :: argv' => if strcasecmp a key =? 0 then i else find_arg_loop (i + 1) argv' key
  end.

Definition find_arg (key : cstring) : Z :=
  let i := find_arg_loop 0 stored_argv key in
  if i <? stored_argc then i else -1.

(** [stored_argv[i]]. *)
Definition argv_at (i : Z) : cstring := nth (Z.to_nat i) stored_argv [].

(** The variants return [TRUE] and store a value through [val], or return
    [FALSE]: [Some] of the value stored, or [None].  [val] tells whether the
    pointer given is not NULL. *)
Definition find_arg_str (key : cstring) (val : bool) : option cstring :=
  let i := find_arg key in
  if val && (i >? 0) && (i <? stored_argc - 1) then Some (argv_at (i + 1)) else None.

(** The [long] that [strtol] returns is stored in an [int], the
    [unsigned long] of [strtoul] in an [unsigned int]: both reduced to 32
    bits. *)
Definition find_arg_int (key : cstring) (val : bool) : option Z :=
  let i := find_arg key in
  if val && (i >? 0) && (i <? stored_argc - 1)
  then Some (int_wrap (strtol (argv_at (i + 1)) 10)) else None.

Definition find_arg_uint (key : cstring) (val : bool) : option Z :=
  let i := find_arg key in
  if val && (i >? 0) && (i <? stored_argc - 1)
  then Some (uint_wrap (strtoul (argv_at (i + 1)) 10)) else None.

Definition find_arg_char (key : cstring) (val : bool) : option Z :=
  let i := find_arg key in
  if val && (i >? 0) && (i <? stored_argc - 1)
  then Some (helper_parse_char (argv_at (i + 1))) else None.

(** The first loop of [find_arg_strv]. *)
Fixpoint strv_count (i : Z) (argv : list cstring) (key : cstring) (length : Z) : Z :=
  match argv with
  | [] => length
  | a :: argv' =>
      strv_count (i + 1) argv' key
        (if (strcasecmp a key =? 0) && (i <? stored_argc - 1) then length + 1 else length)
  end.

(** The second loop; [None] when a write falls outside of [retv]. *)
Fixpoint strv_fill (i : Z) (argv : list cstring) (key : cstring) (index : Z)
    (retv : list (option cstring)) : option (list (option cstring)) :=
  match argv with
  | [] => Some retv
  | a :: argv' =>
      if (strcasecmp a key =? 0) && (i <? stored_argc - 1) then
        match array_set retv (Z.to_nat index) (Some (argv_at (i + 1))) with
        | Some retv' => strv_fill (i + 1) argv' key (index + 1) retv'
        | None => None
        end
      else strv_fill (i + 1) argv' key index retv
  end.

Definition find_arg_strv (key : cstring) : strv_result :=
  let length := strv_count 0 stored_argv key 0 in
  if length >? 0 then
    match strv_fill 0 stored_argv key 0 (repeat None (Z.to_nat (length + 1))) with
    | Some retv => StrvArray retv
    | None => StrvOverrun
    end
  else StrvNull.
End Arguments.

(** The argument is not the key. *)
Definition arg_differs (key a : cstring) : Prop := strcasecmp a key <> 0.

(** The arguments that follow an argument equal to [key], in order. *)
Fixpoint values_after (key : cstring) (argv : list cstring) : list cstring :=
  match argv with
  | a :: argv' =>
      match argv' with
      | v :: _ => if strcasecmp a key =? 0 then v :: values_after key argv'
                  else values_after key argv'
      | [] => []
      end
  | [] => []
  end.

(** [printf ("%ld")] of a number, as a C string. *)
Definition decimal (n : Z) : cstring := c_str (DecimalString.NilZero.string_of_int (Z.to_int n)).

(** The two digits of [printf ("%02x")] of a byte. *)
Definition hex_digit (v : Z) : Z := if v <? 10 then 48 + v else 87 + v.

Definition hex2 (b : Z) : cstring := [hex_digit (b / 16); hex_digit (b mod 16)].


(* ================================================================= *)
(** ** [rofi_force_utf8] *)

(** The bytes of U+FFFD, the replacement character. *)
Definition replacement_character : list Z := [239; 191; 189].

(** What [rofi_force_utf8] returns: NULL, or a string; the third case
    stands for a loop that does not end. *)
Inductive forced : Type :=
  | ForcedNull
  | ForcedString (string : list Z)
  | ForcedLoops.

Section ForceUtf8.
(** [g_utf8_validate (data, length, &end)] on a buffer of [length] bytes
    sets [end] behind the bytes that are valid UTF-8 text and holds when
    that is the whole buffer.  [valid_run data] is [end - data].  GLib is not
    part of the repository, so the development is parametric in the
    validator; [utf8_valid_run] below is the validator of UTF-8 proper. *)
Variable valid_run : list Z -> nat.

Definition g_utf8_validate (data : list Z) : bool := (valid_run data =? length data)%nat.

(** The do-while loop, entered with [data] the bytes not yet copied and
    [string] the bytes written. *)
Fixpoint force_loop (fuel : nat) (data string : list Z) : forced :=
  match fuel with
  | O => ForcedLoops
  | S fuel' =>
      let valid_part := firstn (valid_run data) data in
      let string := string ++ valid_part ++ replacement_character in
      let data := skipn (S (valid_run data)) data in
      if g_utf8_validate data then ForcedString (string ++ data)
      else force_loop fuel' data string
  end.

(** [start] is NULL or a buffer of [length] bytes, [length] not negative. *)
Definition rofi_force_utf8 (start : option (list Z)) : forced :=
  match start with
  | None => ForcedNull
  | Some data =>
      if g_utf8_validate data then ForcedString data
      else force_loop (S (length data)) data []
  end.

(** The buffer is valid UTF-8 text. *)
Definition utf8_valid (data : list Z) : Prop := valid_run data = length data.

(** [out] is [data] with some bytes replaced by U+FFFD, each between
    stretches of valid text. *)
Inductive repaired : list Z -> list Z -> Prop :=
  | repaired_valid (data : list Z) : utf8_valid data -> repaired data data
  | repaired_byte (valid_part : list Z) (byte : Z) (rest out : list Z) :
      utf8_valid valid_part -> repaired rest out ->
      repaired (valid_part ++ byte :: rest) (valid_part ++ replacement_character ++ out).
End ForceUtf8.

(** A continuation byte, 10xxxxxx. *)
Definition is_cont (b : Z) : bool := in_range 128 191 b.

(** The second byte of a character of three bytes: no overlong form, no
    surrogate. *)
Definition second_of_three (b0 b1 : Z) : bool :=
  if b0 =? 224 then in_range 160 191 b1
  else if b0 =? 237 then in_range 128 159 b1
  else is_cont b1.

(** The second byte of a character of four bytes: no overlong form, nothing
    above U+10FFFF. *)
Definition second_of_four (b0 b1 : Z) : bool :=
  if b0 =? 240 then in_range 144 191 b1
  else if b0 =? 244 then in_range 128 143 b1
  else is_cont b1.

(** The validator of UTF-8: the number of bytes before the first one that
    does not start or continue a well-formed character, a NUL byte or a
    character cut off by the end of the buffer. *)
Fixpoint utf8_valid_run (data : list Z) : nat :=
  match data with
  | [] => 0
  | b0 :: r0 =>
      if in_range 1 127 b0 then S (utf8_valid_run r0)
      else if in_range 194 223 b0 then
        match r0 with
        | b1 :: r1 => if is_cont b1 then S (S (utf8_valid_run r1)) else 0
        | [] => 0
        end
      else if in_range 224 239 b0 then
        match r0 with
        | b1 :: b2 :: r2 =>
            if second_of_three b0 b1 && is_cont b2 then S (S (S (utf8_valid_run r2))) else 0
        | _ => 0
        end
      else if in_range 240 244 b0 then
        match r0 with
        | b1 :: b2 :: b3 :: r3 =>
            if second_of_four b0 b1 && is_cont b2 && is_cont b3
            then S (S (S (S (utf8_valid_run r3)))) else 0
        | _ => 0
        end
      else 0
  end.

(* ================================================================= *)
(** ** [helper_parse_setup] *)

(** A [GHashTable] with [g_str_hash] and [g_str_equal]: strings to strings
    or NULL.  A key inserted again replaces the old value; here the latest
    insertion comes first and is the one found. *)
Definition GHashTable : Type := list (utf8 * option utf8).

Definition g_hash_table_insert (h : GHashTable) (key : utf8) (value : option utf8) : GHashTable :=
  (key, value) :: h.

(** NULL when the key is not in the table, or was inserted with NULL. *)
Fixpoint g_hash_table_lookup (h : GHashTable) (key : utf8) : option utf8 :=
  match h with
  | [] => None
  | (k, value) :: h' =>
      if list_eq_dec Z.eq_dec k key then value else g_hash_table_lookup h' key
  end.

(** The loop over the variable arguments, given without their closing NULL:
    keys and values in turn, until a key or a value is NULL. *)
Fixpoint setup_arguments (ap : list (option utf8)) (h : GHashTable) : GHashTable :=
  match ap with
  | Some key :: Some value :: ap' => setup_arguments ap' (g_hash_table_insert h key (Some value))
  | _ => h
  end.

(** [helper_eval_cb] on a match: what it appends to the result. *)
Definition helper_eval_cb (h : GHashTable) (matched : utf8) : utf8 :=
  match g_hash_table_lookup h matched with
  | Some r => r
  | None => []
  end.

Section ParseSetup.
(** The characters the pattern escape [\w] stands for; the braces are not
    among them. *)
Variable pcre_word : gunichar -> bool.

(** [g_shell_parse_argv]: the arguments, or [None] when the string cannot
    be parsed. *)
Variable g_shell_parse_argv : utf8 -> option (list utf8).

(** [config.terminal_emulator] and [config.ssh_client], strings or NULL. *)
Variable config_terminal_emulator : option utf8.
Variable config_ssh_client : option utf8.

(** A character of the class [[-\w]]. *)
Definition key_char (c : gunichar) : bool := (c =? 45) || pcre_word c.

(** [g_regex_replace_eval] for the pattern [{[-\w]+}] with [helper_eval_cb]:
    the text outside of the matches is copied, each match is replaced by
    what the callback appends.  [opened] holds, last first, the characters
    of the class read since an opening brace. *)
Fixpoint replace_eval (h : GHashTable) (s : utf8) (opened : option utf8) : utf8 :=
  match s with
  | [] =>
      match opened with
      | Some run => 123 :: rev run
      | None => []
      end
  | c :: s' =>
      let outside := if c =? 123 then replace_eval h s' (Some [])
                     else c :: replace_eval h s' None in
      match opened with
      | None => outside
      | Some run =>
          if key_char c then replace_eval h s' (Some (c :: run))
          else if (c =? 125) && negb (match run with [] => true | _ => false end)
          then helper_eval_cb h (123 :: rev run ++ [125]) ++ replace_eval h s' None
          else (123 :: rev run) ++ outside
      end
  end.

(** The table the replacements are looked up in. *)
Definition setup_table (ap : list (option utf8)) : GHashTable :=
  setup_arguments ap
    (g_hash_table_insert
       (g_hash_table_insert [] (cps "{terminal}") config_terminal_emulator)
       (cps "{ssh-client}") config_ssh_client).

(** The string handed to [g_shell_parse_argv]. *)
Definition setup_string (string : utf8) (ap : list (option utf8)) : utf8 :=
  replace_eval (setup_table ap) string None.

(** [Some] of the arguments stored through [output] when the result is
    [TRUE], [None] when it is [FALSE]. *)
Definition helper_parse_setup (string : utf8) (ap : list (option utf8)) : option (list utf8) :=
  g_shell_parse_argv (setup_string string ap).
End ParseSetup.

(** A placeholder: the key between braces. *)
Definition placeholder (key : utf8) : utf8 := 123 :: key ++ [125].

(** The arguments of a list of keys and values. *)
Definition setup_pairs (pairs : list (utf8 * utf8)) : list (option utf8) :=
  flat_map (fun p => [Some (fst p); Some (snd p)]) pairs.

(** The value the latest of the pairs gives to the key. *)
Fixpoint latest_value (pairs : list (utf8 * utf8)) (key : utf8) : option utf8 :=
  match pairs with
  | [] => None
  | (k, value) :: pairs' =>
      match latest_value pairs' key with
      | Some later => Some later
      | None => if list_eq_dec Z.eq_dec k key then Some value else None
      end
  end.

(** The argument list ends here: a NULL key, a NULL value or the closing
    NULL comes next. *)
Definition setup_stops (ap : list (option utf8)) : Prop :=
  match ap with
  | Some _ :: Some _ :: _ => False
  | _ => True
  end.

(* ================================================================= *)
(** * Properties *)

(** ** Integer helpers *)

Lemma uint_wrap_small (z : Z) : 0 <= z < 4294967296 -> uint_wrap z = z.
Proof.
  intros H. unfold uint_wrap. apply Z.mod_small. exact H.
Qed.

Lemma MIN3_is_min (a b c : Z) : MIN3 a b c = Z.min a (Z.min b c).
Proof.
  unfold MIN3. destruct (Z.ltb_spec a b), (Z.ltb_spec a c), (Z.ltb_spec b c); lia.
Qed.

(** ** The matcher finds exactly the strings of the pattern *)

Section MatcherCorrect.
Variable U : Unicode.
Variable caseless : bool.

Let ok (a : atom) (x : gunichar) : Prop := atom_ok U caseless a x = true.

Lemma atom_one_spec (a : atom) (k : cont) (K : utf8 -> Prop) :
  realises k K ->
  forall pos s c,
    atom_one U caseless a k pos s c <> None <->
    exists x s2, s = x :: s2 /\ ok a x /\ K s2.
Proof.
  intros HK pos s c. unfold atom_one, ok. destruct s as [|x s'].
  - split; [congruence | intros (x & s2 & E & _); discriminate].
  - destruct (atom_ok U caseless a x) eqn:Hx.
    + rewrite (HK _ _ _). split.
      * intros H. exists x, s'. auto.
      * intros (y & s2 & E & _ & H). inversion E; subst. exact H.
    + split; [congruence |].
      intros (y & s2 & E & Hy & _). inversion E; subst. congruence.
Qed.

Lemma atom_star_spec (a : atom) (k : cont) (K : utf8 -> Prop) :
  realises k K ->
  forall s pos c,
    atom_star U caseless a k pos s c <> None <->
    exists s1 s2, s = s1 ++ s2 /\ Forall (ok a) s1 /\ K s2.
Proof.
  intros HK. induction s as [|x s' IH]; intros pos c; simpl.
  - rewrite (HK _ _ _). split.
    + intros H. exists [], []. auto.
    + intros (s1 & s2 & E & _ & H). symmetry in E.
      apply app_eq_nil in E. destruct E; subst. exact H.
  - destruct (atom_ok U caseless a x) eqn:Hx.
    + destruct (atom_star U caseless a k (pos + utf8_width x) s' c) eqn:Hrec.
      * split; [| congruence]. intros _.
        assert (Hne : atom_star U caseless a k (pos + utf8_width x) s' c <> None) by congruence.
        apply IH in Hne. destruct Hne as (s1 & s2 & E & F & H).
        exists (x :: s1), s2. subst. repeat split; auto.
      * rewrite (HK _ _ _). split.
        -- intros H. exists [], (x :: s'). auto.
        -- intros (s1 & s2 & E & F & H). destruct s1 as [|y s1].
           ++ simpl in E. subst. exact H.
           ++ simpl in E. inversion E; subst. inversion F; subst.
              exfalso. apply (proj2 (IH (pos + utf8_width y) c)); [| exact Hrec].
              exists s1, s2. auto.
    + rewrite (HK _ _ _). split.
      * intros H. exists [], (x :: s'). auto.
      * intros (s1 & s2 & E & F & H). destruct s1 as [|y s1].
        -- simpl in E. subst. exact H.
        -- simpl in E. inversion E; subst. inversion F; subst. unfold ok in *. congruence.
Qed.

Lemma atom_star_realises (a : atom) (k : cont) (K : utf8 -> Prop) :
  realises k K ->
  realises (atom_star U caseless a k)
           (fun s => exists s1 s2, s = s1 ++ s2 /\ Forall (ok a) s1 /\ K s2).
Proof.
  intros HK pos s c. apply atom_star_spec. exact HK.
Qed.

(** A pattern followed by a continuation succeeds exactly when the subject
    splits into a string of the pattern and a rest the continuation
    accepts. *)
Theorem rmatch_spec (r : regex) :
  forall (k : cont) (K : utf8 -> Prop),
    realises k K ->
    forall pos s c,
      rmatch U caseless r k pos s c <> None <->
      exists s1 s2, s = s1 ++ s2 /\ lang U caseless r s1 /\ K s2.
Proof.
  induction r as [|a q|r1 IH1 r2 IH2|r1 IH1 r2 IH2|n r IH]; intros k K HK pos s c.
  - simpl. rewrite (HK _ _ _). split.
    + intros H. exists [], s. auto.
    + intros (s1 & s2 & E & L & H). subst. exact H.
  - destruct q; simpl.
    + rewrite (atom_one_spec a k K HK). split.
      * intros (x & s2 & E & Hx & H). exists [x], s2. subst. eauto.
      * intros (s1 & s2 & E & (x & E1 & Hx) & H). subst. exists x, s2. auto.
    + apply atom_star_spec. exact HK.
    + rewrite (atom_one_spec a _ _ (atom_star_realises a k K HK)). split.
      * intros (x & s2 & E & Hx & (t1 & t2 & E2 & F & H)). subst.
        exists (x :: t1), t2. repeat split; auto. discriminate.
      * intros (s1 & s2 & E & (Hne & F) & H). destruct s1 as [|x s1]; [congruence|].
        inversion F; subst. exists x, (s1 ++ s2). repeat split; auto.
        exists s1, s2. auto.
    + destruct (atom_one U caseless a k pos s c) eqn:Hone.
      * split; [| congruence]. intros _.
        assert (Hne : atom_one U caseless a k pos s c <> None) by congruence.
        apply (atom_one_spec a k K HK) in Hne. destruct Hne as (x & s2 & E & Hx & H).
        exists [x], s2. subst. repeat split; auto. right. eauto.
      * rewrite (HK _ _ _). split.
        -- intros H. exists [], s. auto.
        -- intros (s1 & s2 & E & [E1 | (x & E1 & Hx)] & H); subst; [exact H|].
           exfalso. apply (proj2 (atom_one_spec a k K HK pos ([x] ++ s2) c)); [| exact Hone].
           exists x, s2. auto.
  - simpl. rewrite (IH1 _ _ (IH2 k K HK)). split.
    + intros (s1 & s' & E & L1 & (s2 & s3 & E' & L2 & H)). subst.
      exists (s1 ++ s2), s3. rewrite <- app_assoc. repeat split; auto.
      exists s1, s2. auto.
    + intros (s12 & s3 & E & (s1 & s2 & E' & L1 & L2) & H). subst.
      exists s1, (s2 ++ s3). rewrite <- app_assoc. repeat split; auto.
      exists s2, s3. auto.
  - simpl. destruct (rmatch U caseless r1 k pos s c) eqn:H1.
    + split; [| congruence]. intros _.
      assert (Hne : rmatch U caseless r1 k pos s c <> None) by congruence.
      apply (IH1 k K HK) in Hne. destruct Hne as (s1 & s2 & E & L & H).
      exists s1, s2. auto.
    + rewrite (IH2 k K HK). split.
      * intros (s1 & s2 & E & L & H). exists s1, s2. auto.
      * intros (s1 & s2 & E & [L | L] & H).
        -- exfalso. apply (proj2 (IH1 k K HK pos s c)); [| exact H1]. exists s1, s2. auto.
        -- exists s1, s2. auto.
  - simpl. apply IH. intros pos' s' c'. apply HK.
Qed.

Lemma accept_realises (start : Z) : realises (accept start) (fun _ => True).
Proof.
  intros pos s c. unfold accept. split; [auto | discriminate].
Qed.

(** The search finds a match exactly when some piece of the subject is a
    string of the pattern. *)
Theorem pcre_exec_spec (r : regex) :
  forall s pos,
    pcre_exec U caseless r pos s <> None <->
    exists before found after, s = before ++ found ++ after /\ lang U caseless r found.
Proof.
  induction s as [|x s' IH]; intros pos; simpl.
  - destruct (rmatch U caseless r (accept pos) pos [] []) eqn:H0.
    + split; [| congruence]. intros _.
      assert (Hne : rmatch U caseless r (accept pos) pos [] [] <> None) by congruence.
      apply (rmatch_spec r _ _ (accept_realises pos)) in Hne.
      destruct Hne as (s1 & s2 & E & L & _). exists [], s1, s2. auto.
    + split; [congruence |]. intros (b & f & a & E & L). exfalso.
      symmetry in E. apply app_eq_nil in E. destruct E as [-> E].
      apply app_eq_nil in E. destruct E as [-> ->].
      apply (proj2 (rmatch_spec r _ _ (accept_realises pos) pos [] [])); [| exact H0].
      exists [], []. auto.
  - destruct (rmatch U caseless r (accept pos) pos (x :: s') []) eqn:H0.
    + split; [| congruence]. intros _.
      assert (Hne : rmatch U caseless r (accept pos) pos (x :: s') [] <> None) by congruence.
      apply (rmatch_spec r _ _ (accept_realises pos)) in Hne.
      destruct Hne as (s1 & s2 & E & L & _). exists [], s1, s2. auto.
    + rewrite IH. split.
      * intros (b & f & a & E & L). exists (x :: b), f, a. subst. auto.
      * intros (b & f & a & E & L). destruct b as [|y b].
        -- exfalso. simpl in E.
           apply (proj2 (rmatch_spec r _ _ (accept_realises pos) pos (x :: s') [])); [| exact H0].
           exists f, a. auto.
        -- simpl in E. inversion E; subst. exists b, f, a. auto.
Qed.
End MatcherCorrect.

Lemma g_regex_match_occurs (U : Unicode) (re : GRegex) (s : utf8) :
  g_regex_match U re s = true <-> occurs U re s.
Proof.
  unfold g_regex_match, occurs. rewrite <- pcre_exec_spec with (pos := 0).
  destruct (pcre_exec U (re_caseless re) (re_code re) 0 s); split; congruence.
Qed.

(** ** Reading the generated patterns *)

Lemma regex_special_cases (c : gunichar) :
  regex_special c = true ->
  c = 92 \/ c = 124 \/ c = 40 \/ c = 41 \/ c = 91 \/ c = 93 \/ c = 123 \/ c = 125 \/
  c = 94 \/ c = 36 \/ c = 42 \/ c = 43 \/ c = 63 \/ c = 46.
Proof.
  unfold regex_special. rewrite !orb_true_iff, !Z.eqb_eq. tauto.
Qed.

Lemma regex_plain_cases (c : gunichar) :
  regex_special c = false ->
  (c =? 92) = false /\ (c =? 124) = false /\ (c =? 40) = false /\ (c =? 41) = false /\
  (c =? 91) = false /\ (c =? 123) = false /\ (c =? 94) = false /\ (c =? 36) = false /\
  (c =? 42) = false /\ (c =? 43) = false /\ (c =? 63) = false /\ (c =? 46) = false.
Proof.
  unfold regex_special. rewrite !orb_false_iff. tauto.
Qed.

Lemma parse_plain (st : pstate) (c : gunichar) (p : utf8) :
  regex_special c = false ->
  parse_loop st (c :: p) = parse_loop (ps_push st (RAtom (ALit c) QOne)) p.
Proof.
  intros H. apply regex_plain_cases in H.
  destruct H as (H1 & H2 & H3 & H4 & H5 & H6 & H7 & H8 & H9 & H10 & H11 & H12).
  cbn [parse_loop]. rewrite H1, H2, H3, H4, H5, H6, H7, H8, H9, H10, H11, H12.
  reflexivity.
Qed.

Lemma parse_escaped (st : pstate) (d : gunichar) (p : utf8) :
  regex_special d = true ->
  parse_loop st (92 :: d :: p) = parse_loop (ps_push st (RAtom (ALit d) QOne)) p.
Proof.
  intros H. apply regex_special_cases in H.
  repeat (destruct H as [H | H]; [subst d; reflexivity |]). subst d. reflexivity.
Qed.

Lemma parse_char (st : pstate) (c : gunichar) (p : utf8) :
  parse_loop st (escaped_char c ++ p) = parse_loop (ps_push st (RAtom (ALit c) QOne)) p.
Proof.
  unfold escaped_char. destruct (regex_special c) eqn:H; simpl app.
  - apply parse_escaped. exact H.
  - apply parse_plain. exact H.
Qed.

Lemma parse_dotstar (st : pstate) (p : utf8) :
  parse_loop st (46 :: 42 :: p) = parse_loop (ps_push st (RAtom ADot QStar)) p.
Proof. reflexivity. Qed.

Lemma parse_nonspace (st : pstate) (p : utf8) :
  parse_loop st (92 :: 83 :: p) = parse_loop (ps_push st (RAtom (ASpace true) QOne)) p.
Proof. reflexivity. Qed.

Lemma parse_open (st : pstate) (c : gunichar) (p : utf8) :
  parse_loop st (40 :: escaped_char c ++ p) = parse_loop (ps_open st) (escaped_char c ++ p).
Proof.
  unfold escaped_char. destruct (regex_special c) eqn:H; simpl app.
  - reflexivity.
  - apply regex_plain_cases in H.
    destruct H as (_ & _ & _ & _ & _ & _ & _ & _ & H9 & _ & H11 & _).
    cbn [parse_loop]. change (40 =? 92) with false. change (40 =? 40) with true.
    cbv iota. rewrite H9, H11. reflexivity.
Qed.

Lemma escape_cons (c : gunichar) (s : utf8) :
  g_regex_escape_string (c :: s) = escaped_char c ++ g_regex_escape_string s.
Proof.
  unfold escaped_char. simpl. destruct (regex_special c); reflexivity.
Qed.

Lemma ps_items_cur (items : list regex) :
  forall st,
    ps_items st items =
    {| ps_cur := {| fr_alts := fr_alts (ps_cur st);
                    fr_items := rev items ++ fr_items (ps_cur st);
                    fr_group := fr_group (ps_cur st) |};
       ps_stack := ps_stack st; ps_next := ps_next st |}.
Proof.
  unfold ps_items. induction items as [|r items IH]; intros st; simpl.
  - destruct st as [[a i g] stack n]. reflexivity.
  - rewrite IH. simpl. rewrite <- app_assoc. reflexivity.
Qed.

Lemma parse_finish (items : list regex) :
  parse_loop (ps_items ps_init items) [] = Some (mk_seq items).
Proof.
  rewrite ps_items_cur. simpl. unfold frame_regex, frame_branch. simpl.
  rewrite app_nil_r, rev_involutive. reflexivity.
Qed.

Lemma parse_literal (P : utf8) :
  forall st rest,
    parse_loop st (g_regex_escape_string P ++ rest) =
    parse_loop (ps_items st (literal_items P)) rest.
Proof.
  induction P as [|c P IH]; intros st rest.
  - reflexivity.
  - rewrite escape_cons, <- app_assoc, parse_char. apply IH.
Qed.

Lemma glob_loop_cons (p : gunichar) (P : utf8) :
  glob_loop (g_regex_escape_string (p :: P)) = glob_piece p ++ glob_loop (g_regex_escape_string P).
Proof.
  unfold glob_piece, escaped_char. simpl g_regex_escape_string.
  destruct (regex_special p) eqn:H.
  - apply regex_special_cases in H.
    repeat (destruct H as [H | H]; [subst p; reflexivity |]). subst p. reflexivity.
  - pose proof (regex_plain_cases p H) as (H1 & _ & _ & _ & _ & _ & _ & _ & H9 & _ & H11 & _).
    simpl. rewrite H1, H9, H11. reflexivity.
Qed.

Lemma parse_glob_piece (st : pstate) (p : gunichar) (rest : utf8) :
  parse_loop st (glob_piece p ++ rest) = parse_loop (ps_push st (glob_item p)) rest.
Proof.
  unfold glob_piece, glob_item. destruct (p =? 42).
  - apply parse_dotstar.
  - destruct (p =? 63).
    + apply parse_nonspace.
    + apply parse_char.
Qed.

Lemma parse_glob (P : utf8) :
  forall st,
    parse_loop st (glob_to_regex P) = parse_loop (ps_items st (map glob_item P)) [].
Proof.
  unfold glob_to_regex. induction P as [|p P IH]; intros st.
  - reflexivity.
  - rewrite glob_loop_cons, parse_glob_piece. apply IH.
Qed.

Lemma fuzzy_loop_cons (first : bool) (p : gunichar) (P : utf8) :
  fuzzy_loop first (g_regex_escape_string (p :: P)) =
  (if first then [40] else [46; 42; 40]) ++ escaped_char p ++ 41 ::
  fuzzy_loop false (g_regex_escape_string P).
Proof.
  unfold escaped_char. simpl g_regex_escape_string.
  destruct (regex_special p) eqn:H.
  - simpl. reflexivity.
  - pose proof (regex_plain_cases p H) as (H1 & _).
    simpl. rewrite H1. reflexivity.
Qed.

Lemma parse_fuzzy (P : utf8) :
  forall first cur n,
    parse_loop {| ps_cur := cur; ps_stack := []; ps_next := n |}
               (fuzzy_loop first (g_regex_escape_string P)) =
    parse_loop (ps_items {| ps_cur := cur; ps_stack := []; ps_next := (n + length P)%nat |}
                         (fuzzy_items first n P)) [].
Proof.
  induction P as [|p P IH]; intros first cur n.
  - cbn [fuzzy_loop g_regex_escape_string fuzzy_items length ps_items fold_left].
    rewrite Nat.add_0_r. reflexivity.
  - rewrite fuzzy_loop_cons. cbn [fuzzy_items].
    assert (Hgroup : forall st0 : pframe,
      parse_loop {| ps_cur := st0; ps_stack := []; ps_next := n |}
        (40 :: escaped_char p ++ 41 :: fuzzy_loop false (g_regex_escape_string P)) =
      parse_loop {| ps_cur := frame_push st0 (RGroup n (mk_seq [RAtom (ALit p) QOne]));
                    ps_stack := []; ps_next := S n |}
        (fuzzy_loop false (g_regex_escape_string P))).
    { intros st0. rewrite parse_open, parse_char. reflexivity. }
    destruct first; simpl app.
    + rewrite Hgroup, IH. cbn [length]. rewrite <- Nat.add_succ_comm. reflexivity.
    + rewrite parse_dotstar. unfold ps_push at 1. simpl ps_cur. simpl ps_stack. simpl ps_next.
      rewrite Hgroup, IH. cbn [length]. rewrite <- Nat.add_succ_comm. reflexivity.
Qed.

(** The parsed form of the pattern built for each matching method. *)
Lemma g_regex_new_literal (P : utf8) (caseless : bool) :
  g_regex_new (g_regex_escape_string P) caseless =
  Some {| re_code := mk_seq (literal_items P); re_caseless := caseless |}.
Proof.
  unfold g_regex_new.
  rewrite <- (app_nil_r (g_regex_escape_string P)), parse_literal, parse_finish.
  reflexivity.
Qed.

Lemma g_regex_new_glob (P : utf8) (caseless : bool) :
  g_regex_new (glob_to_regex P) caseless =
  Some {| re_code := mk_seq (map glob_item P); re_caseless := caseless |}.
Proof.
  unfold g_regex_new. rewrite parse_glob, parse_finish. reflexivity.
Qed.

Lemma g_regex_new_fuzzy (P : utf8) (caseless : bool) :
  g_regex_new (fuzzy_to_regex P) caseless =
  Some {| re_code := mk_seq (fuzzy_items true 1 P); re_caseless := caseless |}.
Proof.
  unfold g_regex_new, fuzzy_to_regex, ps_init. rewrite parse_fuzzy.
  rewrite ps_items_cur. simpl. unfold frame_regex, frame_branch. simpl.
  rewrite app_nil_r, rev_involutive. reflexivity.
Qed.

(** ** What the generated patterns match *)

Section GeneratedPatterns.
Variable U : Unicode.
Variable caseless : bool.

Let L := lang U caseless.

Lemma find_from_spec (here : utf8 -> bool) (r : regex) :
  (forall C, here C = true <-> exists found after, C = found ++ after /\ L r found) ->
  forall C,
    find_from here C = true <->
    exists before found after, C = before ++ found ++ after /\ L r found.
Proof.
  intros Hhere. induction C as [|x C IH]; simpl; rewrite orb_true_iff, Hhere.
  - split.
    + intros [(f & a & E & H) | H]; [| discriminate]. exists [], f, a. auto.
    + intros (b & f & a & E & H). left. destruct b; [| discriminate]. exists f, a. auto.
  - rewrite IH. split.
    + intros [(f & a & E & H) | (b & f & a & E & H)].
      * exists [], f, a. auto.
      * exists (x :: b), f, a. subst. auto.
    + intros (b & f & a & E & H). destruct b as [|y b].
      * left. exists f, a. auto.
      * right. inversion E; subst. exists b, f, a. auto.
Qed.

Lemma literal_here_spec (P : utf8) :
  forall C,
    literal_here U caseless P C = true <->
    exists found after, C = found ++ after /\ L (mk_seq (literal_items P)) found.
Proof.
  induction P as [|p P IH]; intros C.
  - simpl. split; [| destruct C; reflexivity].
    intros _. exists [], C. split; reflexivity.
  - destruct C as [|x C]; simpl.
    + split; [discriminate |].
      intros (f & a & E & (s1 & s2 & E' & (y & Ey & _) & _)). subst. discriminate.
    + rewrite andb_true_iff, IH. split.
      * intros (Hx & (f & a & E & H)). exists (x :: f), a. subst. split; [reflexivity |].
        exists [x], f. repeat split; auto. exists x. auto.
      * intros (f & a & E & (s1 & s2 & E' & (y & Ey & Hy) & H)). subst.
        inversion E; subst. split; [exact Hy |]. exists s2, a. auto.
Qed.

Lemma glob_run_spec (P' : utf8) (run : utf8 -> bool) :
  (forall C, run C = glob_here U caseless P' C ||
                     match C with
                     | [] => false
                     | x :: C' => negb (pcre_newline U x) && run C'
                     end) ->
  forall C,
    run C = true <->
    exists gap rest, C = gap ++ rest /\
                     Forall (fun x => atom_ok U caseless ADot x = true) gap /\
                     glob_here U caseless P' rest = true.
Proof.
  intros Hrun. induction C as [|x C IH]; rewrite Hrun, orb_true_iff.
  - split.
    + intros [H | H]; [| discriminate]. exists [], []. auto.
    + intros (g & r & E & F & H). left. symmetry in E. apply app_eq_nil in E.
      destruct E; subst. exact H.
  - rewrite andb_true_iff, IH. split.
    + intros [H | (Hx & (g & r & E & F & H))].
      * exists [], (x :: C). auto.
      * exists (x :: g), r. subst. repeat split; auto.
    + intros (g & r & E & F & H). destruct g as [|y g].
      * left. simpl in E. subst. exact H.
      * right. inversion E; subst. inversion F; subst. split; [assumption |].
        exists g, r. auto.
Qed.

Lemma glob_here_spec (P : utf8) :
  forall C,
    glob_here U caseless P C = true <->
    exists found after, C = found ++ after /\ L (mk_seq (map glob_item P)) found.
Proof.
  induction P as [|p P IH]; intros C.
  - simpl. split; [| reflexivity]. intros _. exists [], C. split; reflexivity.
  - cbn [map mk_seq fold_right glob_here]. unfold glob_item.
    destruct (p =? 42) eqn:Hstar.
    + rewrite glob_run_spec; [| intros [|y C0]; reflexivity]. split.
      * intros (g & r & E & F & H). apply IH in H. destruct H as (f & a & E' & H).
        exists (g ++ f), a. subst. rewrite <- app_assoc. split; [reflexivity |].
        exists g, f. auto.
      * intros (f & a & E & (s1 & s2 & E' & F & H)). subst.
        exists s1, (s2 ++ a). rewrite <- app_assoc. repeat split; auto.
        apply IH. exists s2, a. auto.
    + destruct C as [|x C].
      * split; [discriminate |].
        intros (f & a & E & (s1 & s2 & E' & H1 & _)). exfalso.
        destruct (p =? 63); destruct H1 as (y & Ey & _); subst; discriminate.
      * rewrite andb_true_iff, IH. unfold glob_char. split.
        -- intros (Hx & (f & a & E & H)). exists (x :: f), a. subst. split; [reflexivity |].
           exists [x], f. repeat split; auto.
           destruct (p =? 63); exists x; auto.
        -- intros (f & a & E & (s1 & s2 & E' & H1 & H)).
           assert (Hx : exists y, s1 = [y] /\
                      (if p =? 63 then negb (pcre_space U y) else same_char U caseless p y) = true).
           { destruct (p =? 63); destruct H1 as (y & Ey & Hy); exists y; auto. }
           destruct Hx as (y & Ey & Hy). subst. inversion E; subst.
           split; [exact Hy |]. exists s2, a. auto.
Qed.

Lemma lang_fuzzy_group (n : nat) (p : gunichar) (s : utf8) :
  L (RGroup n (mk_seq [RAtom (ALit p) QOne])) s <->
  exists x, s = [x] /\ same_char U caseless p x = true.
Proof.
  simpl. split.
  - intros (s1 & s2 & E & (x & Ex & Hx) & E2). subst. exists x. auto.
  - intros (x & E & Hx). subst. exists [x], []. repeat split; auto. exists x. auto.
Qed.

Lemma fuzzy_tail_nil (C : utf8) : fuzzy_tail U caseless [] C = true.
Proof. destruct C; reflexivity. Qed.

Lemma fuzzy_tail_cons (p : gunichar) (P : utf8) :
  forall C,
    fuzzy_tail U caseless (p :: P) C = true <->
    exists gap x rest,
      C = gap ++ x :: rest /\
      Forall (fun y => atom_ok U caseless ADot y = true) gap /\
      same_char U caseless p x = true /\ fuzzy_tail U caseless P rest = true.
Proof.
  induction C as [|x C IH]; cbn [fuzzy_tail].
  - split; [discriminate |]. intros (g & y & r & E & _). destruct g; discriminate.
  - rewrite orb_true_iff, !andb_true_iff, IH. split.
    + intros [(Hx & H) | (Hx & (g & y & r & E & F & Hy & H))].
      * exists [], x, C. auto.
      * exists (x :: g), y, r. subst. repeat split; auto.
    + intros (g & y & r & E & F & Hy & H). destruct g as [|z g].
      * left. inversion E; subst. auto.
      * right. inversion E; subst. inversion F; subst. split; [assumption |].
        exists g, y, r. auto.
Qed.

Lemma fuzzy_tail_spec (P : utf8) :
  forall n C,
    fuzzy_tail U caseless P C = true <->
    exists found after, C = found ++ after /\ L (mk_seq (fuzzy_items false n P)) found.
Proof.
  induction P as [|p P IH]; intros n C.
  - rewrite fuzzy_tail_nil. split; [| reflexivity].
    intros _. exists [], C. split; reflexivity.
  - rewrite fuzzy_tail_cons. cbn [fuzzy_items app]. split.
    + intros (g & x & r & E & F & Hx & H). apply (IH (S n)) in H.
      destruct H as (f & a & E' & H). subst.
      exists (g ++ x :: f), a. rewrite <- app_assoc. split; [reflexivity |].
      exists g, (x :: f). repeat split; auto.
      exists [x], f. repeat split; auto. apply lang_fuzzy_group. exists x. auto.
    + intros (f & a & E & (g & s2 & E1 & F & (s3 & s4 & E2 & HG & H))).
      apply lang_fuzzy_group in HG. destruct HG as (x & Ex & Hx). subst.
      exists g, x, (s4 ++ a). rewrite <- !app_assoc. repeat split; auto.
      apply (IH (S n)). exists s4, a. auto.
Qed.

Lemma fuzzy_here_spec (P : utf8) :
  forall C,
    fuzzy_here U caseless P C = true <->
    exists found after, C = found ++ after /\ L (mk_seq (fuzzy_items true 1 P)) found.
Proof.
  destruct P as [|p P]; intros C.
  - simpl. split; [| reflexivity]. intros _. exists [], C. split; reflexivity.
  - cbn [fuzzy_items app fuzzy_here]. destruct C as [|x C].
    + split; [discriminate |].
      intros (f & a & E & (s1 & s2 & E' & HG & _)).
      apply lang_fuzzy_group in HG. destruct HG as (y & Ey & _). subst. discriminate.
    + rewrite andb_true_iff, (fuzzy_tail_spec P 2). split.
      * intros (Hx & (f & a & E & H)). subst. exists (x :: f), a. split; [reflexivity |].
        exists [x], f. repeat split; auto. apply lang_fuzzy_group. exists x. auto.
      * intros (f & a & E & (s1 & s2 & E' & HG & H)).
        apply lang_fuzzy_group in HG. destruct HG as (y & Ey & Hy). subst.
        inversion E; subst. split; [exact Hy |]. exists s2, a. auto.
Qed.

Lemma bool_eq_by_iff (a b : bool) : (a = true <-> b = true) -> a = b.
Proof.
  destruct a, b; intros [H1 H2]; try reflexivity.
  - symmetry. apply H1. reflexivity.
  - apply H2. reflexivity.
Qed.

Theorem literal_pattern_matches (P C : utf8) :
  g_regex_match U {| re_code := mk_seq (literal_items P); re_caseless := caseless |} C =
  literal_find U caseless P C.
Proof.
  apply bool_eq_by_iff. rewrite g_regex_match_occurs. unfold occurs, literal_find. simpl.
  symmetry. apply find_from_spec. apply literal_here_spec.
Qed.

Theorem glob_pattern_matches (P C : utf8) :
  g_regex_match U {| re_code := mk_seq (map glob_item P); re_caseless := caseless |} C =
  glob_find U caseless P C.
Proof.
  apply bool_eq_by_iff. rewrite g_regex_match_occurs. unfold occurs, glob_find. simpl.
  symmetry. apply find_from_spec. apply glob_here_spec.
Qed.

Theorem fuzzy_pattern_matches (P C : utf8) :
  g_regex_match U {| re_code := mk_seq (fuzzy_items true 1 P); re_caseless := caseless |} C =
  fuzzy_accepts U caseless P C.
Proof.
  apply bool_eq_by_iff. rewrite g_regex_match_occurs. unfold occurs, fuzzy_accepts. simpl.
  symmetry. apply find_from_spec. apply fuzzy_here_spec.
Qed.
End GeneratedPatterns.

(** ** [create_regex] by matching method *)

Lemma create_regex_normal (tok c : bool) (P : utf8) (cs : bool) :
  create_regex (settings MM_NORMAL tok c) P cs =
  Some {| re_code := mk_seq (literal_items P); re_caseless := negb cs |}.
Proof. apply g_regex_new_literal. Qed.

Lemma create_regex_glob (tok c : bool) (P : utf8) (cs : bool) :
  create_regex (settings MM_GLOB tok c) P cs =
  Some {| re_code := mk_seq (map glob_item P); re_caseless := negb cs |}.
Proof. apply g_regex_new_glob. Qed.

Lemma create_regex_fuzzy (tok c : bool) (P : utf8) (cs : bool) :
  create_regex (settings MM_FUZZY tok c) P cs =
  Some {| re_code := mk_seq (fuzzy_items true 1 P); re_caseless := negb cs |}.
Proof. apply g_regex_new_fuzzy. Qed.

Lemma create_regex_regex (tok c : bool) (P : utf8) (cs : bool) :
  create_regex (settings MM_REGEX tok c) P cs =
  match g_regex_new P (negb cs) with
  | Some re => Some re
  | None => create_regex (settings MM_NORMAL tok c) P cs
  end.
Proof. reflexivity. Qed.

Lemma create_regex_total (config : Settings) (input : utf8) (cs : bool) :
  create_regex config input cs <> None.
Proof.
  destruct config as [m tok c]. change {| config_matching_method := m; config_tokenize := tok;
    config_case_sensitive := c |} with (settings m tok c).
  destruct m.
  - rewrite create_regex_normal. discriminate.
  - rewrite create_regex_regex, create_regex_normal.
    destruct (g_regex_new input (negb cs)); discriminate.
  - rewrite create_regex_glob. discriminate.
  - rewrite create_regex_fuzzy. discriminate.
Qed.

Lemma literal_find_single (U : Unicode) (caseless : bool) (p : gunichar) (C : utf8) :
  literal_find U caseless [p] C = existsb (same_char U caseless p) C.
Proof.
  unfold literal_find. induction C as [|x C IH].
  - reflexivity.
  - cbn [find_from existsb]. rewrite IH. f_equal.
    cbn [literal_here]. destruct C; apply andb_true_r.
Qed.

Lemma basic_latin_paren (caseless : bool) (x : gunichar) :
  same_char basic_latin caseless 40 x = (40 =? x).
Proof.
  unfold same_char. destruct caseless; [| reflexivity].
  cbn [pcre_fold basic_latin]. unfold in_range.
  change ((65 <=? 40) && (40 <=? 90)) with false. cbv iota.
  destruct (Z.leb_spec 65 x) as [Hlo|Hlo], (Z.leb_spec x 90) as [Hhi|Hhi];
    cbn [andb]; try reflexivity.
  transitivity false; [apply Z.eqb_neq | symmetry; apply Z.eqb_neq]; lia.
Qed.

Lemma token_match_loop_forall (U : Unicode) (toks : list GRegex) (candidate : utf8) :
  token_match_loop U toks candidate = true <->
  Forall (fun t => occurs U t candidate) toks.
Proof.
  induction toks as [|t toks IH]; simpl.
  - split; auto.
  - destruct (g_regex_match U t candidate) eqn:Ht.
    + rewrite IH. split.
      * intros H. constructor; [apply g_regex_match_occurs; exact Ht | exact H].
      * intros H. inversion H; assumption.
    + split; [discriminate |]. intros H. inversion H as [|? ? Hocc _]; subst.
      apply g_regex_match_occurs in Hocc. congruence.
Qed.

(** ** Subsequences *)

Lemma subsequence_weaken (C : utf8) :
  (forall p P, subsequence (p :: P) C = true -> subsequence P C = true) /\
  (forall P x, subsequence P C = true -> subsequence P (x :: C) = true).
Proof.
  induction C as [|y C [IH1 IH2]].
  - split.
    + intros p P H. discriminate.
    + intros [|q P] x H; [reflexivity |]. discriminate.
  - assert (H1 : forall p P, subsequence (p :: P) (y :: C) = true -> subsequence P (y :: C) = true).
    { intros p P H. cbn [subsequence] in H. destruct (p =? y).
      - apply IH2. exact H.
      - apply IH2. apply (IH1 p). exact H. }
    split; [exact H1 |].
    intros [|q P] x H; [reflexivity |].
    cbn [subsequence]. destruct (q =? x); [| exact H].
    apply (H1 q). exact H.
Qed.

Lemma fuzzy_tail_subsequence (U : Unicode) (P : utf8) :
  forall C,
    Forall (fun x => pcre_newline U x = false) C ->
    fuzzy_tail U false P C = subsequence P C.
Proof.
  intros C. revert P. induction C as [|x C IH]; intros P HC.
  - destruct P; reflexivity.
  - inversion HC as [|? ? Hx HC']; subst. destruct P as [|p P]; [reflexivity |].
    cbn [fuzzy_tail subsequence]. unfold same_char. rewrite Hx, !IH by assumption.
    simpl. destruct (p =? x); simpl; [| reflexivity].
    destruct (subsequence (p :: P) C) eqn:H; [| apply orb_false_r].
    apply (proj1 (subsequence_weaken C)) in H. rewrite H. reflexivity.
Qed.

Lemma fuzzy_accepts_subsequence (U : Unicode) (P C : utf8) :
  Forall (fun x => pcre_newline U x = false) C ->
  fuzzy_accepts U false P C = subsequence P C.
Proof.
  unfold fuzzy_accepts. revert P. induction C as [|x C IH]; intros P HC.
  - destruct P; reflexivity.
  - inversion HC as [|? ? Hx HC']; subst. destruct P as [|p P]; [reflexivity |].
    cbn [find_from fuzzy_here subsequence]. unfold same_char.
    rewrite IH, fuzzy_tail_subsequence by assumption.
    destruct (p =? x); simpl; [| reflexivity].
    destruct (subsequence (p :: P) C) eqn:H; [| apply orb_false_r].
    apply (proj1 (subsequence_weaken C)) in H. rewrite H. reflexivity.
Qed.

(** ** The scorer *)

Lemma score_loop_positions (U : Unicode) (str : utf8) :
  forall prev,
    score_loop U prev str =
    map (fun j => rofi_scorer_get_score_for
                    (match j with
                     | O => prev
                     | S i => rofi_scorer_get_character_class U (nth i str 0)
                     end)
                    (rofi_scorer_get_character_class U (nth j str 0)))
        (seq 0 (length str)).
Proof.
  induction str as [|sc str IH]; intros prev.
  - reflexivity.
  - cbn [score_loop length seq map nth]. f_equal.
    rewrite IH, <- seq_shift, map_map. apply map_ext.
    intros [|i]; reflexivity.
Qed.

Lemma scorer_rows_blank (U : Unicode) (config : Settings) (pattern : utf8) :
  Forall (fun pc => g_unichar_isspace U pc = true) pattern ->
  forall pfirst pstart str score dp uleft ulefts,
    scorer_rows U config pattern pfirst pstart str score dp uleft ulefts = dp.
Proof.
  induction 1 as [|pc pattern Hpc _ IH]; intros; simpl.
  - reflexivity.
  - rewrite Hpc. apply IH.
Qed.

Lemma scorer_final_untouched (U : Unicode) (str : utf8) :
  scorer_final (map (fun _ => MIN_SCORE) str) = MIN_SCORE.
Proof.
  unfold scorer_final. induction str as [|sc str IH]; simpl.
  - reflexivity.
  - exact IH.
Qed.

Lemma Forall_firstn {A : Type} (P : A -> Prop) (n : nat) (l : list A) :
  Forall P l -> Forall P (firstn n l).
Proof.
  intros H. revert n. induction H as [|x l Hx _ IH]; intros [|n]; simpl; auto.
Qed.

(** The scorer reads the Unicode tables only at the characters of its two
    arguments. *)
Section ScorerTables.
Variables U V : Unicode.
Variable config : Settings.

Let agree (c : gunichar) : Prop :=
  g_unichar_islower U c = g_unichar_islower V c /\
  g_unichar_isupper U c = g_unichar_isupper V c /\
  g_unichar_isdigit U c = g_unichar_isdigit V c /\
  g_unichar_isspace U c = g_unichar_isspace V c /\
  g_unichar_tolower U c = g_unichar_tolower V c.

Lemma character_class_agree (c : gunichar) :
  agree c -> rofi_scorer_get_character_class U c = rofi_scorer_get_character_class V c.
Proof.
  intros (H1 & H2 & H3 & _). unfold rofi_scorer_get_character_class.
  rewrite H1, H2, H3. reflexivity.
Qed.

Lemma score_loop_agree (str : utf8) :
  Forall agree str -> forall prev, score_loop U prev str = score_loop V prev str.
Proof.
  induction 1 as [|sc str Hsc _ IH]; intros prev; simpl.
  - reflexivity.
  - rewrite (character_class_agree sc Hsc), IH. reflexivity.
Qed.

Lemma scorer_char_eq_agree (pc sc : gunichar) :
  agree pc -> agree sc -> scorer_char_eq U config pc sc = scorer_char_eq V config pc sc.
Proof.
  intros (_ & _ & _ & _ & Hp) (_ & _ & _ & _ & Hs). unfold scorer_char_eq.
  rewrite Hp, Hs. reflexivity.
Qed.

Lemma scorer_row_agree (pc : gunichar) (pfirst pstart : bool) (str : utf8) :
  agree pc -> Forall agree str ->
  forall si score dp lefts uleft ulefts,
    scorer_row U config pc pfirst pstart si str score dp lefts uleft ulefts =
    scorer_row V config pc pfirst pstart si str score dp lefts uleft ulefts.
Proof.
  intros Hpc. induction 1 as [|sc str Hsc _ IH]; intros si score dp lefts uleft ulefts.
  - reflexivity.
  - destruct score as [|score_si score], dp as [|dp_si dp]; try reflexivity.
    cbn [scorer_row]. rewrite (scorer_char_eq_agree pc sc Hpc Hsc), IH. reflexivity.
Qed.

Lemma scorer_rows_agree (pattern str : utf8) :
  Forall agree pattern -> Forall agree str ->
  forall pfirst pstart score dp uleft ulefts,
    scorer_rows U config pattern pfirst pstart str score dp uleft ulefts =
    scorer_rows V config pattern pfirst pstart str score dp uleft ulefts.
Proof.
  intros Hp Hs. induction Hp as [|pc pattern Hpc _ IH]; intros; cbn [scorer_rows].
  - reflexivity.
  - rewrite (proj1 (proj2 (proj2 (proj2 Hpc)))).
    destruct (g_unichar_isspace V pc); [apply IH |].
    rewrite (scorer_row_agree pc pfirst pstart str Hpc Hs).
    destruct (scorer_row V config pc pfirst pstart 0 str score dp MIN_SCORE uleft ulefts)
      as [dp' [uleft' ulefts']].
    apply IH.
Qed.

Lemma fuzzy_evaluate_agree (pattern : utf8) (plen : Z) (str : utf8) (slen : Z) :
  tables_agree U V pattern -> tables_agree U V str ->
  rofi_scorer_fuzzy_evaluate U config pattern plen str slen =
  rofi_scorer_fuzzy_evaluate V config pattern plen str slen.
Proof.
  intros Hp Hs. unfold rofi_scorer_fuzzy_evaluate.
  destruct (slen >? FUZZY_SCORER_MAX_LENGTH); [reflexivity |].
  assert (Hs' : Forall agree (firstn (Z.to_nat slen) str)) by (apply Forall_firstn; exact Hs).
  assert (Hp' : Forall agree (firstn (Z.to_nat plen) pattern)) by (apply Forall_firstn; exact Hp).
  rewrite (score_loop_agree _ Hs'), (scorer_rows_agree _ _ Hp' Hs'). reflexivity.
Qed.
End ScorerTables.

(** ** The edit distance *)

(** A minimum is below a bound when one of its arguments is. *)
Ltac min_leaf :=
  lazymatch goal with
  | |- Z.min _ _ <= _ =>
      first [ apply Z.min_le_iff; left; min_leaf | apply Z.min_le_iff; right; min_leaf ]
  | |- _ => lia
  end.

(** Two nested minima over the same terms are equal. *)
Ltac min_same :=
  rewrite <- ?Z.add_min_distr_r;
  apply Z.le_antisymm; repeat apply Z.min_glb; min_leaf.

Section LevenshteinRecurrence.
Variable same : gunichar -> gunichar -> bool.

Lemma lev_rec_nil_r (a : utf8) : lev_rec same a [] = Z.of_nat (length a).
Proof. destruct a; reflexivity. Qed.

Lemma lev_rec_cons (x : gunichar) (a : utf8) (y : gunichar) (b : utf8) :
  lev_rec same (x :: a) (y :: b) =
  Z.min (lev_rec same a (y :: b) + 1)
        (Z.min (lev_rec same (x :: a) b + 1) (lev_rec same a b + (if same x y then 0 else 1))).
Proof. reflexivity. Qed.

Lemma lev_rec_bounds (a : utf8) :
  forall b, 0 <= lev_rec same a b <= Z.max (Z.of_nat (length a)) (Z.of_nat (length b)).
Proof.
  induction a as [|x a IHa]; intros b.
  - cbn [lev_rec length]. lia.
  - induction b as [|y b IHb].
    + rewrite lev_rec_nil_r. lia.
    + rewrite lev_rec_cons.
      pose proof (IHa (y :: b)) as H1. pose proof (IHa b) as H2.
      cbn [length] in *. destruct (same x y); lia.
Qed.

Lemma lev_rec_self (a : utf8) :
  (forall x, same x x = true) -> lev_rec same a a = 0.
Proof.
  intros Hrefl. induction a as [|x a IH].
  - reflexivity.
  - rewrite lev_rec_cons, IH, Hrefl.
    pose proof (lev_rec_bounds a (x :: a)). pose proof (lev_rec_bounds (x :: a) a). lia.
Qed.

(** The same recurrence holds at the other end of the strings. *)
Lemma lev_rec_snoc (x y : gunichar) (a : utf8) :
  forall b,
    lev_rec same (a ++ [x]) (b ++ [y]) =
    Z.min (lev_rec same a (b ++ [y]) + 1)
          (Z.min (lev_rec same (a ++ [x]) b + 1) (lev_rec same a b + (if same x y then 0 else 1))).
Proof.
  induction a as [|a0 a IHa].
  - induction b as [|b0 b IHb].
    + reflexivity.
    + cbn [app] in *. rewrite !lev_rec_cons, IHb. cbn [lev_rec length].
      rewrite !length_app. cbn [length].
      generalize (lev_rec same [x] b). intros t.
      destruct (same x y), (same x b0); min_same.
  - induction b as [|b0 b IHb].
    + pose proof (IHa []) as H0. cbn [app] in *. rewrite !lev_rec_cons, H0.
      rewrite !lev_rec_nil_r. cbn [length]. rewrite !length_app. cbn [length].
      generalize (lev_rec same a [y]). intros t.
      destruct (same x y), (same a0 y); min_same.
    + pose proof (IHa (b0 :: b)) as H1. pose proof (IHa b) as H2.
      cbn [app] in *. rewrite lev_rec_cons. rewrite H1, IHb, H2.
      rewrite (lev_rec_cons a0 a b0 (b ++ [y])).
      rewrite (lev_rec_cons a0 (a ++ [x]) b0 b).
      rewrite (lev_rec_cons a0 a b0 b).
      set (cxy := if same x y then 0 else 1). set (c00 := if same a0 b0 then 0 else 1).
      clearbody cxy c00.
      generalize (lev_rec same a (b0 :: b ++ [y])) (lev_rec same (a ++ [x]) (b0 :: b))
                 (lev_rec same a (b0 :: b)) (lev_rec same (a0 :: a) (b ++ [y]))
                 (lev_rec same (a0 :: a ++ [x]) b) (lev_rec same (a0 :: a) b)
                 (lev_rec same a (b ++ [y])) (lev_rec same (a ++ [x]) b) (lev_rec same a b).
      intros t1 t2 t3 t4 t5 t6 t7 t8 t9.
      min_same.
Qed.

(** So the distance of the reversed strings is the distance. *)
Lemma lev_rec_rev (a : utf8) :
  forall b, lev_rec same (rev a) (rev b) = lev_rec same a b.
Proof.
  induction a as [|x a IHa]; intros b.
  - cbn [rev lev_rec]. rewrite length_rev. reflexivity.
  - induction b as [|y b IHb].
    + rewrite !lev_rec_nil_r, length_rev. reflexivity.
    + cbn [rev] in *. rewrite lev_rec_snoc, lev_rec_cons.
      rewrite <- IHb, <- (IHa b), <- (IHa (y :: b)). cbn [rev]. reflexivity.
Qed.
End LevenshteinRecurrence.

Lemma lev_rec_swap (same : gunichar -> gunichar -> bool) (a : utf8) :
  forall b, lev_rec same a b = lev_rec (fun x y => same y x) b a.
Proof.
  induction a as [|x a IHa]; intros b.
  - rewrite lev_rec_nil_r. reflexivity.
  - induction b as [|y b IHb].
    + rewrite lev_rec_nil_r. reflexivity.
    + rewrite !lev_rec_cons, IHb, (IHa (y :: b)), (IHa b). lia.
Qed.

Lemma lev_rec_ext (f g : gunichar -> gunichar -> bool) :
  (forall x y, f x y = g x y) -> forall a b, lev_rec f a b = lev_rec g a b.
Proof.
  intros H. induction a as [|x a IHa]; intros b.
  - reflexivity.
  - induction b as [|y b IHb].
    + reflexivity.
    + rewrite !lev_rec_cons, IHb, !IHa, H. reflexivity.
Qed.

Section LevenshteinColumns.
Variable U : Unicode.
Variable config : Settings.

Let same (x y : gunichar) : bool := lev_fold U config x =? lev_fold U config y.

Lemma lev_inner_column (needles : utf8) :
  forall rp hrev hc,
    Z.of_nat (length rp + length needles) < UINT_MAX ->
    Z.of_nat (length hrev) + 1 < UINT_MAX ->
    lev_inner U config (lev_fold U config hc) needles (lev_column same rp needles hrev)
              (lev_rec same rp (hc :: hrev)) (lev_rec same rp hrev) =
    lev_column same rp needles (hc :: hrev).
Proof.
  unfold UINT_MAX. induction needles as [|n needles IH]; intros rp hrev hc Hn Hh.
  - reflexivity.
  - cbn [lev_column lev_inner length] in *.
    pose proof (lev_rec_bounds same (n :: rp) hrev) as B1.
    pose proof (lev_rec_bounds same rp (hc :: hrev)) as B2.
    pose proof (lev_rec_bounds same rp hrev) as B3.
    cbn [length] in B1, B2.
    assert (E : uint_wrap
                  (MIN3 (uint_wrap (lev_rec same (n :: rp) hrev + 1))
                        (uint_wrap (lev_rec same rp (hc :: hrev) + 1))
                        (lev_rec same rp hrev +
                         (if lev_fold U config n =? lev_fold U config hc then 0 else 1))) =
                lev_rec same (n :: rp) (hc :: hrev)).
    { rewrite lev_rec_cons.
      change (same n hc) with (lev_fold U config n =? lev_fold U config hc).
      destruct (lev_fold U config n =? lev_fold U config hc);
        rewrite !(uint_wrap_small (_ + 1)) by lia; rewrite MIN3_is_min;
        rewrite uint_wrap_small by lia; lia. }
    rewrite E. f_equal. apply IH.
    + cbn [length]. lia.
    + exact Hh.
Qed.

Lemma lev_outer_column (needle haystack : utf8) :
  forall hrev,
    Z.of_nat (length needle) < UINT_MAX ->
    Z.of_nat (length hrev + length haystack) < UINT_MAX ->
    lev_outer U config needle haystack (Z.of_nat (length hrev) + 1)
              (lev_rec same [] hrev :: lev_column same [] needle hrev) =
    lev_rec same [] (rev haystack ++ hrev) :: lev_column same [] needle (rev haystack ++ hrev).
Proof.
  unfold UINT_MAX. induction haystack as [|hc haystack IH]; intros hrev Hn Hh.
  - reflexivity.
  - cbn [lev_outer tl length rev] in *. rewrite <- app_assoc. cbn [app].
    rewrite uint_wrap_small by lia.
    replace (Z.of_nat (length hrev) + 1 - 1) with (lev_rec same [] hrev) by (cbn [lev_rec]; lia).
    replace (Z.of_nat (length hrev) + 1) with (lev_rec same [] (hc :: hrev)) at 2 3
      by (cbn [lev_rec length]; lia).
    rewrite lev_inner_column by (unfold UINT_MAX; cbn [length]; lia).
    replace (Z.of_nat (length hrev) + 1 + 1) with (Z.of_nat (length (hc :: hrev)) + 1)
      by (cbn [length]; lia).
    apply IH; [exact Hn | cbn [length]; lia].
Qed.

Lemma lev_column_initial (needles : utf8) :
  forall rp,
    Z.of_nat (length rp + length needles) < UINT_MAX ->
    map (fun y => uint_wrap (Z.of_nat y)) (seq (S (length rp)) (length needles)) =
    lev_column same rp needles [].
Proof.
  unfold UINT_MAX. induction needles as [|n needles IH]; intros rp H.
  - reflexivity.
  - cbn [length seq map lev_column] in *. rewrite lev_rec_nil_r. cbn [length].
    rewrite uint_wrap_small by lia. f_equal.
    apply (IH (n :: rp)). cbn [length]. lia.
Qed.

Lemma lev_column_last (needles : utf8) :
  forall rp h,
    nth (length needles) (lev_rec same rp h :: lev_column same rp needles h) 0 =
    lev_rec same (rev needles ++ rp) h.
Proof.
  induction needles as [|n needles IH]; intros rp h.
  - reflexivity.
  - cbn [length nth lev_column rev]. rewrite <- app_assoc. apply IH.
Qed.

(** The single-column program computes the distance. *)
Lemma editDistance_recurrence (a b : utf8) :
  g_utf8_strlen a < UINT_MAX -> g_utf8_strlen b < UINT_MAX ->
  editDistance U config a b = levenshtein_distance same a b.
Proof.
  unfold levenshtein_distance. rewrite <- lev_rec_rev.
  unfold editDistance, levenshtein, g_utf8_strlen, UINT_MAX, G_MAXLONG.
  intros Ha Hb. destruct (Z.eqb_spec (Z.of_nat (length a)) 9223372036854775807) as [E|_]; [lia |].
  rewrite !Nat2Z.id, !firstn_all. cbn [seq map]. rewrite uint_wrap_small by lia.
  assert (Hcol : map (fun y => uint_wrap (Z.of_nat y)) (seq 1 (length a)) =
                 lev_column same [] a []).
  { apply (lev_column_initial a []). unfold UINT_MAX. cbn [length]. lia. }
  rewrite Hcol.
  assert (Hrows : lev_outer U config a b 1 (Z.of_nat 0 :: lev_column same [] a []) =
                  lev_rec same [] (rev b ++ []) :: lev_column same [] a (rev b ++ [])).
  { apply (lev_outer_column a b []); unfold UINT_MAX; cbn [length]; lia. }
  rewrite Hrows, lev_column_last, !app_nil_r. reflexivity.
Qed.
End LevenshteinColumns.

(** ** The groups of a match *)

Section CaptureShape.
Variable U : Unicode.
Variable caseless : bool.

Lemma atom_one_inv (a : atom) (k : cont) (pos : Z) (s : utf8) (c : captures)
    (m : captures * utf8) :
  atom_one U caseless a k pos s c = Some m -> exists pos' s', k pos' s' c = Some m.
Proof.
  unfold atom_one. destruct s as [|x s]; [discriminate |].
  destruct (atom_ok U caseless a x); [| discriminate]. eauto.
Qed.

Lemma atom_star_inv (a : atom) (k : cont) (c : captures) (m : captures * utf8) :
  forall s pos,
    atom_star U caseless a k pos s c = Some m -> exists pos' s', k pos' s' c = Some m.
Proof.
  induction s as [|x s IH]; intros pos; simpl.
  - eauto.
  - destruct (atom_ok U caseless a x); [| eauto].
    destruct (atom_star U caseless a k (pos + utf8_width x) s c) eqn:Hrec.
    + intros E. inversion E; subst. eapply IH. exact Hrec.
    + eauto.
Qed.

Lemma groupless_rmatch (r : regex) :
  groupless r = true ->
  forall k pos s c m,
    rmatch U caseless r k pos s c = Some m -> exists pos' s', k pos' s' c = Some m.
Proof.
  induction r as [|a q|r1 IH1 r2 IH2|r1 IH1 r2 IH2|n r IH]; simpl; intros G k pos s c m H.
  - eauto.
  - destruct q.
    + eapply atom_one_inv. exact H.
    + eapply atom_star_inv. exact H.
    + apply atom_one_inv in H. destruct H as (pos1 & s1 & H).
      eapply atom_star_inv. exact H.
    + destruct (atom_one U caseless a k pos s c) eqn:H1.
      * inversion H; subst. eapply atom_one_inv. exact H1.
      * eauto.
  - apply andb_true_iff in G. destruct G as [G1 G2].
    apply (IH1 G1) in H. destruct H as (pos1 & s1 & H). eapply (IH2 G2). exact H.
  - apply andb_true_iff in G. destruct G as [G1 G2].
    destruct (rmatch U caseless r1 k pos s c) eqn:H1.
    + inversion H; subst. eapply (IH1 G1). exact H1.
    + eapply (IH2 G2). exact H.
  - discriminate.
Qed.

Lemma pcre_exec_inv (r : regex) (m : captures * utf8) :
  forall s pos,
    pcre_exec U caseless r pos s = Some m ->
    exists pos' s', rmatch U caseless r (accept pos') pos' s' [] = Some m.
Proof.
  induction s as [|x s IH]; intros pos; simpl;
    destruct (rmatch U caseless r (accept pos) pos _ []) eqn:H0; intros E.
  - inversion E; subst. eauto.
  - discriminate.
  - inversion E; subst. eauto.
  - eapply IH. exact E.
Qed.

Lemma groupless_captures (r : regex) (pos : Z) (s : utf8) (c : captures) (rest : utf8) :
  groupless r = true ->
  pcre_exec U caseless r pos s = Some (c, rest) -> exists span, c = [(0%nat, span)].
Proof.
  intros G H. apply pcre_exec_inv in H. destruct H as (pos1 & s1 & H).
  apply (groupless_rmatch r G) in H. destruct H as (pos2 & s2 & H).
  unfold accept in H. inversion H. eauto.
Qed.

Lemma fuzzy_rmatch_captures (P : utf8) :
  forall first n k pos s c m,
    rmatch U caseless (mk_seq (fuzzy_items first n P)) k pos s c = Some m ->
    exists pos' s' gs, k pos' s' (gs ++ c) = Some m /\ map fst gs = rev (seq n (length P)).
Proof.
  induction P as [|p P IH]; intros first n k pos s c m H.
  - exists pos, s, []. auto.
  - assert (Hgroup : forall pos0 s0,
              rmatch U caseless (mk_seq (RGroup n (mk_seq [RAtom (ALit p) QOne])
                                         :: fuzzy_items false (S n) P)) k pos0 s0 c = Some m ->
              exists pos' s' gs,
                k pos' s' (gs ++ c) = Some m /\ map fst gs = rev (seq n (length (p :: P)))).
    { intros pos0 s0 H0. simpl in H0. apply atom_one_inv in H0.
      destruct H0 as (pos1 & s1 & H0). apply IH in H0.
      destruct H0 as (pos2 & s2 & gs & H0 & Hgs).
      exists pos2, s2, (gs ++ [(n, (pos0, pos1))]). split.
      - rewrite <- app_assoc. exact H0.
      - rewrite map_app, Hgs. reflexivity. }
    cbn [fuzzy_items] in H. destruct first; cbn [app] in H.
    + eapply Hgroup. exact H.
    + change (mk_seq (RAtom ADot QStar :: ?l)) with (RSeq (RAtom ADot QStar) (mk_seq l)) in H.
      cbn [rmatch] in H. apply atom_star_inv in H. destruct H as (pos1 & s1 & H).
      eapply Hgroup. exact H.
Qed.

Lemma fuzzy_captures (P : utf8) (pos : Z) (s : utf8) (c : captures) (rest : utf8) :
  pcre_exec U caseless (mk_seq (fuzzy_items true 1 P)) pos s = Some (c, rest) ->
  map fst c = 0%nat :: rev (seq 1 (length P)).
Proof.
  intros H. apply pcre_exec_inv in H. destruct H as (pos1 & s1 & H).
  apply fuzzy_rmatch_captures in H. destruct H as (pos2 & s2 & gs & H & Hgs).
  unfold accept in H. inversion H. simpl. rewrite app_nil_r, Hgs. reflexivity.
Qed.
End CaptureShape.

Lemma match_info_loop_inv (U : Unicode) (re : GRegex) (c : captures) :
  forall fuel pos s prev,
    In c (match_info_loop U re fuel pos s prev) ->
    exists pos' s' rest, pcre_exec U (re_caseless re) (re_code re) pos' s' = Some (c, rest).
Proof.
  induction fuel as [|fuel IH]; intros pos s prev H; simpl in H.
  - contradiction.
  - destruct (pcre_exec U (re_caseless re) (re_code re) pos s) as [[c0 rest]|] eqn:E;
      [| contradiction].
    assert (Hlater : In c (if pos =? snd (g_match_info_fetch_pos c0 0)
                           then match s with
                                | [] => []
                                | x :: s' => match_info_loop U re fuel (pos + utf8_width x) s'
                                               (g_match_info_fetch_pos c0 0)
                                end
                           else match_info_loop U re fuel (snd (g_match_info_fetch_pos c0 0)) rest
                                  (g_match_info_fetch_pos c0 0)) ->
                     exists pos' s' rest',
                       pcre_exec U (re_caseless re) (re_code re) pos' s' = Some (c, rest')).
    { destruct (pos =? snd (g_match_info_fetch_pos c0 0)).
      - destruct s as [|x s']; [contradiction |]. apply IH.
      - apply IH. }
    destruct (negb _) in H.
    + destruct H as [H | H]; [subst; eauto | auto].
    + auto.
Qed.

Lemma match_count_keys (c : captures) :
  g_match_info_get_match_count c = S (fold_right Nat.max 0%nat (map fst c)).
Proof.
  unfold g_match_info_get_match_count. f_equal.
  induction c as [|e c IH]; simpl; [reflexivity | rewrite IH; reflexivity].
Qed.

Lemma max_of_countdown (n : nat) : fold_right Nat.max 0%nat (rev (seq 1 n)) = n.
Proof.
  induction n as [|n IH].
  - reflexivity.
  - rewrite seq_S, rev_app_distr. cbn [rev app fold_right]. rewrite IH. lia.
Qed.

Lemma capture_get_key (c : captures) (n : nat) :
  In n (map fst c) -> capture_get c n <> None.
Proof.
  induction c as [|[m span] c IH]; simpl.
  - contradiction.
  - intros [E | H].
    + subst. rewrite Nat.eqb_refl. discriminate.
    + destruct (Nat.eqb m n); [discriminate | exact (IH H)].
Qed.

Lemma groupless_seq (items : list regex) :
  Forall (fun r => groupless r = true) items -> groupless (mk_seq items) = true.
Proof.
  induction 1 as [|r items Hr _ IH]; simpl; [reflexivity |].
  rewrite Hr, IH. reflexivity.
Qed.

Lemma groupless_literal (P : utf8) : groupless (mk_seq (literal_items P)) = true.
Proof.
  apply groupless_seq. unfold literal_items. apply Forall_forall.
  intros r Hr. apply in_map_iff in Hr. destruct Hr as (p & <- & _). reflexivity.
Qed.

Lemma groupless_glob (P : utf8) : groupless (mk_seq (map glob_item P)) = true.
Proof.
  apply groupless_seq. apply Forall_forall.
  intros r Hr. apply in_map_iff in Hr. destruct Hr as (p & <- & _).
  unfold glob_item. destruct (p =? 42); [reflexivity |]. destruct (p =? 63); reflexivity.
Qed.

Lemma fold_left_flat_map {A B C : Type} (f : A -> B -> A) (g : C -> list B) (l : list C) :
  forall a, fold_left f (flat_map g l) a = fold_left (fun acc x => fold_left f (g x) acc) l a.
Proof.
  induction l as [|x l IH]; intros a; simpl.
  - reflexivity.
  - rewrite fold_left_app. apply IH.
Qed.

Lemma match_spans_by_count (c : captures) :
  match_spans c =
  if (1 <? g_match_info_get_match_count c)%nat
  then map (g_match_info_fetch_pos c) (seq 1 (g_match_info_get_match_count c - 1))
  else [g_match_info_fetch_pos c 0].
Proof.
  unfold match_spans, match_indices.
  destruct (Nat.ltb_spec 1 (g_match_info_get_match_count c)) as [H|H].
  - reflexivity.
  - assert (E : g_match_info_get_match_count c = 1%nat).
    { unfold g_match_info_get_match_count in *. lia. }
    rewrite E. reflexivity.
Qed.

Lemma match_spans_groupless (U : Unicode) (re : GRegex) (input : utf8) (c : captures) :
  groupless (re_code re) = true ->
  In c (g_regex_match_all U re input) ->
  match_spans c = [g_match_info_fetch_pos c 0].
Proof.
  intros G H. apply match_info_loop_inv in H. destruct H as (pos & s & rest & H).
  apply (groupless_captures U _ _ _ _ _ _ G) in H. destruct H as (span & ->). reflexivity.
Qed.

Lemma match_spans_fuzzy (U : Unicode) (caseless : bool) (P input : utf8) (c : captures) :
  P <> [] ->
  In c (g_regex_match_all U {| re_code := mk_seq (fuzzy_items true 1 P);
                               re_caseless := caseless |} input) ->
  g_match_info_get_match_count c = S (length P) /\
  match_spans c = map (g_match_info_fetch_pos c) (seq 1 (length P)) /\
  Forall (fun n => capture_get c n <> None) (seq 1 (length P)).
Proof.
  intros HP H. apply match_info_loop_inv in H. destruct H as (pos & s & rest & H).
  apply fuzzy_captures in H.
  assert (Hcount : g_match_info_get_match_count c = S (length P)).
  { rewrite match_count_keys, H. cbn [fold_right]. rewrite max_of_countdown. reflexivity. }
  split; [exact Hcount |]. split.
  - rewrite match_spans_by_count, Hcount. destruct P as [|p P]; [congruence |].
    cbn [length]. replace (S (S (length P)) - 1)%nat with (S (length P)) by lia. reflexivity.
  - apply Forall_forall. intros n Hn. apply capture_get_key. rewrite H.
    right. apply in_rev. rewrite rev_involutive. exact Hn.
Qed.

(** ** Matches advance through the subject *)

Lemma utf8_width_pos (c : gunichar) : 1 <= utf8_width c.
Proof.
  unfold utf8_width.
  destruct (c <? 128); [lia |]. destruct (c <? 2048); [lia |]. destruct (c <? 65536); lia.
Qed.

Lemma utf8_bytes_app (s t : utf8) : utf8_bytes (s ++ t) = utf8_bytes s + utf8_bytes t.
Proof.
  unfold utf8_bytes. induction s as [|c s IH]; simpl; [reflexivity | rewrite IH; lia].
Qed.

Lemma utf8_bytes_nonneg (s : utf8) : 0 <= utf8_bytes s.
Proof.
  unfold utf8_bytes. induction s as [|c s IH]; simpl; [lia |].
  pose proof (utf8_width_pos c). lia.
Qed.

Section Progress.
Variable U : Unicode.
Variable caseless : bool.

Lemma atom_one_progress (a : atom) (k : cont) (pos : Z) (s : utf8) (c : captures)
    (m : captures * utf8) :
  atom_one U caseless a k pos s c = Some m ->
  exists pre s', s = pre ++ s' /\ k (pos + utf8_bytes pre) s' c = Some m.
Proof.
  unfold atom_one. destruct s as [|x s]; [discriminate |].
  destruct (atom_ok U caseless a x); [| discriminate].
  intros H. exists [x], s. split; [reflexivity |].
  unfold utf8_bytes. simpl. rewrite Z.add_0_r. exact H.
Qed.

Lemma atom_star_progress (a : atom) (k : cont) (c : captures) (m : captures * utf8) :
  forall s pos,
    atom_star U caseless a k pos s c = Some m ->
    exists pre s', s = pre ++ s' /\ k (pos + utf8_bytes pre) s' c = Some m.
Proof.
  assert (Hstop : forall s pos, k pos s c = Some m ->
            exists pre s', s = pre ++ s' /\ k (pos + utf8_bytes pre) s' c = Some m).
  { intros s pos H. exists [], s. split; [reflexivity |].
    unfold utf8_bytes. simpl. rewrite Z.add_0_r. exact H. }
  induction s as [|x s IH]; intros pos; simpl.
  - apply Hstop.
  - destruct (atom_ok U caseless a x); [| apply Hstop].
    destruct (atom_star U caseless a k (pos + utf8_width x) s c) eqn:Hrec; [| apply Hstop].
    intros E. inversion E; subst. apply IH in Hrec. destruct Hrec as (pre & s' & -> & H).
    exists (x :: pre), s'. split; [reflexivity |].
    change (utf8_bytes (x :: pre)) with (utf8_width x + utf8_bytes pre).
    rewrite Z.add_assoc. exact H.
Qed.

Lemma rmatch_progress (r : regex) :
  forall k pos s c m,
    rmatch U caseless r k pos s c = Some m ->
    exists pre s' c', s = pre ++ s' /\ k (pos + utf8_bytes pre) s' c' = Some m.
Proof.
  induction r as [|a q|r1 IH1 r2 IH2|r1 IH1 r2 IH2|n r IH]; simpl; intros k pos s c m H.
  - exists [], s, c. split; [reflexivity |].
    unfold utf8_bytes. simpl. rewrite Z.add_0_r. exact H.
  - assert (Hone : forall k0 pos0 s0,
              atom_one U caseless a k0 pos0 s0 c = Some m ->
              exists pre s' c', s0 = pre ++ s' /\ k0 (pos0 + utf8_bytes pre) s' c' = Some m).
    { intros k0 pos0 s0 H0. apply atom_one_progress in H0.
      destruct H0 as (pre & s' & E & H0). exists pre, s', c. auto. }
    assert (Hstar : forall pos0 s0,
              atom_star U caseless a k pos0 s0 c = Some m ->
              exists pre s' c', s0 = pre ++ s' /\ k (pos0 + utf8_bytes pre) s' c' = Some m).
    { intros pos0 s0 H0. apply atom_star_progress in H0.
      destruct H0 as (pre & s' & E & H0). exists pre, s', c. auto. }
    destruct q.
    + apply Hone. exact H.
    + apply Hstar. exact H.
    + apply atom_one_progress in H. destruct H as (pre1 & s1 & -> & H).
      apply atom_star_progress in H. destruct H as (pre2 & s2 & -> & H).
      exists (pre1 ++ pre2), s2, c. rewrite <- app_assoc. split; [reflexivity |].
      rewrite utf8_bytes_app, Z.add_assoc. exact H.
    + destruct (atom_one U caseless a k pos s c) eqn:H1.
      * inversion H; subst. apply Hone. exact H1.
      * exists [], s, c. split; [reflexivity |].
        unfold utf8_bytes. simpl. rewrite Z.add_0_r. exact H.
  - apply IH1 in H. destruct H as (pre1 & s1 & c1 & -> & H).
    apply IH2 in H. destruct H as (pre2 & s2 & c2 & -> & H).
    exists (pre1 ++ pre2), s2, c2. rewrite <- app_assoc. split; [reflexivity |].
    rewrite utf8_bytes_app, Z.add_assoc. exact H.
  - destruct (rmatch U caseless r1 k pos s c) eqn:H1.
    + inversion H; subst. eapply IH1. exact H1.
    + eapply IH2. exact H.
  - apply IH in H. destruct H as (pre & s' & c' & E & H). eauto.
Qed.

(** A match found from offset [pos] in [s] skips some characters, covers
    some, and leaves the rest; group 0 holds the byte offsets of what it
    covers. *)
Lemma pcre_exec_progress (r : regex) (c : captures) (rest : utf8) :
  forall s pos,
    pcre_exec U caseless r pos s = Some (c, rest) ->
    exists skipped found,
      s = skipped ++ found ++ rest /\
      g_match_info_fetch_pos c 0 =
        (pos + utf8_bytes skipped, pos + utf8_bytes skipped + utf8_bytes found).
Proof.
  assert (Hhere : forall s pos,
            rmatch U caseless r (accept pos) pos s [] = Some (c, rest) ->
            exists skipped found,
              s = skipped ++ found ++ rest /\
              g_match_info_fetch_pos c 0 =
                (pos + utf8_bytes skipped, pos + utf8_bytes skipped + utf8_bytes found)).
  { intros s pos H. apply rmatch_progress in H. destruct H as (pre & s' & c' & -> & H).
    unfold accept in H. inversion H; subst. exists [], pre. split; [reflexivity |].
    unfold g_match_info_fetch_pos, utf8_bytes. simpl. rewrite Z.add_0_r. reflexivity. }
  induction s as [|x s IH]; intros pos; simpl;
    destruct (rmatch U caseless r (accept pos) pos _ []) as [m|] eqn:H0; intros E.
  - inversion E; subst. apply Hhere. exact H0.
  - discriminate.
  - inversion E; subst. apply Hhere. exact H0.
  - apply IH in E. destruct E as (skipped & found & -> & E).
    exists (x :: skipped), found. split; [reflexivity |].
    change (utf8_bytes (x :: skipped)) with (utf8_width x + utf8_bytes skipped).
    rewrite !Z.add_assoc. exact E.
Qed.
End Progress.

(** The iteration over the matches ends before its fuel does: any fuel above
    the length of the subject gives the same matches. *)
Lemma match_info_loop_fuel (U : Unicode) (re : GRegex) :
  forall fuel1 fuel2 pos s prev,
    (length s < fuel1)%nat -> (length s < fuel2)%nat ->
    match_info_loop U re fuel1 pos s prev = match_info_loop U re fuel2 pos s prev.
Proof.
  induction fuel1 as [|fuel1 IH]; intros fuel2 pos s prev H1 H2; [lia |].
  destruct fuel2 as [|fuel2]; [lia |]. cbn [match_info_loop].
  destruct (pcre_exec U (re_caseless re) (re_code re) pos s) as [[c rest]|] eqn:E;
    [| reflexivity].
  apply pcre_exec_progress in E. destruct E as (skipped & found & Es & Espan).
  rewrite Espan. cbn [fst snd].
  assert (Hlater :
    (if pos =? pos + utf8_bytes skipped + utf8_bytes found
     then match s with
          | [] => []
          | x :: s' => match_info_loop U re fuel1 (pos + utf8_width x) s'
                         (pos + utf8_bytes skipped, pos + utf8_bytes skipped + utf8_bytes found)
          end
     else match_info_loop U re fuel1 (pos + utf8_bytes skipped + utf8_bytes found) rest
            (pos + utf8_bytes skipped, pos + utf8_bytes skipped + utf8_bytes found)) =
    (if pos =? pos + utf8_bytes skipped + utf8_bytes found
     then match s with
          | [] => []
          | x :: s' => match_info_loop U re fuel2 (pos + utf8_width x) s'
                         (pos + utf8_bytes skipped, pos + utf8_bytes skipped + utf8_bytes found)
          end
     else match_info_loop U re fuel2 (pos + utf8_bytes skipped + utf8_bytes found) rest
            (pos + utf8_bytes skipped, pos + utf8_bytes skipped + utf8_bytes found))).
  { destruct (Z.eqb_spec pos (pos + utf8_bytes skipped + utf8_bytes found)) as [Heq|Hne].
    - destruct s as [|x s']; [reflexivity |]. apply IH; cbn [length] in *; lia.
    - assert (Hlen : (length rest < length s)%nat).
      { subst s. rewrite !length_app.
        destruct skipped as [|y skipped]; [| cbn [length]; lia].
        destruct found as [|y found]; [| cbn [length]; lia].
        exfalso. apply Hne. unfold utf8_bytes. simpl. lia. }
      apply IH; lia. }
  rewrite Hlater. reflexivity.
Qed.

Lemma g_regex_match_all_fuel (U : Unicode) (re : GRegex) (s : utf8) (fuel : nat) :
  (length s < fuel)%nat ->
  match_info_loop U re fuel 0 s (-1, -1) = g_regex_match_all U re s.
Proof.
  intros H. apply match_info_loop_fuel; [exact H | lia].
Qed.

(** ** [tokenize] keeps every token *)

Lemma until_null_total {A B : Type} (f : A -> option B) (l : list A) :
  (forall a, f a <> None) -> length (until_null (map f l)) = length l.
Proof.
  intros Hf. induction l as [|a l IH]; simpl; [reflexivity |].
  destruct (f a) eqn:E; [simpl; rewrite IH; reflexivity | exfalso; exact (Hf a E)].
Qed.

Lemma tokenize_length (config : Settings) (input : utf8) (cs : bool) :
  length (token_list (tokenize config (Some input) cs)) =
  match input with
  | [] => 0%nat
  | _ :: _ => if config_tokenize config then length (strtok_all [] input) else 1%nat
  end.
Proof.
  unfold tokenize. destruct input as [|x input]; [reflexivity |].
  destruct (config_tokenize config); cbn [negb].
  - destruct (strtok_all [] (x :: input)) as [|t toks] eqn:E; [reflexivity |].
    cbn [token_list]. apply until_null_total. intros a. apply create_regex_total.
  - cbn [token_list]. apply (until_null_total (fun i => create_regex config i cs) [x :: input]).
    intros a. apply create_regex_total.
Qed.

(* ================================================================= *)
(** * The claims *)

(** C1.  [helper_token_match] returns true exactly when every token of the
    set has an occurrence somewhere in the candidate (each token on its own,
    nothing relates their positions), and the token set of the empty query
    is the NULL set, which matches every candidate.  No token is lost on the
    way: the set holds one pattern per word of the query, or one for the
    whole query when tokenizing is off. *)
Theorem helper_token_match_all_tokens (U : Unicode) :
  (forall tokens candidate,
      helper_token_match U tokens candidate = true <->
      Forall (fun t => occurs U t candidate) (token_list tokens)) /\
  (forall config case_sensitive candidate,
      tokenize config (Some []) case_sensitive = None /\
      helper_token_match U (tokenize config (Some []) case_sensitive) candidate = true) /\
  (forall config input case_sensitive,
      length (token_list (tokenize config (Some input) case_sensitive)) =
      match input with
      | [] => 0%nat
      | _ :: _ => if config_tokenize config then length (strtok_all [] input) else 1%nat
      end).
Proof.
  split; [| split].
  - intros [toks|] candidate; simpl.
    + apply token_match_loop_forall.
    + split; auto.
  - intros config cs candidate. split; reflexivity.
  - exact tokenize_length.
Qed.

(** C2.  [create_regex] never returns NULL; with the regex method a text
    that [g_regex_new] refuses is compiled as the escaped literal, exactly
    as the normal method compiles it; and the token "(" under the regex
    method compiles to a pattern that matches the candidates containing
    the character "(". *)
Theorem create_regex_never_fails :
  (forall config input case_sensitive, create_regex config input case_sensitive <> None) /\
  (forall tok c input case_sensitive,
      create_regex (settings MM_REGEX tok c) input case_sensitive =
      match g_regex_new input (negb case_sensitive) with
      | Some re => Some re
      | None => create_regex (settings MM_NORMAL tok c) input case_sensitive
      end) /\
  (forall tok c input case_sensitive U candidate,
      option_map (fun re => g_regex_match U re candidate)
                 (create_regex (settings MM_NORMAL tok c) input case_sensitive) =
      Some (literal_find U (negb case_sensitive) input candidate)) /\
  (forall tok c case_sensitive,
      g_regex_new (cps "(") (negb case_sensitive) = None /\
      forall U candidate,
        option_map (fun re => g_regex_match U re candidate)
                   (create_regex (settings MM_REGEX tok c) (cps "(") case_sensitive) =
        Some (existsb (same_char U (negb case_sensitive) 40) candidate)) /\
  (forall tok c case_sensitive candidate,
      option_map (fun re => g_regex_match basic_latin re candidate)
                 (create_regex (settings MM_REGEX tok c) (cps "(") case_sensitive) =
      Some (existsb (Z.eqb 40) candidate)).
Proof.
  assert (Hlit : forall tok c input cs U candidate,
      option_map (fun re => g_regex_match U re candidate)
                 (create_regex (settings MM_NORMAL tok c) input cs) =
      Some (literal_find U (negb cs) input candidate)).
  { intros. rewrite create_regex_normal. simpl. rewrite literal_pattern_matches. reflexivity. }
  assert (Hparen : forall tok c cs U candidate,
      option_map (fun re => g_regex_match U re candidate)
                 (create_regex (settings MM_REGEX tok c) (cps "(") cs) =
      Some (existsb (same_char U (negb cs) 40) candidate)).
  { intros. rewrite create_regex_regex.
    change (g_regex_new (cps "(") (negb cs)) with (@None GRegex). cbv iota.
    rewrite Hlit. change (cps "(") with [40]. rewrite literal_find_single. reflexivity. }
  split; [exact create_regex_total |].
  split; [exact create_regex_regex |].
  split; [exact Hlit |].
  split.
  - intros tok c cs. split; [reflexivity | intros; apply Hparen].
  - intros tok c cs candidate. rewrite Hparen. f_equal.
    induction candidate as [|x C IH]; [reflexivity |].
    simpl. rewrite IH. f_equal. apply basic_latin_paren.
Qed.

(** C3, as stated, fails.  Case-sensitively, "ab" is a subsequence of
    "a", line feed, "b", yet the fuzzy pattern of "ab" does not match it:
    the [.*] between the groups does not cross a line ending.  And
    case-insensitively the pattern of "a" matches "A", in which the code
    point of "a" does not occur. *)
Lemma fuzzy_filter_not_plain_subsequence :
  (exists re,
      create_regex (settings MM_FUZZY true true) (cps "ab") true = Some re /\
      ~ (g_regex_match basic_latin re [97; 10; 98] = true <->
         subsequence (cps "ab") [97; 10; 98] = true)) /\
  (exists re,
      create_regex (settings MM_FUZZY true false) (cps "a") false = Some re /\
      ~ (g_regex_match basic_latin re (cps "A") = true <->
         subsequence (cps "a") (cps "A") = true)).
Proof.
  split; eexists; (split; [reflexivity |]).
  - intros [_ H]. specialize (H eq_refl). vm_compute in H. discriminate.
  - intros [H _]. specialize (H eq_refl). vm_compute in H. discriminate.
Qed.

(** C3, amended.  The pattern built for a fuzzy token matches a candidate
    exactly when the characters of the token occur in the candidate in the
    same order, compared case-insensitively unless the pattern is case
    sensitive, with no line ending between two consecutive matched
    characters.  For a case-sensitive pattern and a candidate without line
    endings that is the plain subsequence test.  The pattern of "abc"
    matches "xaxbxc" and does not match "acb". *)
Theorem fuzzy_filter_accepts (U : Unicode) :
  (forall tok c case_sensitive P C,
      option_map (fun re => g_regex_match U re C)
                 (create_regex (settings MM_FUZZY tok c) P case_sensitive) =
      Some (fuzzy_accepts U (negb case_sensitive) P C)) /\
  (forall tok c P C,
      Forall (fun x => pcre_newline U x = false) C ->
      option_map (fun re => g_regex_match U re C)
                 (create_regex (settings MM_FUZZY tok c) P true) =
      Some (subsequence P C)) /\
  (forall tok c case_sensitive,
      option_map (fun re => g_regex_match basic_latin re (cps "xaxbxc"))
                 (create_regex (settings MM_FUZZY tok c) (cps "abc") case_sensitive) = Some true /\
      option_map (fun re => g_regex_match basic_latin re (cps "acb"))
                 (create_regex (settings MM_FUZZY tok c) (cps "abc") case_sensitive) = Some false).
Proof.
  assert (Hgen : forall tok c cs P C,
      option_map (fun re => g_regex_match U re C)
                 (create_regex (settings MM_FUZZY tok c) P cs) =
      Some (fuzzy_accepts U (negb cs) P C)).
  { intros. rewrite create_regex_fuzzy. simpl. rewrite fuzzy_pattern_matches. reflexivity. }
  split; [exact Hgen |]. split.
  - intros tok c P C HC. rewrite Hgen. simpl negb.
    rewrite fuzzy_accepts_subsequence by exact HC. reflexivity.
  - intros tok c cs. destruct cs; split; vm_compute; reflexivity.
Qed.

Lemma fuzzy_filter_accepts_witness :
  Forall (fun x => pcre_newline basic_latin x = false) (cps "xaxbxc") /\
  option_map (fun re => g_regex_match basic_latin re (cps "xaxbxc"))
             (create_regex (settings MM_FUZZY true false) (cps "abc") true) =
  Some (subsequence (cps "abc") (cps "xaxbxc")).
Proof.
  assert (H : Forall (fun x => pcre_newline basic_latin x = false) (cps "xaxbxc")).
  { repeat constructor. }
  split; [exact H |].
  exact (proj1 (proj2 (fuzzy_filter_accepts basic_latin)) true false (cps "abc") (cps "xaxbxc") H).
Defined.

(** C4.  When [slen] exceeds 256 the scorer returns [-MIN_SCORE], that is
    1073741824, whatever the pattern and the string; so does [fuzzyScore] on
    a candidate of more than 256 code points. *)
Theorem fuzzy_score_length_guard (U : Unicode) (config : Settings)
    (pattern : utf8) (plen : Z) (str : utf8) (slen : Z) :
  slen > FUZZY_SCORER_MAX_LENGTH ->
  rofi_scorer_fuzzy_evaluate U config pattern plen str slen = - MIN_SCORE /\
  - MIN_SCORE = 1073741824 /\
  (g_utf8_strlen str = slen -> fuzzyScore U config pattern str = - MIN_SCORE).
Proof.
  intros H. assert (E : rofi_scorer_fuzzy_evaluate U config pattern plen str slen = - MIN_SCORE).
  { unfold rofi_scorer_fuzzy_evaluate. destruct (Z.gtb_spec slen FUZZY_SCORER_MAX_LENGTH).
    - reflexivity.
    - lia. }
  repeat split; [exact E | ].
  intros Hlen. unfold fuzzyScore, rofi_scorer_fuzzy_evaluate. rewrite Hlen.
  destruct (Z.gtb_spec slen FUZZY_SCORER_MAX_LENGTH); [reflexivity | lia].
Qed.

Lemma fuzzy_score_length_guard_witness :
  257 > FUZZY_SCORER_MAX_LENGTH /\
  rofi_scorer_fuzzy_evaluate basic_latin (settings MM_FUZZY true false)
    (cps "abc") 3 (repeat 97 257) 257 = 1073741824.
Proof.
  assert (H : 257 > FUZZY_SCORER_MAX_LENGTH) by reflexivity.
  split; [exact H |].
  exact (proj1 (fuzzy_score_length_guard basic_latin (settings MM_FUZZY true false)
                  (cps "abc") 3 (repeat 97 257) 257 H)).
Defined.

(** C5, as stated, fails: the camel-case bonus is 50 + (-5) - 1 = 44, not
    45 (45 is [CONSECUTIVE_SCORE]). *)
Lemma camel_score_not_45 :
  CAMEL_SCORE = 44 /\
  rofi_scorer_get_score_for LOWER UPPER <> 45 /\
  rofi_scorer_get_score_for LOWER DIGIT <> 45.
Proof.
  repeat split; vm_compute; discriminate.
Qed.

(** C5, amended.  The bonus of a transition is: from a non-word character
    to a word character [WORD_START_SCORE] = 50; otherwise from lower to
    upper case, or from a character that is not a digit to a digit,
    [CAMEL_SCORE] = [WORD_START_SCORE + GAP_SCORE - 1] = 44; otherwise into
    a non-word character [NON_WORD_SCORE] = 40; otherwise 0.  [score[j]] is
    the bonus of the transition from the class of character j-1 to the
    class of character j, with [NON_WORD] before position 0. *)
Theorem transition_scores (U : Unicode) :
  WORD_START_SCORE = 50 /\
  CAMEL_SCORE = WORD_START_SCORE + GAP_SCORE - 1 /\ CAMEL_SCORE = 44 /\
  NON_WORD_SCORE = 40 /\
  (forall prev curr,
      rofi_scorer_get_score_for prev curr =
      match prev, curr with
      | NON_WORD, LOWER | NON_WORD, UPPER | NON_WORD, DIGIT => WORD_START_SCORE
      | LOWER, UPPER | LOWER, DIGIT | UPPER, DIGIT => CAMEL_SCORE
      | _, NON_WORD => NON_WORD_SCORE
      | _, _ => 0
      end) /\
  (forall str,
      score_loop U NON_WORD str =
      map (fun j => rofi_scorer_get_score_for
                      (match j with
                       | O => NON_WORD
                       | S i => rofi_scorer_get_character_class U (nth i str 0)
                       end)
                      (rofi_scorer_get_character_class U (nth j str 0)))
          (seq 0 (length str))).
Proof.
  repeat split.
  - intros [] []; reflexivity.
  - intros str. apply score_loop_positions.
Qed.

(** C6.  With the Unicode tables of the six letters involved, and in either
    case mode, the score of "abc" in "abcxyz" is smaller than in "xabcxyz"
    (later first character) and smaller than in "axbxcxyz" (scattered
    match); the three scores are -175, -71 and -75. *)
Theorem fuzzy_score_prefers_early_contiguous (U : Unicode) (config : Settings) :
  tables_agree U basic_latin (cps "abcxyz") ->
  fuzzyScore U config (cps "abc") (cps "abcxyz") < fuzzyScore U config (cps "abc") (cps "xabcxyz") /\
  fuzzyScore U config (cps "abc") (cps "abcxyz") < fuzzyScore U config (cps "abc") (cps "axbxcxyz") /\
  fuzzyScore U config (cps "abc") (cps "abcxyz") = -175 /\
  fuzzyScore U config (cps "abc") (cps "xabcxyz") = -71 /\
  fuzzyScore U config (cps "abc") (cps "axbxcxyz") = -75.
Proof.
  intros H.
  assert (Hin : forall s, incl s (cps "abcxyz") -> tables_agree U basic_latin s).
  { intros s Hs. unfold tables_agree in *. rewrite Forall_forall in *.
    intros c Hc. apply H. apply Hs. exact Hc. }
  assert (E : forall str, incl str (cps "abcxyz") ->
                fuzzyScore U config (cps "abc") str = fuzzyScore basic_latin config (cps "abc") str).
  { intros str Hs. unfold fuzzyScore. apply fuzzy_evaluate_agree.
    - apply Hin. intros c Hc. vm_compute in Hc. vm_compute. tauto.
    - apply Hin. exact Hs. }
  rewrite !E.
  - destruct config as [m tok [|]]; vm_compute; repeat split; reflexivity.
  - intros c Hc. vm_compute in Hc. vm_compute. tauto.
  - intros c Hc. vm_compute in Hc. vm_compute. tauto.
  - intros c Hc. vm_compute in Hc. vm_compute. tauto.
Qed.

Lemma fuzzy_score_prefers_early_contiguous_witness :
  tables_agree basic_latin basic_latin (cps "abcxyz") /\
  fuzzyScore basic_latin (settings MM_FUZZY true false) (cps "abc") (cps "abcxyz") <
  fuzzyScore basic_latin (settings MM_FUZZY true false) (cps "abc") (cps "xabcxyz").
Proof.
  assert (H : tables_agree basic_latin basic_latin (cps "abcxyz")).
  { unfold tables_agree. apply Forall_forall. intros c _. repeat split. }
  split; [exact H |].
  exact (proj1 (fuzzy_score_prefers_early_contiguous basic_latin
                  (settings MM_FUZZY true false) H)).
Defined.

(** C7, as stated, fails for a pattern with exactly one capture group: the
    regex token "(a)b" matched against "ab" has match count 2, and the
    highlighter reports the span of group 1, bytes 0 to 1, where the
    statement asks for the span of the whole match, bytes 0 to 2. *)
Lemma single_group_reports_the_group :
  exists re c,
    create_regex (settings MM_REGEX true false) (cps "(a)b") false = Some re /\
    g_regex_match_all basic_latin re (cps "ab") = [c] /\
    g_match_info_get_match_count c = 2%nat /\
    match_spans c = [(0, 1)] /\
    spans_by_group_count c = [(0, 2)].
Proof.
  eexists. eexists. split; [reflexivity |]. split; [vm_compute; reflexivity |].
  repeat split.
Qed.

(** C7, amended.  For every match the highlighter goes by the match count
    (the whole match plus the groups up to the last one set): when it is
    above 1 it reports the spans of the groups 1 to count-1 and not the
    whole match, and when it is 1 it reports the span of the whole match.
    So every match of a normal or glob token reports its whole span, and
    every match of a fuzzy token reports one span per character of the
    token, each of them set.  The matches of a token are all visited (the
    iteration ends by itself), and the attributes are inserted token by
    token, match by match, span by span.  With the bold style alone, the
    fuzzy token "ab" on "xaybz" gives two attributes, on bytes 1 to 2 and
    3 to 4. *)
Theorem highlight_spans_by_match_count (U : Unicode) :
  (forall c,
      match_spans c =
      if (1 <? g_match_info_get_match_count c)%nat
      then map (g_match_info_fetch_pos c) (seq 1 (g_match_info_get_match_count c - 1))
      else [g_match_info_fetch_pos c 0]) /\
  (forall tok cc cs P re input c,
      create_regex (settings MM_NORMAL tok cc) P cs = Some re \/
      create_regex (settings MM_GLOB tok cc) P cs = Some re ->
      In c (g_regex_match_all U re input) ->
      match_spans c = [g_match_info_fetch_pos c 0]) /\
  (forall tok cc cs P re input c,
      create_regex (settings MM_FUZZY tok cc) P cs = Some re ->
      P <> [] ->
      In c (g_regex_match_all U re input) ->
      g_match_info_get_match_count c = S (length P) /\
      match_spans c = map (g_match_info_fetch_pos c) (seq 1 (length P)) /\
      Forall (fun n => capture_get c n <> None) (seq 1 (length P))) /\
  (forall double to_channel (th : ThemeHighlight double) tokens input retv,
      helper_token_match_get_pango_attr double to_channel U th tokens input retv =
      fold_left (insert_span double to_channel th)
                (flat_map (fun t => flat_map match_spans (g_regex_match_all U t input))
                          (token_list tokens))
                retv) /\
  (forall re input fuel,
      (length input < fuel)%nat ->
      match_info_loop U re fuel 0 input (-1, -1) = g_regex_match_all U re input) /\
  (forall double to_channel (red green blue : double),
      helper_token_match_get_pango_attr double to_channel basic_latin
        (Build_ThemeHighlight
           {| HL_BOLD := true; HL_UNDERLINE := false; HL_ITALIC := false; HL_COLOR := false |}
           red green blue)
        (tokenize (settings MM_FUZZY true false) (Some (cps "ab")) false) (cps "xaybz") [] =
      [ {| pa_value := pango_attr_weight_bold; start_index := 1; end_index := 2 |};
        {| pa_value := pango_attr_weight_bold; start_index := 3; end_index := 4 |} ]).
Proof.
  split; [exact match_spans_by_count |]. split; [| split; [| split; [| split]]].
  - intros tok cc cs P re input c [H | H] Hc.
    + rewrite create_regex_normal in H. inversion H; subst.
      eapply match_spans_groupless; [| exact Hc]. apply groupless_literal.
    + rewrite create_regex_glob in H. inversion H; subst.
      eapply match_spans_groupless; [| exact Hc]. apply groupless_glob.
  - intros tok cc cs P re input c H HP Hc.
    rewrite create_regex_fuzzy in H. inversion H; subst.
    eapply match_spans_fuzzy; eassumption.
  - intros double to_channel th tokens input retv.
    destruct tokens as [toks|]; [| reflexivity].
    cbn [helper_token_match_get_pango_attr token_list].
    rewrite fold_left_flat_map. revert retv.
    induction toks as [|t toks IH]; intros retv; [reflexivity |].
    cbn [fold_left]. rewrite IH. f_equal.
    unfold highlight_token. rewrite fold_left_flat_map. reflexivity.
  - intros re input fuel H. apply g_regex_match_all_fuel. exact H.
  - intros. vm_compute. reflexivity.
Qed.

Lemma highlight_spans_by_match_count_witness :
  create_regex (settings MM_FUZZY true false) (cps "ab") false =
    Some {| re_code := mk_seq (fuzzy_items true 1 (cps "ab")); re_caseless := true |} /\
  cps "ab" <> [] /\
  In [(0%nat, (1, 4)); (2%nat, (3, 4)); (1%nat, (1, 2))]
     (g_regex_match_all basic_latin
        {| re_code := mk_seq (fuzzy_items true 1 (cps "ab")); re_caseless := true |}
        (cps "xaybz")) /\
  match_spans [(0%nat, (1, 4)); (2%nat, (3, 4)); (1%nat, (1, 2))] = [(1, 2); (3, 4)].
Proof.
  assert (H1 : create_regex (settings MM_FUZZY true false) (cps "ab") false =
               Some {| re_code := mk_seq (fuzzy_items true 1 (cps "ab")); re_caseless := true |})
    by reflexivity.
  assert (H2 : cps "ab" <> []) by discriminate.
  assert (H3 : In [(0%nat, (1, 4)); (2%nat, (3, 4)); (1%nat, (1, 2))]
                  (g_regex_match_all basic_latin
                     {| re_code := mk_seq (fuzzy_items true 1 (cps "ab")); re_caseless := true |}
                     (cps "xaybz"))) by (left; reflexivity).
  split; [exact H1 |]. split; [exact H2 |]. split; [exact H3 |].
  exact (proj1 (proj2 (proj1 (proj2 (proj2 (highlight_spans_by_match_count basic_latin)))
                         true false false (cps "ab") _ (cps "xaybz") _ H1 H2 H3))).
Defined.

(** C8, as stated, fails.  The glob "f*o" matches "fo": the run that [*]
    stands for may be empty.  The glob "f?o" does not match "f o": [?]
    becomes [\S], which refuses white space.  The glob "f*o" does not match
    "f", line feed, "o": [*] becomes [.*], which does not cross a line
    ending. *)
Lemma glob_wildcards_not_any_character :
  option_map (fun re => g_regex_match basic_latin re (cps "fo"))
             (create_regex (settings MM_GLOB true false) (cps "f*o") false) = Some true /\
  option_map (fun re => g_regex_match basic_latin re (cps "f o"))
             (create_regex (settings MM_GLOB true false) (cps "f?o") false) = Some false /\
  option_map (fun re => g_regex_match basic_latin re [102; 10; 111])
             (create_regex (settings MM_GLOB true false) (cps "f*o") false) = Some false.
Proof.
  repeat split; vm_compute; reflexivity.
Qed.

(** C8, amended.  The pattern built for a glob token matches a candidate
    exactly when the glob occurs somewhere in it, where [*] stands for a
    run, possibly empty, of characters that are not line endings, [?] for
    one character that is not white space, and every other character for
    itself (case-insensitively unless the pattern is case sensitive).  So
    "f*o" matches "foo" and "fo" but not "bar", and "f?o" matches "foo" and
    "fzo" but not "fo". *)
Theorem glob_filter_accepts (U : Unicode) :
  (forall tok c case_sensitive P C,
      option_map (fun re => g_regex_match U re C)
                 (create_regex (settings MM_GLOB tok c) P case_sensitive) =
      Some (glob_find U (negb case_sensitive) P C)) /\
  (forall tok c case_sensitive,
      let matches glob candidate :=
        option_map (fun re => g_regex_match basic_latin re (cps candidate))
                   (create_regex (settings MM_GLOB tok c) (cps glob) case_sensitive) in
      matches "f*o"%string "foo"%string = Some true /\
      matches "f*o"%string "fo"%string = Some true /\
      matches "f*o"%string "bar"%string = Some false /\
      matches "f?o"%string "foo"%string = Some true /\
      matches "f?o"%string "fzo"%string = Some true /\
      matches "f?o"%string "fo"%string = Some false).
Proof.
  split.
  - intros. rewrite create_regex_glob. simpl. rewrite glob_pattern_matches. reflexivity.
  - intros tok c cs. destruct cs; repeat split; vm_compute; reflexivity.
Qed.

(** C9.  For strings whose lengths fit an [unsigned int], [editDistance]
    is the Levenshtein distance of the two code point sequences, as its
    recurrence defines it (characters compared after [g_unichar_tolower]
    unless the configuration is case sensitive); it is symmetric, it is 0
    on equal arguments, and it is 3 on "kitten" and "sitting". *)
Theorem editDistance_levenshtein (U : Unicode) (config : Settings) (a b : utf8) :
  g_utf8_strlen a < UINT_MAX -> g_utf8_strlen b < UINT_MAX ->
  editDistance U config a b =
    levenshtein_distance (fun x y => lev_fold U config x =? lev_fold U config y) a b /\
  editDistance U config a b = editDistance U config b a /\
  editDistance U config a a = 0 /\
  (forall m tok, editDistance U (settings m tok true) (cps "kitten") (cps "sitting") = 3) /\
  editDistance basic_latin config (cps "kitten") (cps "sitting") = 3.
Proof.
  intros Ha Hb. split; [apply editDistance_recurrence; assumption |]. split; [| split; [| split]].
  - rewrite !editDistance_recurrence by assumption. unfold levenshtein_distance.
    rewrite (lev_rec_swap _ a b).
    apply lev_rec_ext. intros x y. apply Z.eqb_sym.
  - rewrite editDistance_recurrence by assumption. unfold levenshtein_distance.
    apply lev_rec_self. intros x. apply Z.eqb_refl.
  - intros m tok. vm_compute. reflexivity.
  - destruct config as [m tok [|]]; vm_compute; reflexivity.
Qed.

Lemma editDistance_levenshtein_witness :
  g_utf8_strlen (cps "kitten") < UINT_MAX /\ g_utf8_strlen (cps "sitting") < UINT_MAX /\
  editDistance basic_latin (settings MM_NORMAL true false) (cps "kitten") (cps "sitting") =
  editDistance basic_latin (settings MM_NORMAL true false) (cps "sitting") (cps "kitten").
Proof.
  assert (Ha : g_utf8_strlen (cps "kitten") < UINT_MAX) by reflexivity.
  assert (Hb : g_utf8_strlen (cps "sitting") < UINT_MAX) by reflexivity.
  split; [exact Ha |]. split; [exact Hb |].
  exact (proj1 (proj2 (editDistance_levenshtein basic_latin (settings MM_NORMAL true false)
                         (cps "kitten") (cps "sitting") Ha Hb))).
Defined.

(** C10.  When the first [plen] characters of the pattern are all white
    space, in particular when the pattern is empty, no row of the dynamic
    program is run, every cell keeps [MIN_SCORE], and the scorer returns
    [-MIN_SCORE] = 1073741824, the value of the length guard, for every
    string and every [slen]. *)
Theorem fuzzy_score_blank_pattern (U : Unicode) (config : Settings)
    (pattern : utf8) (plen : Z) (str : utf8) (slen : Z) :
  Forall (fun pc => g_unichar_isspace U pc = true) (firstn (Z.to_nat plen) pattern) ->
  rofi_scorer_fuzzy_evaluate U config pattern plen str slen = - MIN_SCORE /\
  - MIN_SCORE = 1073741824 /\
  rofi_scorer_fuzzy_evaluate U config [] plen str slen = - MIN_SCORE /\
  (forall pfirst pstart s score dp uleft ulefts,
      scorer_rows U config (firstn (Z.to_nat plen) pattern) pfirst pstart s score dp uleft ulefts = dp).
Proof.
  intros H.
  assert (E : forall p, Forall (fun pc => g_unichar_isspace U pc = true) (firstn (Z.to_nat plen) p) ->
                rofi_scorer_fuzzy_evaluate U config p plen str slen = - MIN_SCORE).
  { intros p Hp. unfold rofi_scorer_fuzzy_evaluate.
    destruct (slen >? FUZZY_SCORER_MAX_LENGTH); [reflexivity |].
    rewrite (scorer_rows_blank U config _ Hp), (scorer_final_untouched U). reflexivity. }
  split; [apply E; exact H |]. split; [reflexivity |]. split.
  - apply E. rewrite firstn_nil. constructor.
  - intros. apply scorer_rows_blank. exact H.
Qed.

Lemma fuzzy_score_blank_pattern_witness :
  Forall (fun pc => g_unichar_isspace basic_latin pc = true) (firstn (Z.to_nat 2) (cps "  ")) /\
  fuzzyScore basic_latin (settings MM_FUZZY true false) (cps "  ") (cps "abcxyz") = 1073741824.
Proof.
  assert (H : Forall (fun pc => g_unichar_isspace basic_latin pc = true)
                     (firstn (Z.to_nat 2) (cps "  "))).
  { repeat constructor. }
  split; [exact H |].
  exact (proj1 (fuzzy_score_blank_pattern basic_latin (settings MM_FUZZY true false)
                  (cps "  ") 2 (cps "abcxyz") 6 H)).
Defined.

(* ================================================================= *)
(** * Further properties of the matching core *)

(** ** Tokens and token sets *)

Lemma same_char_refl (U : Unicode) (caseless : bool) (p : gunichar) :
  same_char U caseless p p = true.
Proof.
  unfold same_char. destruct caseless; apply Z.eqb_refl.
Qed.

Lemma literal_here_app (U : Unicode) (caseless : bool) (P rest : utf8) :
  literal_here U caseless P (P ++ rest) = true.
Proof.
  induction P as [|p P IH]; simpl.
  - destruct rest; reflexivity.
  - rewrite same_char_refl, IH. reflexivity.
Qed.

Lemma find_from_here (here : utf8 -> bool) (C : utf8) :
  here C = true -> find_from here C = true.
Proof.
  intros H. destruct C; simpl; rewrite H; reflexivity.
Qed.

Lemma find_from_skip (here : utf8 -> bool) (before C : utf8) :
  find_from here C = true -> find_from here (before ++ C) = true.
Proof.
  intros H. induction before as [|x before IH]; [exact H |].
  cbn [app find_from]. rewrite IH. apply orb_true_r.
Qed.

Lemma find_from_weaken (h1 h2 : utf8 -> bool) :
  (forall C, h1 C = true -> h2 C = true) ->
  forall C, find_from h1 C = true -> find_from h2 C = true.
Proof.
  intros Hh. induction C as [|x C IH]; cbn [find_from]; rewrite !orb_true_iff.
  - intros [H | H]; [left; apply Hh; exact H | discriminate].
  - intros [H | H]; [left; apply Hh; exact H | right; apply IH; exact H].
Qed.

(** X1.  A token compiled by the normal method matches every candidate
    that contains the token verbatim, in either case mode and whatever the
    characters of the token are. *)
Theorem literal_token_matches_verbatim (U : Unicode) (tok c case_sensitive : bool)
    (P before after : utf8) :
  option_map (fun re => g_regex_match U re (before ++ P ++ after))
             (create_regex (settings MM_NORMAL tok c) P case_sensitive) = Some true.
Proof.
  rewrite create_regex_normal. cbn [option_map]. rewrite literal_pattern_matches.
  f_equal. unfold literal_find. apply find_from_skip, find_from_here, literal_here_app.
Qed.

Lemma token_match_loop_app (U : Unicode) (toks1 toks2 : list GRegex) (candidate : utf8) :
  token_match_loop U (toks1 ++ toks2) candidate =
  token_match_loop U toks1 candidate && token_match_loop U toks2 candidate.
Proof.
  induction toks1 as [|t toks1 IH]; simpl; [reflexivity |].
  destruct (g_regex_match U t candidate); [exact IH | reflexivity].
Qed.



(** *** The words of a query *)

Lemma strtok_all_space (s1 : utf8) :
  forall (cur s2 : utf8),
    strtok_all cur (s1 ++ 32 :: s2) = strtok_all cur s1 ++ strtok_all [] s2.
Proof.
  induction s1 as [|ch s1 IH]; intros cur s2; cbn [app strtok_all].
  - change (32 =? 32) with true. cbv iota. destruct cur; reflexivity.
  - destruct (ch =? 32).
    + destruct cur; [apply IH | cbn [app]; f_equal; apply IH].
    + apply IH.
Qed.

Lemma strtok_all_tokens (s : utf8) :
  forall cur : utf8,
    ~ In 32 cur ->
    Forall (fun t => t <> [] /\ ~ In 32 t) (strtok_all cur s) /\
    concat (strtok_all cur s) = rev cur ++ filter (fun ch => negb (ch =? 32)) s.
Proof.
  induction s as [|ch s IH]; intros cur Hcur; cbn [strtok_all filter].
  - destruct cur as [|x cur].
    + split; [constructor | reflexivity].
    + split.
      * constructor; [| constructor]. split.
        -- intros E. apply (f_equal (@length gunichar)) in E.
           rewrite length_rev in E. discriminate.
        -- intros H. apply in_rev in H. exact (Hcur H).
      * cbn [concat]. rewrite !app_nil_r. reflexivity.
  - destruct (Z.eqb_spec ch 32) as [E|E]; cbn [negb].
    + destruct (IH [] (fun H => H)) as [IH1 IH2]. destruct cur as [|x cur].
      * split; [exact IH1 | exact IH2].
      * split.
        -- constructor; [| exact IH1]. split.
           ++ intros E'. apply (f_equal (@length gunichar)) in E'.
              rewrite length_rev in E'. discriminate.
           ++ intros H. apply in_rev in H. exact (Hcur H).
        -- rewrite concat_cons. f_equal. exact IH2.
    + assert (Hcur' : ~ In 32 (ch :: cur)).
      { intros [H | H]; [exact (E H) | exact (Hcur H)]. }
      destruct (IH (ch :: cur) Hcur') as [IH1 IH2]. split; [exact IH1 |].
      rewrite IH2. cbn [rev]. rewrite <- app_assoc. reflexivity.
Qed.

Lemma filter_spaces_nil (s : utf8) :
  filter (fun ch => negb (ch =? 32)) s = [] <-> Forall (fun ch => ch = 32) s.
Proof.
  induction s as [|ch s IH]; cbn [filter].
  - split; [constructor | reflexivity].
  - destruct (Z.eqb_spec ch 32) as [E|E]; cbn [negb].
    + rewrite IH. split; [intros H; constructor; assumption | intros H; inversion H; assumption].
    + split; [discriminate |]. intros H. inversion H; subst. contradiction.
Qed.

Lemma strtok_all_none (s : utf8) :
  strtok_all [] s = [] <-> Forall (fun ch => ch = 32) s.
Proof.
  destruct (strtok_all_tokens s [] (fun H => H)) as [Htok Hcat].
  rewrite <- filter_spaces_nil. split.
  - intros E.
    assert (Hc : concat (strtok_all [] s) = []) by (rewrite E; reflexivity).
    exact (eq_trans (eq_sym Hcat) Hc).
  - intros Hnil. destruct (strtok_all [] s) as [|t toks]; [reflexivity |].
    exfalso. inversion Htok as [|? ? [Hne _] _]; subst. apply Hne.
    pose proof (eq_trans (eq_sym Hnil) (eq_sym Hcat)) as Hcat'.
    symmetry in Hcat'. rewrite concat_cons in Hcat'.
    apply app_eq_nil in Hcat'. exact (proj1 Hcat').
Qed.


(** X4.  [tokenize] returns the NULL set, which matches every candidate,
    exactly for the empty query and, when tokenizing is on, for a query of
    spaces only. *)
Theorem tokenize_null_iff (config : Settings) (query : utf8) (case_sensitive : bool) :
  tokenize config (Some query) case_sensitive = None <->
  query = [] \/ (config_tokenize config = true /\ Forall (fun ch => ch = 32) query).
Proof.
  unfold tokenize. destruct query as [|x query].
  - split; auto.
  - destruct (config_tokenize config) eqn:Htok; cbn [negb].
    + destruct (strtok_all [] (x :: query)) as [|t toks] eqn:E.
      * split; [| reflexivity]. intros _. right. split; [reflexivity |].
        apply strtok_all_none. exact E.
      * split; [discriminate |]. intros [H | [_ H]]; [discriminate |].
        apply strtok_all_none in H. congruence.
    + split; [discriminate |]. intros [H | [H _]]; discriminate.
Qed.

Lemma until_null_total_map {A B : Type} (f : A -> option B) (l1 l2 : list A) :
  (forall a, f a <> None) ->
  until_null (map f (l1 ++ l2)) = until_null (map f l1) ++ until_null (map f l2).
Proof.
  intros Hf. induction l1 as [|a l1 IH]; [reflexivity |].
  cbn [app map until_null]. destruct (f a) eqn:E; [| exfalso; exact (Hf a E)].
  cbn [app]. rewrite IH. reflexivity.
Qed.

Lemma tokenize_words (m : MatchingMethod) (c : bool) (query : utf8) (cs : bool) :
  token_list (tokenize (settings m true c) (Some query) cs) =
  until_null (map (fun token => create_regex (settings m true c) token cs)
                  (strtok_all [] query)).
Proof.
  unfold tokenize. destruct query as [|x query]; [reflexivity |].
  cbn [config_tokenize settings negb].
  destruct (strtok_all [] (x :: query)); reflexivity.
Qed.

Lemma helper_token_match_list (U : Unicode) (tokens : TokenSet) (candidate : utf8) :
  helper_token_match U tokens candidate = token_match_loop U (token_list tokens) candidate.
Proof. destruct tokens; reflexivity. Qed.

(** X5.  With tokenizing on, a query made of two queries separated by a
    space matches a candidate exactly when both parts match it. *)
Theorem tokenize_conjunction (U : Unicode) (m : MatchingMethod) (c : bool)
    (query1 query2 : utf8) (case_sensitive : bool) (candidate : utf8) :
  helper_token_match U
    (tokenize (settings m true c) (Some (query1 ++ 32 :: query2)) case_sensitive) candidate =
  helper_token_match U (tokenize (settings m true c) (Some query1) case_sensitive) candidate &&
  helper_token_match U (tokenize (settings m true c) (Some query2) case_sensitive) candidate.
Proof.
  rewrite !helper_token_match_list, !tokenize_words, strtok_all_space.
  rewrite until_null_total_map by (intros a; apply create_regex_total).
  apply token_match_loop_app.
Qed.

(** ** The matching methods compared *)

Lemma literal_here_fuzzy_tail (U : Unicode) (caseless : bool) (P : utf8) :
  forall C, literal_here U caseless P C = true -> fuzzy_tail U caseless P C = true.
Proof.
  induction P as [|p P IH]; intros C H.
  - destruct C; reflexivity.
  - destruct C as [|x C]; [discriminate |]. cbn [literal_here fuzzy_tail] in *.
    apply andb_true_iff in H. destruct H as [Hx H].
    rewrite Hx, (IH C H). reflexivity.
Qed.

Lemma literal_here_fuzzy_here (U : Unicode) (caseless : bool) (P C : utf8) :
  literal_here U caseless P C = true -> fuzzy_here U caseless P C = true.
Proof.
  destruct P as [|p P]; [reflexivity |]. destruct C as [|x C]; [discriminate |].
  cbn [literal_here fuzzy_here]. intros H. apply andb_true_iff in H. destruct H as [Hx H].
  rewrite Hx, (literal_here_fuzzy_tail U caseless P C H). reflexivity.
Qed.

(** X6.  Whatever the normal method accepts the fuzzy method accepts: when
    the normal pattern of a token matches a candidate, so does the fuzzy
    pattern of the same token. *)
Theorem normal_match_implies_fuzzy_match (U : Unicode) (tok c case_sensitive : bool)
    (P C : utf8) :
  option_map (fun re => g_regex_match U re C)
             (create_regex (settings MM_NORMAL tok c) P case_sensitive) = Some true ->
  option_map (fun re => g_regex_match U re C)
             (create_regex (settings MM_FUZZY tok c) P case_sensitive) = Some true.
Proof.
  rewrite create_regex_normal, create_regex_fuzzy. cbn [option_map].
  rewrite literal_pattern_matches, fuzzy_pattern_matches.
  intros H. f_equal. inversion H as [H']. rewrite H'.
  unfold literal_find, fuzzy_accepts in *.
  revert H'. apply find_from_weaken. intros C0. apply literal_here_fuzzy_here.
Qed.

Lemma normal_match_implies_fuzzy_match_witness :
  option_map (fun re => g_regex_match basic_latin re (cps "xabcx"))
             (create_regex (settings MM_NORMAL true false) (cps "abc") false) = Some true /\
  option_map (fun re => g_regex_match basic_latin re (cps "xabcx"))
             (create_regex (settings MM_FUZZY true false) (cps "abc") false) = Some true.
Proof.
  assert (H : option_map (fun re => g_regex_match basic_latin re (cps "xabcx"))
                (create_regex (settings MM_NORMAL true false) (cps "abc") false) = Some true)
    by reflexivity.
  split; [exact H |].
  exact (normal_match_implies_fuzzy_match basic_latin true false false (cps "abc") (cps "xabcx") H).
Defined.

Lemma escape_plain (P : utf8) :
  Forall (fun p => regex_special p = false) P -> g_regex_escape_string P = P.
Proof.
  induction 1 as [|p P Hp _ IH]; [reflexivity |].
  cbn [g_regex_escape_string]. rewrite Hp, IH. reflexivity.
Qed.

Lemma glob_items_plain (P : utf8) :
  Forall (fun p => regex_special p = false) P -> map glob_item P = literal_items P.
Proof.
  unfold literal_items. induction 1 as [|p P Hp _ IH]; [reflexivity |].
  cbn [map]. rewrite IH. f_equal. unfold glob_item.
  pose proof (regex_plain_cases p Hp) as (_ & _ & _ & _ & _ & _ & _ & _ & H9 & _ & H11 & _).
  rewrite H9, H11. reflexivity.
Qed.

(** X7.  For a token without any of the characters that
    [g_regex_escape_string] escapes, the normal, the glob and the regex
    method compile the very same pattern. *)
Theorem plain_token_same_pattern (tok c case_sensitive : bool) (P : utf8) :
  Forall (fun p => regex_special p = false) P ->
  create_regex (settings MM_GLOB tok c) P case_sensitive =
    create_regex (settings MM_NORMAL tok c) P case_sensitive /\
  create_regex (settings MM_REGEX tok c) P case_sensitive =
    create_regex (settings MM_NORMAL tok c) P case_sensitive.
Proof.
  intros HP. split.
  - rewrite create_regex_glob, create_regex_normal, (glob_items_plain P HP). reflexivity.
  - rewrite create_regex_regex, create_regex_normal.
    rewrite <- (escape_plain P HP) at 1. rewrite g_regex_new_literal. reflexivity.
Qed.

Lemma plain_token_same_pattern_witness :
  Forall (fun p => regex_special p = false) (cps "abc") /\
  create_regex (settings MM_REGEX true false) (cps "abc") false =
    create_regex (settings MM_NORMAL true false) (cps "abc") false.
Proof.
  assert (H : Forall (fun p => regex_special p = false) (cps "abc")) by (repeat constructor).
  split; [exact H |].
  exact (proj2 (plain_token_same_pattern true false false (cps "abc") H)).
Defined.

(** ** The attribute list *)

Lemma pango_insert_in (l : PangoAttrList) (pa x : PangoAttribute) :
  In x (pango_attr_list_insert l pa) <-> x = pa \/ In x l.
Proof.
  induction l as [|b l IH]; cbn [pango_attr_list_insert].
  - simpl. intuition congruence.
  - destruct (start_index b >? start_index pa); simpl.
    + intuition congruence.
    + rewrite IH. intuition congruence.
Qed.

Lemma pango_insert_length (l : PangoAttrList) (pa : PangoAttribute) :
  length (pango_attr_list_insert l pa) = S (length l).
Proof.
  induction l as [|b l IH]; cbn [pango_attr_list_insert]; [reflexivity |].
  destruct (start_index b >? start_index pa); cbn [length]; [reflexivity | rewrite IH; reflexivity].
Qed.

Lemma pango_insert_ordered (l : PangoAttrList) (pa : PangoAttribute) :
  attrs_ordered l -> attrs_ordered (pango_attr_list_insert l pa).
Proof.
  unfold attrs_ordered. induction 1 as [|b l Hl IH Hb]; cbn [pango_attr_list_insert].
  - constructor; constructor.
  - destruct (Z.gtb_spec (start_index b) (start_index pa)) as [Hgt|Hle].
    + constructor; [constructor; assumption |].
      constructor; [lia |]. apply Forall_forall. intros x Hx.
      rewrite Forall_forall in Hb. specialize (Hb x Hx). lia.
    + constructor; [exact IH |]. apply Forall_forall. intros x Hx.
      apply pango_insert_in in Hx. destruct Hx as [-> | Hx]; [lia |].
      rewrite Forall_forall in Hb. exact (Hb x Hx).
Qed.

Section HighlightList.
Variable double : Type.
Variable to_channel : double -> Z.
Variable th : ThemeHighlight double.

Lemma insert_span_keeps (inv : PangoAttrList -> Prop) :
  (forall l pa, inv l -> inv (pango_attr_list_insert l pa)) ->
  forall retv span, inv retv -> inv (insert_span double to_channel th retv span).
Proof.
  intros Hins retv span H. unfold insert_span.
  destruct (HL_BOLD (th_style th)), (HL_UNDERLINE (th_style th)),
           (HL_ITALIC (th_style th)), (HL_COLOR (th_style th)); auto.
Qed.

Lemma insert_span_length (retv : PangoAttrList) (span : Z * Z) :
  length (insert_span double to_channel th retv span) =
  (length retv + style_count (th_style th))%nat.
Proof.
  unfold insert_span, style_count.
  destruct (HL_BOLD (th_style th)), (HL_UNDERLINE (th_style th)),
           (HL_ITALIC (th_style th)), (HL_COLOR (th_style th));
    rewrite ?pango_insert_length; lia.
Qed.

Lemma highlight_as_fold (U : Unicode) (tokens : TokenSet) (input : utf8)
    (retv : PangoAttrList) :
  helper_token_match_get_pango_attr double to_channel U th tokens input retv =
  fold_left (insert_span double to_channel th) (highlight_spans U tokens input) retv.
Proof.
  unfold highlight_spans. destruct tokens as [toks|]; [| reflexivity].
  cbn [helper_token_match_get_pango_attr token_list].
  rewrite fold_left_flat_map. revert retv.
  induction toks as [|t toks IH]; intros retv; [reflexivity |].
  cbn [fold_left]. rewrite IH. f_equal.
  unfold highlight_token. rewrite fold_left_flat_map. reflexivity.
Qed.

Lemma fold_insert_span_keeps (inv : PangoAttrList -> Prop) :
  (forall l pa, inv l -> inv (pango_attr_list_insert l pa)) ->
  forall spans retv, inv retv -> inv (fold_left (insert_span double to_channel th) spans retv).
Proof.
  intros Hins. induction spans as [|span spans IH]; intros retv H; [exact H |].
  cbn [fold_left]. apply IH. apply insert_span_keeps; assumption.
Qed.

Lemma fold_insert_span_length (spans : list (Z * Z)) :
  forall retv,
    length (fold_left (insert_span double to_channel th) spans retv) =
    (length retv + length spans * style_count (th_style th))%nat.
Proof.
  induction spans as [|span spans IH]; intros retv; cbn [fold_left length].
  - lia.
  - rewrite IH, insert_span_length. lia.
Qed.
End HighlightList.

(** X8.  The highlighter keeps the attribute list in order: when the list
    it is given is ordered by [start_index], so is the list it returns, and
    every attribute that was in the list is still in it. *)
Theorem highlight_keeps_order (double : Type) (to_channel : double -> Z) (U : Unicode)
    (th : ThemeHighlight double) (tokens : TokenSet) (input : utf8) (retv : PangoAttrList) :
  attrs_ordered retv ->
  attrs_ordered (helper_token_match_get_pango_attr double to_channel U th tokens input retv) /\
  incl retv (helper_token_match_get_pango_attr double to_channel U th tokens input retv).
Proof.
  intros H. rewrite highlight_as_fold. split.
  - apply fold_insert_span_keeps; [apply pango_insert_ordered | exact H].
  - apply (fold_insert_span_keeps double to_channel th (incl retv)).
    + intros l pa Hl x Hx. apply pango_insert_in. right. apply Hl. exact Hx.
    + apply incl_refl.
Qed.

Lemma highlight_keeps_order_witness :
  attrs_ordered [ {| pa_value := pango_attr_style_italic; start_index := 2; end_index := 3 |} ] /\
  attrs_ordered
    (helper_token_match_get_pango_attr unit (fun _ => 0) basic_latin
       (Build_ThemeHighlight
          {| HL_BOLD := true; HL_UNDERLINE := false; HL_ITALIC := false; HL_COLOR := false |}
          tt tt tt)
       (tokenize (settings MM_FUZZY true false) (Some (cps "ab")) false) (cps "xaybz")
       [ {| pa_value := pango_attr_style_italic; start_index := 2; end_index := 3 |} ]).
Proof.
  assert (H : attrs_ordered
                [ {| pa_value := pango_attr_style_italic; start_index := 2; end_index := 3 |} ]).
  { constructor; constructor. }
  split; [exact H |].
  exact (proj1 (highlight_keeps_order unit (fun _ => 0) basic_latin _ _ _ _ H)).
Defined.

(** X9.  The highlighter adds one attribute per reported span and per style
    flag that is set, and nothing else: the list grows by the number of
    spans times the number of flags, so with no flag set, or with the NULL
    token set, it keeps its length. *)
Theorem highlight_attribute_count (double : Type) (to_channel : double -> Z) (U : Unicode)
    (th : ThemeHighlight double) (tokens : TokenSet) (input : utf8) (retv : PangoAttrList) :
  length (helper_token_match_get_pango_attr double to_channel U th tokens input retv) =
  (length retv + length (highlight_spans U tokens input) * style_count (th_style th))%nat.
Proof.
  rewrite highlight_as_fold. apply fold_insert_span_length.
Qed.

(** ** Where the reported spans lie *)

Lemma utf8_width_max (c : gunichar) : utf8_width c <= 4.
Proof.
  unfold utf8_width.
  destruct (c <? 128); [lia |]. destruct (c <? 2048); [lia |]. destruct (c <? 65536); lia.
Qed.

Lemma span_within_widen (lo hi lo' hi' : Z) (span : Z * Z) :
  lo' <= lo -> hi <= hi' -> span_within lo hi span -> span_within lo' hi' span.
Proof.
  unfold span_within. lia.
Qed.

Section CapturesWithin.
Variable U : Unicode.
Variable caseless : bool.

Lemma ratom_progress (a : atom) (q : quant) (k : cont) (pos : Z) (s : utf8) (c : captures)
    (m : captures * utf8) :
  rmatch U caseless (RAtom a q) k pos s c = Some m ->
  exists pre s', s = pre ++ s' /\ k (pos + utf8_bytes pre) s' c = Some m.
Proof.
  intros H. destruct q; cbn [rmatch] in H.
  - apply atom_one_progress in H. exact H.
  - apply atom_star_progress in H. exact H.
  - apply atom_one_progress in H. destruct H as (pre1 & s1 & -> & H).
    apply atom_star_progress in H. destruct H as (pre2 & s2 & -> & H).
    exists (pre1 ++ pre2), s2. rewrite <- app_assoc. split; [reflexivity |].
    rewrite utf8_bytes_app, Z.add_assoc. exact H.
  - destruct (atom_one U caseless a k pos s c) eqn:H1.
    + inversion H; subst. apply atom_one_progress in H1. exact H1.
    + exists [], s. split; [reflexivity |].
      unfold utf8_bytes. simpl. rewrite Z.add_0_r. exact H.
Qed.

(** Every group set while a pattern is matched lies inside what the pattern
    covers. *)
Lemma rmatch_within (r : regex) :
  forall k pos s c m,
    rmatch U caseless r k pos s c = Some m ->
    exists pre s' c',
      s = pre ++ s' /\ k (pos + utf8_bytes pre) s' (c' ++ c) = Some m /\
      Forall (fun e => span_within pos (pos + utf8_bytes pre) (snd e)) c'.
Proof.
  induction r as [|a q|r1 IH1 r2 IH2|r1 IH1 r2 IH2|n r IH]; intros k pos s c m H.
  - exists [], s, []. split; [reflexivity |]. split; [| constructor].
    unfold utf8_bytes. simpl. rewrite Z.add_0_r. exact H.
  - apply ratom_progress in H. destruct H as (pre & s' & E & H).
    exists pre, s', []. split; [exact E |]. split; [exact H | constructor].
  - cbn [rmatch] in H. apply IH1 in H. destruct H as (pre1 & s1 & c1 & -> & H & F1).
    apply IH2 in H. destruct H as (pre2 & s2 & c2 & -> & H & F2).
    pose proof (utf8_bytes_nonneg pre1). pose proof (utf8_bytes_nonneg pre2).
    exists (pre1 ++ pre2), s2, (c2 ++ c1). rewrite <- !app_assoc.
    split; [reflexivity |]. split.
    + rewrite utf8_bytes_app, Z.add_assoc. exact H.
    + rewrite utf8_bytes_app. apply Forall_app. split.
      * eapply Forall_impl; [| exact F2]. intros e. apply span_within_widen; lia.
      * eapply Forall_impl; [| exact F1]. intros e. apply span_within_widen; lia.
  - cbn [rmatch] in H. destruct (rmatch U caseless r1 k pos s c) eqn:H1.
    + inversion H; subst. eapply IH1. exact H1.
    + eapply IH2. exact H.
  - cbn [rmatch] in H. apply IH in H. destruct H as (pre & s' & c1 & -> & H & F).
    pose proof (utf8_bytes_nonneg pre).
    exists pre, s', ((n, (pos, pos + utf8_bytes pre)) :: c1).
    split; [reflexivity |]. split; [exact H |].
    constructor; [unfold span_within; simpl; lia | exact F].
Qed.

Lemma pcre_exec_inv_pos (r : regex) (m : captures * utf8) :
  forall s pos,
    pcre_exec U caseless r pos s = Some m ->
    exists pos' s',
      pos <= pos' /\ pos' + utf8_bytes s' = pos + utf8_bytes s /\
      rmatch U caseless r (accept pos') pos' s' [] = Some m.
Proof.
  induction s as [|x s IH]; intros pos; cbn [pcre_exec];
    destruct (rmatch U caseless r (accept pos) pos _ []) eqn:H0; intros E.
  - inversion E; subst. exists pos, []. repeat split; [lia | exact H0].
  - discriminate.
  - inversion E; subst. exists pos, (x :: s). repeat split; [lia | exact H0].
  - apply IH in E. destruct E as (pos' & s' & Hle & Hsum & E).
    pose proof (utf8_width_pos x).
    exists pos', s'. split; [lia |]. split; [| exact E].
    rewrite Hsum. change (utf8_bytes (x :: s)) with (utf8_width x + utf8_bytes s). lia.
Qed.

Lemma pcre_exec_within (r : regex) (pos : Z) (s : utf8) (c : captures) (rest : utf8) :
  pcre_exec U caseless r pos s = Some (c, rest) ->
  Forall (fun e => span_within pos (pos + utf8_bytes s) (snd e)) c.
Proof.
  intros H. apply pcre_exec_inv_pos in H. destruct H as (pos' & s' & Hle & Hsum & H).
  apply rmatch_within in H. destruct H as (pre & s2 & c' & -> & H & F).
  unfold accept in H. inversion H; subst. rewrite app_nil_r.
  rewrite utf8_bytes_app in Hsum.
  pose proof (utf8_bytes_nonneg pre). pose proof (utf8_bytes_nonneg rest).
  constructor.
  - unfold span_within. simpl. lia.
  - eapply Forall_impl; [| exact F]. intros e. apply span_within_widen; lia.
Qed.
End CapturesWithin.

Lemma match_info_loop_inv_pos (U : Unicode) (re : GRegex) (c : captures) :
  forall fuel pos s prev,
    0 <= pos ->
    In c (match_info_loop U re fuel pos s prev) ->
    exists pos' s' rest,
      0 <= pos' /\ pos' + utf8_bytes s' = pos + utf8_bytes s /\
      pcre_exec U (re_caseless re) (re_code re) pos' s' = Some (c, rest).
Proof.
  induction fuel as [|fuel IH]; intros pos s prev Hpos H; cbn [match_info_loop] in H.
  - contradiction.
  - destruct (pcre_exec U (re_caseless re) (re_code re) pos s) as [[c0 rest]|] eqn:E;
      [| contradiction].
    pose proof (pcre_exec_progress U _ _ _ _ _ _ E) as (skipped & found & Es & Espan).
    rewrite Espan in H. cbn [fst snd] in H.
    pose proof (utf8_bytes_nonneg skipped). pose proof (utf8_bytes_nonneg found).
    assert (Hlater :
      In c (if pos =? pos + utf8_bytes skipped + utf8_bytes found
            then match s with
                 | [] => []
                 | x :: s' => match_info_loop U re fuel (pos + utf8_width x) s'
                                (pos + utf8_bytes skipped,
                                 pos + utf8_bytes skipped + utf8_bytes found)
                 end
            else match_info_loop U re fuel (pos + utf8_bytes skipped + utf8_bytes found) rest
                   (pos + utf8_bytes skipped, pos + utf8_bytes skipped + utf8_bytes found)) ->
      exists pos' s' rest',
        0 <= pos' /\ pos' + utf8_bytes s' = pos + utf8_bytes s /\
        pcre_exec U (re_caseless re) (re_code re) pos' s' = Some (c, rest')).
    { destruct (pos =? pos + utf8_bytes skipped + utf8_bytes found).
      - destruct s as [|x s']; [contradiction |]. intros Hin.
        pose proof (utf8_width_pos x).
        apply IH in Hin; [| lia]. destruct Hin as (pos' & s2 & rest' & G1 & G2 & G3).
        exists pos', s2, rest'. split; [exact G1 |]. split; [| exact G3].
        rewrite G2. change (utf8_bytes (x :: s')) with (utf8_width x + utf8_bytes s'). lia.
      - intros Hin. apply IH in Hin; [| lia].
        destruct Hin as (pos' & s2 & rest' & G1 & G2 & G3).
        exists pos', s2, rest'. split; [exact G1 |]. split; [| exact G3].
        rewrite G2, Es, !utf8_bytes_app. lia. }
    destruct (negb _) in H.
    + destruct H as [H | H]; [| exact (Hlater H)].
      subst c0. exists pos, s, rest. repeat split; [exact Hpos | exact E].
    + exact (Hlater H).
Qed.

Lemma match_within (U : Unicode) (re : GRegex) (input : utf8) (c : captures) :
  In c (g_regex_match_all U re input) ->
  Forall (fun e => span_within 0 (utf8_bytes input) (snd e)) c.
Proof.
  intros H. apply match_info_loop_inv_pos in H; [| lia].
  destruct H as (pos & s & rest & Hpos & Hsum & H).
  apply pcre_exec_within in H. eapply Forall_impl; [| exact H].
  intros e. apply span_within_widen; lia.
Qed.

Lemma capture_get_in (c : captures) (n : nat) (span : Z * Z) :
  capture_get c n = Some span -> In (n, span) c.
Proof.
  induction c as [|[m sp] c IH]; cbn [capture_get]; [discriminate |].
  destruct (Nat.eqb_spec m n) as [E|E].
  - intros H. inversion H; subst. left. reflexivity.
  - intros H. right. exact (IH H).
Qed.

Lemma fetch_pos_within (c : captures) (lo hi : Z) (n : nat) :
  Forall (fun e => span_within lo hi (snd e)) c ->
  g_match_info_fetch_pos c n = (-1, -1) \/ span_within lo hi (g_match_info_fetch_pos c n).
Proof.
  intros F. unfold g_match_info_fetch_pos. destruct (capture_get c n) as [span|] eqn:E.
  - right. apply capture_get_in in E. rewrite Forall_forall in F. exact (F _ E).
  - left. reflexivity.
Qed.

Lemma fetch_pos_set_within (c : captures) (lo hi : Z) (n : nat) :
  Forall (fun e => span_within lo hi (snd e)) c ->
  capture_get c n <> None ->
  span_within lo hi (g_match_info_fetch_pos c n).
Proof.
  intros F Hset. unfold g_match_info_fetch_pos. destruct (capture_get c n) as [span|] eqn:E.
  - apply capture_get_in in E. rewrite Forall_forall in F. exact (F _ E).
  - congruence.
Qed.

(** X10.  A span the highlighter reports is either the pair (-1, -1) of a
    group that took no part in the match, or it lies inside the candidate:
    0 <= start <= end <= length of the candidate in bytes.  For the normal,
    glob and fuzzy methods every reported span lies inside the candidate. *)
Theorem reported_spans_inside (U : Unicode) :
  (forall re input c,
      In c (g_regex_match_all U re input) ->
      Forall (fun span => span = (-1, -1) \/ span_within 0 (utf8_bytes input) span)
             (match_spans c)) /\
  (forall m tok cc cs P re input c,
      m <> MM_REGEX ->
      create_regex (settings m tok cc) P cs = Some re ->
      In c (g_regex_match_all U re input) ->
      Forall (span_within 0 (utf8_bytes input)) (match_spans c)).
Proof.
  split.
  - intros re input c Hc. apply match_within in Hc.
    unfold match_spans. apply Forall_forall. intros span Hspan.
    apply in_map_iff in Hspan. destruct Hspan as (n & <- & _).
    apply fetch_pos_within. exact Hc.
  - intros m tok cc cs P re input c Hm Hre Hc.
    pose proof (match_within U re input c Hc) as Hin.
    assert (Hgroupless : groupless (re_code re) = true ->
              Forall (span_within 0 (utf8_bytes input)) (match_spans c)).
    { intros G. pose proof Hc as Hc'.
      apply match_info_loop_inv in Hc'. destruct Hc' as (pos & s & rest & Hex).
      apply (groupless_captures U _ _ _ _ _ _ G) in Hex. destruct Hex as (span & ->).
      cbn. constructor; [| constructor].
      inversion Hin; subst. assumption. }
    destruct m.
    + rewrite create_regex_normal in Hre. inversion Hre; subst.
      apply Hgroupless. apply groupless_literal.
    + congruence.
    + rewrite create_regex_glob in Hre. inversion Hre; subst.
      apply Hgroupless. apply groupless_glob.
    + rewrite create_regex_fuzzy in Hre. inversion Hre; subst.
      pose proof Hc as Hc'.
      apply match_info_loop_inv in Hc'. destruct Hc' as (pos & s & rest & Hex).
      apply fuzzy_captures in Hex. cbn [re_code re_caseless] in *.
      assert (Hcount : g_match_info_get_match_count c = S (length P)).
      { rewrite match_count_keys, Hex. cbn [fold_right]. rewrite max_of_countdown. reflexivity. }
      unfold match_spans. rewrite Hcount. apply Forall_forall. intros span Hspan.
      apply in_map_iff in Hspan. destruct Hspan as (n & <- & Hn).
      apply fetch_pos_set_within; [exact Hin |]. apply capture_get_key. rewrite Hex.
      unfold match_indices in Hn. destruct P as [|p P].
      * cbn in Hn. destruct Hn as [<- | []]. left. reflexivity.
      * cbn [length] in *. change (1 <? S (S (length P)))%nat with true in Hn.
        replace (S (S (length P)) - 1)%nat with (S (length P)) in Hn by lia.
        right. apply in_rev. rewrite rev_involutive. exact Hn.
Qed.

Lemma reported_spans_inside_witness :
  MM_GLOB <> MM_REGEX /\
  create_regex (settings MM_GLOB true false) (cps "a?b") false =
    Some {| re_code := mk_seq (map glob_item (cps "a?b")); re_caseless := true |} /\
  In [(0%nat, (1, 4))]
     (g_regex_match_all basic_latin
        {| re_code := mk_seq (map glob_item (cps "a?b")); re_caseless := true |} (cps "xaybz")) /\
  Forall (span_within 0 (utf8_bytes (cps "xaybz"))) (match_spans [(0%nat, (1, 4))]).
Proof.
  assert (H1 : MM_GLOB <> MM_REGEX) by discriminate.
  assert (H2 : create_regex (settings MM_GLOB true false) (cps "a?b") false =
               Some {| re_code := mk_seq (map glob_item (cps "a?b")); re_caseless := true |})
    by reflexivity.
  assert (H3 : In [(0%nat, (1, 4))]
                  (g_regex_match_all basic_latin
                     {| re_code := mk_seq (map glob_item (cps "a?b")); re_caseless := true |}
                     (cps "xaybz"))) by (left; reflexivity).
  split; [exact H1 |]. split; [exact H2 |]. split; [exact H3 |].
  exact (proj2 (reported_spans_inside basic_latin) MM_GLOB true false false (cps "a?b")
           _ (cps "xaybz") _ H1 H2 H3).
Defined.

(** ** The spans of a fuzzy match *)

Lemma span_chain_weaken (spans : list (Z * Z)) (lo lo' : Z) :
  lo' <= lo -> span_chain lo spans -> span_chain lo' spans.
Proof.
  destruct spans as [|span spans]; cbn [span_chain]; [trivial |].
  intros Hle (H1 & H2 & H3). repeat split; try lia. exact H3.
Qed.

Lemma capture_get_NoDup (c : captures) (n : nat) (span : Z * Z) :
  NoDup (map fst c) -> In (n, span) c -> capture_get c n = Some span.
Proof.
  induction c as [|[m sp] c IH]; cbn [map fst capture_get In]; [contradiction |].
  intros Hnd [E | Hin].
  - inversion E; subst. rewrite Nat.eqb_refl. reflexivity.
  - inversion Hnd as [|? ? Hnot Hnd']; subst.
    destruct (Nat.eqb_spec m n) as [E|E].
    + subst. exfalso. apply Hnot. apply in_map_iff. exists (n, span). split; [reflexivity | exact Hin].
    + exact (IH Hnd' Hin).
Qed.

Lemma fetch_pos_combine (c : captures) :
  NoDup (map fst c) ->
  forall (spans : list (Z * Z)) (n : nat),
    incl (combine (seq n (length spans)) spans) c ->
    map (g_match_info_fetch_pos c) (seq n (length spans)) = spans.
Proof.
  intros Hnd. induction spans as [|span spans IH]; intros n Hincl; cbn [length seq map].
  - reflexivity.
  - cbn [length seq combine] in Hincl. f_equal.
    + unfold g_match_info_fetch_pos.
      rewrite (capture_get_NoDup c n span Hnd); [reflexivity |].
      apply Hincl. left. reflexivity.
    + apply IH. intros e He. apply Hincl. right. exact He.
Qed.

Section FuzzyChain.
Variable U : Unicode.
Variable caseless : bool.

Lemma atom_star_advance (a : atom) (k : cont) (c : captures) (m : captures * utf8) :
  forall s pos,
    atom_star U caseless a k pos s c = Some m ->
    exists pos' s', pos <= pos' /\ k pos' s' c = Some m.
Proof.
  intros s pos H. apply atom_star_progress in H. destruct H as (pre & s' & _ & H).
  pose proof (utf8_bytes_nonneg pre). exists (pos + utf8_bytes pre), s'. split; [lia | exact H].
Qed.

Lemma fuzzy_rmatch_chain (P : utf8) :
  forall first n k pos s c m,
    rmatch U caseless (mk_seq (fuzzy_items first n P)) k pos s c = Some m ->
    exists pos' s' spans,
      k pos' s' (rev (combine (seq n (length P)) spans) ++ c) = Some m /\
      length spans = length P /\ span_chain pos spans.
Proof.
  induction P as [|p P IH]; intros first n k pos s c m H.
  - exists pos, s, []. cbn. auto.
  - assert (Hgroup : forall pos0 s0,
              pos <= pos0 ->
              rmatch U caseless (mk_seq (RGroup n (mk_seq [RAtom (ALit p) QOne])
                                         :: fuzzy_items false (S n) P)) k pos0 s0 c = Some m ->
              exists pos' s' spans,
                k pos' s' (rev (combine (seq n (length (p :: P))) spans) ++ c) = Some m /\
                length spans = length (p :: P) /\ span_chain pos spans).
    { intros pos0 s0 Hle H0. cbn [mk_seq fold_right rmatch] in H0.
      unfold atom_one in H0. destruct s0 as [|x s0]; [discriminate |].
      destruct (atom_ok U caseless (ALit p) x); [| discriminate].
      apply IH in H0. destruct H0 as (pos2 & s2 & spans & H0 & Hlen & Hchain).
      exists pos2, s2, ((pos0, pos0 + utf8_width x) :: spans). split; [| split].
      - cbn [length seq combine rev]. rewrite <- app_assoc. exact H0.
      - cbn [length]. rewrite Hlen. reflexivity.
      - cbn [span_chain fst snd]. pose proof (utf8_width_pos x). pose proof (utf8_width_max x).
        repeat split; try lia. exact Hchain. }
    cbn [fuzzy_items] in H. destruct first; cbn [app] in H.
    + eapply Hgroup; [| exact H]. lia.
    + change (mk_seq (RAtom ADot QStar :: ?l)) with (RSeq (RAtom ADot QStar) (mk_seq l)) in H.
      cbn [rmatch] in H. apply atom_star_advance in H. destruct H as (pos1 & s1 & Hle & H).
      eapply Hgroup; [exact Hle | exact H].
Qed.
End FuzzyChain.

Lemma countdown_NoDup (n : nat) : NoDup (0%nat :: rev (seq 1 n)).
Proof.
  constructor.
  - intros H. apply in_rev in H. apply in_seq in H. lia.
  - apply NoDup_rev. apply seq_NoDup.
Qed.

(** X11.  For a fuzzy token built from a non-empty query, every match reports
    one span per character of the query; the spans come in the order of the
    query, each covers one UTF-8 character (1 to 4 bytes), and none starts
    before the previous one ends. *)
Theorem fuzzy_spans_one_per_character (U : Unicode) (tok cc cs : bool) (P input : utf8)
    (re : GRegex) (c : captures) :
  P <> [] ->
  create_regex (settings MM_FUZZY tok cc) P cs = Some re ->
  In c (g_regex_match_all U re input) ->
  length (match_spans c) = length P /\ span_chain 0 (match_spans c).
Proof.
  intros HP Hre Hc. rewrite create_regex_fuzzy in Hre. inversion Hre; subst. clear Hre.
  pose proof (match_spans_fuzzy U _ P input c HP Hc) as (_ & Hspans & _).
  apply match_info_loop_inv_pos in Hc; [| lia].
  destruct Hc as (pos & s & rest & Hpos & _ & Hex). cbn [re_code re_caseless] in Hex.
  pose proof (fuzzy_captures U _ P _ _ _ _ Hex) as Hkeys.
  apply pcre_exec_inv_pos in Hex. destruct Hex as (pos1 & s1 & Hle & _ & Hex).
  apply fuzzy_rmatch_chain in Hex. destruct Hex as (pos2 & s2 & spans & Hk & Hlen & Hchain).
  unfold accept in Hk. inversion Hk; subst c rest. clear Hk.
  rewrite app_nil_r in *.
  assert (E : match_spans ((0%nat, (pos1, pos2)) :: rev (combine (seq 1 (length P)) spans)) = spans).
  { rewrite Hspans.
    pose proof (countdown_NoDup (length P)) as Hnd. rewrite <- Hkeys in Hnd.
    pose proof (fetch_pos_combine _ Hnd spans 1) as Hf. rewrite Hlen in Hf.
    apply Hf. intros e He. right. apply in_rev. rewrite rev_involutive. exact He. }
  rewrite E. split; [exact Hlen |].
  apply (span_chain_weaken spans pos1); [lia | exact Hchain].
Qed.

Lemma fuzzy_spans_one_per_character_witness :
  cps "ac" <> [] /\
  In [(0%nat, (0, 3)); (2%nat, (2, 3)); (1%nat, (0, 1))]
     (g_regex_match_all basic_latin
        {| re_code := mk_seq (fuzzy_items true 1 (cps "ac")); re_caseless := true |}
        (cps "abc")) /\
  length (match_spans [(0%nat, (0, 3)); (2%nat, (2, 3)); (1%nat, (0, 1))]) = 2%nat /\
  span_chain 0 (match_spans [(0%nat, (0, 3)); (2%nat, (2, 3)); (1%nat, (0, 1))]).
Proof.
  assert (H1 : cps "ac" <> []) by discriminate.
  assert (H3 : In [(0%nat, (0, 3)); (2%nat, (2, 3)); (1%nat, (0, 1))]
                  (g_regex_match_all basic_latin
                     {| re_code := mk_seq (fuzzy_items true 1 (cps "ac")); re_caseless := true |}
                     (cps "abc"))) by (left; reflexivity).
  split; [exact H1 |]. split; [exact H3 |].
  exact (fuzzy_spans_one_per_character basic_latin true false false (cps "ac") (cps "abc")
           _ _ H1 eq_refl H3).
Defined.

(** ** Filtering and highlighting agree *)

(** X12.  The filter and the highlighter agree on whether a token matches:
    [g_regex_match] holds exactly when the highlighter's loop over the
    matches delivers at least one, and the first match it delivers is the
    one the filter found. *)
Theorem first_match_is_filter_match (U : Unicode) (re : GRegex) (input : utf8) :
  hd_error (g_regex_match_all U re input) =
    option_map fst (pcre_exec U (re_caseless re) (re_code re) 0 input) /\
  (g_regex_match U re input = true <-> g_regex_match_all U re input <> []).
Proof.
  unfold g_regex_match, g_regex_match_all. cbn [match_info_loop].
  destruct (pcre_exec U (re_caseless re) (re_code re) 0 input) as [[c rest]|] eqn:E.
  - pose proof (pcre_exec_progress U _ _ _ _ _ _ E) as (skipped & found & _ & Espan).
    pose proof (utf8_bytes_nonneg skipped).
    rewrite Espan. cbn [fst snd].
    replace (0 + utf8_bytes skipped =? -1) with false by (symmetry; apply Z.eqb_neq; lia).
    cbn [andb negb hd_error option_map fst]. split; [reflexivity |].
    split; [discriminate | reflexivity].
  - cbn. split; [reflexivity |]. split; [discriminate | congruence].
Qed.

(* ================================================================= *)
(** * Further properties of the edit distance *)

Section LevenshteinMetric.
Variable same : gunichar -> gunichar -> bool.

Lemma lev_rec_lower (a : utf8) :
  forall b, Z.abs (Z.of_nat (length a) - Z.of_nat (length b)) <= lev_rec same a b.
Proof.
  induction a as [|x a IHa]; intros b.
  - cbn [lev_rec length]. lia.
  - induction b as [|y b IHb].
    + rewrite lev_rec_nil_r. cbn [length]. lia.
    + rewrite lev_rec_cons.
      pose proof (IHa (y :: b)) as H1. pose proof (IHa b) as H2.
      cbn [length] in *. destruct (same x y); lia.
Qed.

Lemma lev_rec_zero (a : utf8) :
  forall b, lev_rec same a b = 0 <-> Forall2 (fun x y => same x y = true) a b.
Proof.
  induction a as [|x a IHa]; intros b.
  - cbn [lev_rec]. split.
    + intros H. destruct b; [constructor | cbn [length] in H; lia].
    + intros H. inversion H. reflexivity.
  - destruct b as [|y b].
    + rewrite lev_rec_nil_r. cbn [length]. split; [lia | intros H; inversion H].
    + rewrite lev_rec_cons.
      pose proof (lev_rec_bounds same a (y :: b)) as B1.
      pose proof (lev_rec_bounds same (x :: a) b) as B2.
      pose proof (lev_rec_bounds same a b) as B3.
      split.
      * intros H. destruct (same x y) eqn:E; [| lia].
        constructor; [exact E |]. apply IHa. lia.
      * intros H. inversion H as [|? ? ? ? E H']; subst. apply IHa in H'. rewrite E. lia.
Qed.

Hypothesis same_trans : forall x y z, same x y = true -> same y z = true -> same x z = true.

Lemma lev_rec_triangle (a : utf8) :
  forall b c, lev_rec same a c <= lev_rec same a b + lev_rec same b c.
Proof.
  induction a as [|x a IHa].
  - intros b c. pose proof (lev_rec_lower b c). cbn [lev_rec]. lia.
  - induction b as [|y b IHb].
    + intros c. rewrite lev_rec_nil_r. pose proof (lev_rec_bounds same (x :: a) c) as B.
      change (lev_rec same [] c) with (Z.of_nat (length c)). cbn [length] in *. lia.
    + induction c as [|z c IHc].
      * rewrite !lev_rec_nil_r. pose proof (lev_rec_lower (x :: a) (y :: b)).
        cbn [length] in *. lia.
      * pose proof (IHa (y :: b) (z :: c)) as T1.
        pose proof (IHa b (z :: c)) as T2.
        pose proof (IHa b c) as T3.
        pose proof (IHb (z :: c)) as T4.
        pose proof (IHb c) as T5.
        assert (Hsame : (if same x z then 0 else 1) <=
                        (if same x y then 0 else 1) + (if same y z then 0 else 1)).
        { destruct (same x y) eqn:E1, (same y z) eqn:E2;
            try rewrite (same_trans _ _ _ E1 E2); destruct (same x z); lia. }
        rewrite (lev_rec_cons same x a z c), (lev_rec_cons same x a y b),
                (lev_rec_cons same y b z c) in *.
        assert (Hxz : 0 <= (if same x z then 0 else 1) <= 1) by (destruct (same x z); lia).
        assert (Hxy : 0 <= (if same x y then 0 else 1) <= 1) by (destruct (same x y); lia).
        assert (Hyz : 0 <= (if same y z then 0 else 1) <= 1) by (destruct (same y z); lia).
        revert IHc T1 T2 T3 T4 T5 Hsame Hxz Hxy Hyz.
        generalize (if same x z then 0 else 1) (if same x y then 0 else 1)
                   (if same y z then 0 else 1).
        generalize (lev_rec same a (z :: c)) (lev_rec same (x :: a) c) (lev_rec same a c)
                   (lev_rec same a (y :: b)) (lev_rec same (x :: a) b) (lev_rec same a b)
                   (lev_rec same b (z :: c)) (lev_rec same (y :: b) c) (lev_rec same b c).
        intros. lia.
Qed.
End LevenshteinMetric.

Lemma same_folded (f : gunichar -> gunichar) (a : utf8) :
  forall b, Forall2 (fun x y => (f x =? f y) = true) a b <-> map f a = map f b.
Proof.
  induction a as [|x a IH]; intros b.
  - split.
    + intros H. inversion H. reflexivity.
    + intros H. destruct b; [constructor | discriminate].
  - destruct b as [|y b].
    + split; [intros H; inversion H | discriminate].
    + cbn [map]. split.
      * intros H. inversion H as [|? ? ? ? E H']; subst.
        apply Z.eqb_eq in E. apply IH in H'. congruence.
      * intros H. inversion H as [[E H']]. constructor.
        -- apply Z.eqb_eq. exact E.
        -- apply IH. exact H'.
Qed.

(** X13.  For strings whose lengths fit an [unsigned int], the edit distance
    is at least the difference of the two lengths and at most the longer
    length (lengths in code points). *)
Theorem editDistance_bounds (U : Unicode) (config : Settings) (a b : utf8) :
  g_utf8_strlen a < UINT_MAX -> g_utf8_strlen b < UINT_MAX ->
  Z.abs (g_utf8_strlen a - g_utf8_strlen b) <= editDistance U config a b <=
    Z.max (g_utf8_strlen a) (g_utf8_strlen b).
Proof.
  intros Ha Hb. rewrite editDistance_recurrence by assumption.
  unfold levenshtein_distance, g_utf8_strlen. split.
  - apply lev_rec_lower.
  - apply lev_rec_bounds.
Qed.

Lemma editDistance_bounds_witness :
  g_utf8_strlen (cps "rofi") < UINT_MAX /\ g_utf8_strlen (cps "window") < UINT_MAX /\
  Z.abs (g_utf8_strlen (cps "rofi") - g_utf8_strlen (cps "window")) <=
    editDistance basic_latin (settings MM_NORMAL true false) (cps "rofi") (cps "window") <=
    Z.max (g_utf8_strlen (cps "rofi")) (g_utf8_strlen (cps "window")).
Proof.
  assert (Ha : g_utf8_strlen (cps "rofi") < UINT_MAX) by reflexivity.
  assert (Hb : g_utf8_strlen (cps "window") < UINT_MAX) by reflexivity.
  split; [exact Ha |]. split; [exact Hb |].
  exact (editDistance_bounds basic_latin (settings MM_NORMAL true false) _ _ Ha Hb).
Defined.

(** X14.  For strings whose lengths fit an [unsigned int], the edit distance
    is 0 exactly when the two strings are the same code point for code
    point, after [g_unichar_tolower] unless the configuration is case
    sensitive. *)
Theorem editDistance_zero_iff (U : Unicode) (config : Settings) (a b : utf8) :
  g_utf8_strlen a < UINT_MAX -> g_utf8_strlen b < UINT_MAX ->
  (editDistance U config a b = 0 <-> map (lev_fold U config) a = map (lev_fold U config) b).
Proof.
  intros Ha Hb. rewrite editDistance_recurrence by assumption.
  unfold levenshtein_distance. rewrite lev_rec_zero. apply same_folded.
Qed.

Lemma editDistance_zero_iff_witness :
  g_utf8_strlen (cps "Rofi") < UINT_MAX /\ g_utf8_strlen (cps "rOFI") < UINT_MAX /\
  editDistance basic_latin (settings MM_NORMAL true false) (cps "Rofi") (cps "rOFI") = 0.
Proof.
  assert (Ha : g_utf8_strlen (cps "Rofi") < UINT_MAX) by reflexivity.
  assert (Hb : g_utf8_strlen (cps "rOFI") < UINT_MAX) by reflexivity.
  split; [exact Ha |]. split; [exact Hb |].
  apply (proj2 (editDistance_zero_iff basic_latin (settings MM_NORMAL true false) _ _ Ha Hb)).
  reflexivity.
Defined.

(** X15.  For strings whose lengths fit an [unsigned int], the edit distance
    obeys the triangle inequality: going from [a] to [c] costs no more than
    going by way of [b]. *)
Theorem editDistance_triangle (U : Unicode) (config : Settings) (a b c : utf8) :
  g_utf8_strlen a < UINT_MAX -> g_utf8_strlen b < UINT_MAX -> g_utf8_strlen c < UINT_MAX ->
  editDistance U config a c <= editDistance U config a b + editDistance U config b c.
Proof.
  intros Ha Hb Hc. rewrite !editDistance_recurrence by assumption.
  unfold levenshtein_distance. apply lev_rec_triangle.
  intros x y z E1 E2. apply Z.eqb_eq in E1. apply Z.eqb_eq in E2. apply Z.eqb_eq. congruence.
Qed.

Lemma editDistance_triangle_witness :
  g_utf8_strlen (cps "kitten") < UINT_MAX /\ g_utf8_strlen (cps "sitten") < UINT_MAX /\
  g_utf8_strlen (cps "sitting") < UINT_MAX /\
  editDistance basic_latin (settings MM_NORMAL true true) (cps "kitten") (cps "sitting") <=
    editDistance basic_latin (settings MM_NORMAL true true) (cps "kitten") (cps "sitten") +
    editDistance basic_latin (settings MM_NORMAL true true) (cps "sitten") (cps "sitting").
Proof.
  assert (Ha : g_utf8_strlen (cps "kitten") < UINT_MAX) by reflexivity.
  assert (Hb : g_utf8_strlen (cps "sitten") < UINT_MAX) by reflexivity.
  assert (Hc : g_utf8_strlen (cps "sitting") < UINT_MAX) by reflexivity.
  split; [exact Ha |]. split; [exact Hb |]. split; [exact Hc |].
  exact (editDistance_triangle basic_latin (settings MM_NORMAL true true) _ _ _ Ha Hb Hc).
Defined.

(* ================================================================= *)
(** * Further properties of the fuzzy scorer *)

(** ** The range of the score *)

Lemma int_wrap_small (z : Z) : -2147483648 <= z <= 2147483647 -> int_wrap z = z.
Proof.
  intros H. unfold int_wrap. rewrite Z.mod_small; lia.
Qed.

Lemma MIN_SCORE_value : MIN_SCORE = -1073741824.
Proof. reflexivity. Qed.

Lemma MAX_is_max (a b : Z) : MAX a b = Z.max a b.
Proof.
  unfold MAX. destruct (Z.gtb_spec a b); lia.
Qed.

Lemma score_for_range (prev curr : CharClass) :
  0 <= rofi_scorer_get_score_for prev curr <= 50.
Proof.
  destruct prev, curr; vm_compute; split; discriminate.
Qed.

Lemma score_loop_range (U : Unicode) (str : utf8) :
  forall prev, Forall (fun v => 0 <= v <= 50) (score_loop U prev str).
Proof.
  induction str as [|sc str IH]; intros prev; cbn [score_loop]; constructor.
  - apply score_for_range.
  - apply IH.
Qed.

Section ScorerRange.
Variable U : Unicode.
Variable config : Settings.

Lemma scorer_row_range (pc : gunichar) (pfirst pstart : bool) (B : Z) (str : utf8) :
  0 <= B -> B + 100 <= 2147483647 ->
  forall si score dp lefts uleft ulefts,
    0 <= si -> si + Z.of_nat (length str) <= 256 ->
    Forall (fun v => 0 <= v <= 50) score ->
    Forall (fun v => MIN_SCORE <= v <= B) dp ->
    MIN_SCORE <= lefts <= B -> MIN_SCORE <= uleft <= B -> MIN_SCORE <= ulefts <= B ->
    Forall (fun v => MIN_SCORE <= v <= B + 100)
           (fst (scorer_row U config pc pfirst pstart si str score dp lefts uleft ulefts)) /\
    MIN_SCORE <= fst (snd (scorer_row U config pc pfirst pstart si str score dp lefts uleft ulefts))
      <= B /\
    MIN_SCORE <= snd (snd (scorer_row U config pc pfirst pstart si str score dp lefts uleft ulefts))
      <= B.
Proof.
  intros HB0 HB. induction str as [|sc str IH];
    intros si score dp lefts uleft ulefts Hsi Hlen Hscore Hdp Hl Hu Hus.
  - cbn. auto.
  - destruct score as [|score_si score]; [cbn; auto |].
    destruct dp as [|dp_si dp]; [cbn; auto |].
    inversion Hscore as [|? ? Hs0 Hscore']; subst.
    inversion Hdp as [|? ? Hd0 Hdp']; subst.
    cbn [scorer_row]. cbn [length] in Hlen.
    unfold MIN_SCORE, INT_MIN, CONSECUTIVE_SCORE, GAP_SCORE, LEADING_GAP_SCORE, WORD_START_SCORE,
      PATTERN_START_MULTIPLIER, PATTERN_NON_START_MULTIPLIER in *.
    change (Z.quot (-2147483648) 2) with (-1073741824) in *.
    rewrite (int_wrap_small (lefts + -5)) by lia.
    rewrite MAX_is_max.
    assert (Hl' : -1073741824 <= Z.max (lefts + -5) dp_si <= B) by lia.
    specialize (IH (si + 1) score dp (Z.max (lefts + -5) dp_si) dp_si
                   (Z.max (lefts + -5) dp_si)).
    destruct (scorer_row U config pc pfirst pstart (si + 1) str score dp
                (Z.max (lefts + -5) dp_si) dp_si (Z.max (lefts + -5) dp_si))
      as [dp_rest final] eqn:E.
    cbn [fst snd] in *.
    destruct IH as (IH1 & IH2 & IH3); try assumption; try lia.
    split; [| split; assumption].
    constructor; [| exact IH1].
    destruct (scorer_char_eq U config pc sc); [| lia].
    assert (Ht : 0 <= score_si * (if pstart then 2 else 1) <= 100) by (destruct pstart; lia).
    rewrite (int_wrap_small (score_si * _)) by lia.
    destruct pfirst.
    + rewrite int_wrap_small by lia. lia.
    + rewrite !int_wrap_small by lia. rewrite MAX_is_max. lia.
Qed.

Lemma scorer_rows_range (str : utf8) (score : list Z) (pattern : utf8) :
  Z.of_nat (length str) <= 256 ->
  Forall (fun v => 0 <= v <= 50) score ->
  forall pfirst pstart B dp uleft ulefts,
    0 <= B -> B + 100 * Z.of_nat (length pattern) <= 2147483647 ->
    Forall (fun v => MIN_SCORE <= v <= B) dp ->
    MIN_SCORE <= uleft <= B -> MIN_SCORE <= ulefts <= B ->
    Forall (fun v => MIN_SCORE <= v <= B + 100 * Z.of_nat (length pattern))
           (scorer_rows U config pattern pfirst pstart str score dp uleft ulefts).
Proof.
  intros Hlen Hscore. induction pattern as [|pc pattern IH];
    intros pfirst pstart B dp uleft ulefts HB0 HB Hdp Hu Hus.
  - cbn [scorer_rows length]. eapply Forall_impl; [| exact Hdp]. cbv beta. intros v Hv. lia.
  - cbn [scorer_rows]. cbn [length] in HB |- *.
    destruct (g_unichar_isspace U pc).
    + eapply Forall_impl; [| apply (IH pfirst true B dp uleft ulefts); try assumption; lia].
      cbv beta. intros v Hv. lia.
    + assert (Hmin : MIN_SCORE <= MIN_SCORE <= B) by (rewrite MIN_SCORE_value; lia).
      pose proof (scorer_row_range pc pfirst pstart B str HB0 ltac:(lia) 0 score dp MIN_SCORE
                    uleft ulefts ltac:(lia) ltac:(lia) Hscore Hdp Hmin Hu Hus) as (R1 & R2 & R3).
      destruct (scorer_row U config pc pfirst pstart 0 str score dp MIN_SCORE uleft ulefts)
        as [dp' [uleft' ulefts']].
      cbn [fst snd] in *.
      eapply Forall_impl;
        [| apply (IH false false (B + 100) dp' uleft' ulefts'); try assumption; lia].
      cbv beta. intros v Hv. lia.
Qed.
End ScorerRange.

Lemma scorer_final_range (B : Z) (dp : list Z) :
  0 <= B <= 2147483647 ->
  Forall (fun v => MIN_SCORE <= v <= B) dp ->
  MIN_SCORE <= scorer_final dp <= B.
Proof.
  intros HB. unfold scorer_final.
  assert (H : forall lefts, MIN_SCORE <= lefts <= B ->
                Forall (fun v => MIN_SCORE <= v <= B) dp ->
                MIN_SCORE <= fold_left (fun lefts dp_si => MAX (int_wrap (lefts + GAP_SCORE)) dp_si)
                                       dp lefts <= B).
  { induction dp as [|v dp IH]; intros lefts Hl Hdp; cbn [fold_left].
    - exact Hl.
    - inversion Hdp as [|? ? Hv Hdp']; subst. apply IH; [| exact Hdp'].
      unfold MIN_SCORE, INT_MIN, GAP_SCORE in *.
      change (Z.quot (-2147483648) 2) with (-1073741824) in *.
      rewrite int_wrap_small by lia. rewrite MAX_is_max. lia. }
  apply H. rewrite MIN_SCORE_value. lia.
Qed.


Section ScorerExact.
Variable U : Unicode.
Variable config : Settings.

Lemma scorer_row_exact (pc : gunichar) (pfirst pstart : bool) (B : Z) (str : utf8) :
  0 <= B -> B + 100 <= 2147483647 ->
  forall si score dp lefts uleft ulefts,
    0 <= si -> si + Z.of_nat (length str) <= 256 ->
    Forall (fun v => 0 <= v <= 50) score ->
    Forall (fun v => MIN_SCORE <= v <= B) dp ->
    MIN_SCORE <= lefts <= B -> MIN_SCORE <= uleft <= B -> MIN_SCORE <= ulefts <= B ->
    scorer_row U config pc pfirst pstart si str score dp lefts uleft ulefts =
    exact_row U config pc pfirst pstart si str score dp lefts uleft ulefts.
Proof.
  intros HB0 HB. induction str as [|sc str IH];
    intros si score dp lefts uleft ulefts Hsi Hlen Hscore Hdp Hl Hu Hus.
  - reflexivity.
  - destruct score as [|score_si score]; [reflexivity |].
    destruct dp as [|dp_si dp]; [reflexivity |].
    inversion Hscore as [|? ? Hs0 Hscore']; subst.
    inversion Hdp as [|? ? Hd0 Hdp']; subst.
    cbn [scorer_row exact_row]. cbn [length] in Hlen.
    rewrite MIN_SCORE_value in *.
    unfold CONSECUTIVE_SCORE, GAP_SCORE, LEADING_GAP_SCORE, WORD_START_SCORE,
      PATTERN_START_MULTIPLIER, PATTERN_NON_START_MULTIPLIER in *.
    rewrite (int_wrap_small (lefts + -5)) by lia.
    rewrite MAX_is_max.
    rewrite IH; try assumption; try lia.
    destruct (exact_row U config pc pfirst pstart (si + 1) str score dp
                (Z.max (lefts + -5) dp_si) dp_si (Z.max (lefts + -5) dp_si))
      as [dp_rest final].
    f_equal. f_equal.
    destruct (scorer_char_eq U config pc sc); [| reflexivity].
    assert (Ht : 0 <= score_si * (if pstart then 2 else 1) <= 100) by (destruct pstart; lia).
    rewrite (int_wrap_small (score_si * _)) by lia.
    destruct pfirst.
    + rewrite int_wrap_small by lia. reflexivity.
    + rewrite !int_wrap_small by lia. rewrite MAX_is_max. reflexivity.
Qed.

Lemma scorer_rows_exact (str : utf8) (score : list Z) (pattern : utf8) :
  Z.of_nat (length str) <= 256 ->
  Forall (fun v => 0 <= v <= 50) score ->
  forall pfirst pstart B dp uleft ulefts,
    0 <= B -> B + 100 * Z.of_nat (length pattern) <= 2147483647 ->
    Forall (fun v => MIN_SCORE <= v <= B) dp ->
    MIN_SCORE <= uleft <= B -> MIN_SCORE <= ulefts <= B ->
    scorer_rows U config pattern pfirst pstart str score dp uleft ulefts =
    exact_rows U config pattern pfirst pstart str score dp uleft ulefts.
Proof.
  intros Hlen Hscore. induction pattern as [|pc pattern IH];
    intros pfirst pstart B dp uleft ulefts HB0 HB Hdp Hu Hus.
  - reflexivity.
  - cbn [scorer_rows exact_rows]. cbn [length] in HB.
    destruct (g_unichar_isspace U pc).
    + apply (IH pfirst true B); try assumption; lia.
    + assert (Hmin : MIN_SCORE <= MIN_SCORE <= B) by (rewrite MIN_SCORE_value; lia).
      pose proof (scorer_row_range U config pc pfirst pstart B str HB0 ltac:(lia) 0 score dp
                    MIN_SCORE uleft ulefts ltac:(lia) ltac:(lia) Hscore Hdp Hmin Hu Hus)
        as (R1 & R2 & R3).
      rewrite <- (scorer_row_exact pc pfirst pstart B str HB0 ltac:(lia) 0 score dp
                    MIN_SCORE uleft ulefts ltac:(lia) ltac:(lia) Hscore Hdp Hmin Hu Hus).
      destruct (scorer_row U config pc pfirst pstart 0 str score dp MIN_SCORE uleft ulefts)
        as [dp' [uleft' ulefts']].
      cbn [fst snd] in *.
      apply (IH false false (B + 100)); try assumption; lia.
Qed.
End ScorerExact.

Lemma scorer_final_exact (B : Z) (dp : list Z) :
  0 <= B <= 2147483647 ->
  Forall (fun v => MIN_SCORE <= v <= B) dp ->
  scorer_final dp = gap_decay MIN_SCORE dp.
Proof.
  intros HB. unfold scorer_final, gap_decay.
  assert (H : forall lefts, MIN_SCORE <= lefts <= B ->
                Forall (fun v => MIN_SCORE <= v <= B) dp ->
                fold_left (fun lefts dp_si => MAX (int_wrap (lefts + GAP_SCORE)) dp_si) dp lefts =
                fold_left (fun lefts dp_si => Z.max (lefts + GAP_SCORE) dp_si) dp lefts).
  { induction dp as [|v dp IH]; intros lefts Hl Hdp; cbn [fold_left].
    - reflexivity.
    - inversion Hdp as [|? ? Hv Hdp']; subst.
      rewrite MIN_SCORE_value in *. unfold GAP_SCORE in *.
      rewrite int_wrap_small by lia. rewrite MAX_is_max.
      apply IH; [lia | exact Hdp']. }
  apply H. rewrite MIN_SCORE_value. lia.
Qed.

Lemma evaluate_exact (U : Unicode) (config : Settings)
    (pattern : utf8) (plen : Z) (str : utf8) (slen : Z) :
  0 <= plen <= 21474836 ->
  rofi_scorer_fuzzy_evaluate U config pattern plen str slen =
    exact_evaluate U config pattern plen str slen /\
  - (100 * plen) <= rofi_scorer_fuzzy_evaluate U config pattern plen str slen <= - MIN_SCORE /\
  - MIN_SCORE = 1073741824.
Proof.
  intros Hp. unfold rofi_scorer_fuzzy_evaluate, exact_evaluate.
  destruct (Z.gtb_spec slen FUZZY_SCORER_MAX_LENGTH) as [Hs|Hs].
  - rewrite MIN_SCORE_value. rewrite int_wrap_small by lia. repeat split; lia.
  - unfold FUZZY_SCORER_MAX_LENGTH in Hs. cbv zeta.
    set (s := firstn (Z.to_nat slen) str). set (p := firstn (Z.to_nat plen) pattern).
    assert (Hslen : Z.of_nat (length s) <= 256).
    { unfold s. rewrite length_firstn. lia. }
    assert (Hplen : Z.of_nat (length p) <= plen).
    { unfold p. rewrite length_firstn. lia. }
    assert (Hdp : Forall (fun v => MIN_SCORE <= v <= 0) (map (fun _ => MIN_SCORE) s)).
    { apply Forall_forall. intros v Hv. apply in_map_iff in Hv. destruct Hv as (? & <- & _).
      rewrite MIN_SCORE_value. lia. }
    assert (H0 : MIN_SCORE <= 0 <= 0) by (rewrite MIN_SCORE_value; lia).
    pose proof (scorer_rows_range U config s (score_loop U NON_WORD s) p Hslen
                  (score_loop_range U s NON_WORD) true true 0 (map (fun _ => MIN_SCORE) s) 0 0
                  ltac:(lia) ltac:(lia) Hdp H0 H0) as R.
    pose proof (scorer_rows_exact U config s (score_loop U NON_WORD s) p Hslen
                  (score_loop_range U s NON_WORD) true true 0 (map (fun _ => MIN_SCORE) s) 0 0
                  ltac:(lia) ltac:(lia) Hdp H0 H0) as E.
    pose proof (scorer_final_range (0 + 100 * Z.of_nat (length p)) _ ltac:(lia) R) as Hfinal.
    pose proof (scorer_final_exact (0 + 100 * Z.of_nat (length p)) _ ltac:(lia) R) as Efinal.
    pose proof MIN_SCORE_value as HM.
    rewrite int_wrap_small by lia.
    split; [rewrite Efinal, E; reflexivity |].
    split; [lia | reflexivity].
Qed.


(** X16.  For a pattern of at most 21474836 characters no [int] operation
    of the scorer leaves the range of a 32-bit [int]: the result is the one
    the same loops give over the integers.  It lies between
    [-100 * plen] and [-MIN_SCORE] = 1073741824, the value returned for a
    string that is too long. *)
Theorem fuzzy_score_no_overflow (U : Unicode) (config : Settings)
    (pattern : utf8) (plen : Z) (str : utf8) (slen : Z) :
  0 <= plen <= 21474836 ->
  rofi_scorer_fuzzy_evaluate U config pattern plen str slen =
    exact_evaluate U config pattern plen str slen /\
  - (100 * plen) <= rofi_scorer_fuzzy_evaluate U config pattern plen str slen <= 1073741824.
Proof.
  intros Hp. pose proof (evaluate_exact U config pattern plen str slen Hp) as (E & R & HM).
  split; [exact E |]. rewrite <- HM. exact R.
Qed.

Lemma fuzzy_score_no_overflow_witness :
  0 <= 3 <= 21474836 /\
  - (100 * 3) <= rofi_scorer_fuzzy_evaluate basic_latin (settings MM_FUZZY true false)
                   (cps "abc") 3 (cps "abcxyz") 6 <= 1073741824.
Proof.
  assert (H : 0 <= 3 <= 21474836) by lia.
  split; [exact H |].
  exact (proj2 (fuzzy_score_no_overflow basic_latin (settings MM_FUZZY true false)
                  (cps "abc") 3 (cps "abcxyz") 6 H)).
Defined.

(** ** White space in the pattern *)

Section PatternSpaces.
Variable U : Unicode.
Variable config : Settings.

Lemma scorer_rows_spaces (ws pattern : utf8) :
  Forall (fun pc => g_unichar_isspace U pc = true) ws ->
  forall pfirst pstart str score dp uleft ulefts,
    scorer_rows U config (ws ++ pattern) pfirst pstart str score dp uleft ulefts =
    scorer_rows U config pattern pfirst (match ws with [] => pstart | _ => true end)
      str score dp uleft ulefts.
Proof.
  induction 1 as [|pc ws Hpc _ IH]; intros; cbn [app scorer_rows].
  - reflexivity.
  - rewrite Hpc, IH. destruct ws; reflexivity.
Qed.

Lemma scorer_rows_tail (pattern tail tail' : utf8) :
  (forall pfirst str score dp uleft ulefts,
      scorer_rows U config tail pfirst true str score dp uleft ulefts =
      scorer_rows U config tail' pfirst true str score dp uleft ulefts) ->
  (forall pfirst str score dp uleft ulefts,
      scorer_rows U config tail pfirst false str score dp uleft ulefts =
      scorer_rows U config tail' pfirst false str score dp uleft ulefts) ->
  forall pfirst pstart str score dp uleft ulefts,
    scorer_rows U config (pattern ++ tail) pfirst pstart str score dp uleft ulefts =
    scorer_rows U config (pattern ++ tail') pfirst pstart str score dp uleft ulefts.
Proof.
  intros Ht Hf. induction pattern as [|pc pattern IH]; intros; cbn [app scorer_rows].
  - destruct pstart; [apply Ht | apply Hf].
  - destruct (g_unichar_isspace U pc); [apply IH |].
    destruct (scorer_row U config pc pfirst pstart 0 str score dp MIN_SCORE uleft ulefts)
      as [dp' [uleft' ulefts']].
    apply IH.
Qed.

Lemma fuzzyScore_rows (pattern candidate : utf8) :
  fuzzyScore U config pattern candidate =
  if g_utf8_strlen candidate >? FUZZY_SCORER_MAX_LENGTH then int_wrap (- MIN_SCORE)
  else int_wrap (- scorer_final
                     (scorer_rows U config pattern true true candidate
                        (score_loop U NON_WORD candidate)
                        (map (fun _ => MIN_SCORE) candidate) 0 0)).
Proof.
  unfold fuzzyScore, rofi_scorer_fuzzy_evaluate, g_utf8_strlen.
  rewrite !Nat2Z.id, !firstn_all. reflexivity.
Qed.
End PatternSpaces.

(** X17.  White space in the pattern only separates words: white space
    before the first or after the last character of the pattern does not
    change the score, and a run of white space inside the pattern counts
    the same whatever its length and its characters. *)
Theorem pattern_spaces_only_separate (U : Unicode) (config : Settings)
    (ws ws' before after candidate : utf8) :
  Forall (fun pc => g_unichar_isspace U pc = true) ws ->
  Forall (fun pc => g_unichar_isspace U pc = true) ws' ->
  fuzzyScore U config (ws ++ after) candidate = fuzzyScore U config after candidate /\
  fuzzyScore U config (before ++ ws) candidate = fuzzyScore U config before candidate /\
  (ws <> [] -> ws' <> [] ->
   fuzzyScore U config (before ++ ws ++ after) candidate =
   fuzzyScore U config (before ++ ws' ++ after) candidate).
Proof.
  intros Hws Hws'. rewrite !fuzzyScore_rows.
  destruct (g_utf8_strlen candidate >? FUZZY_SCORER_MAX_LENGTH); [repeat split |].
  split; [| split].
  - rewrite (scorer_rows_spaces U config ws after Hws). destruct ws; reflexivity.
  - rewrite <- (app_nil_r before) at 2.
    rewrite (scorer_rows_tail U config before ws []); [reflexivity | |];
      intros; apply scorer_rows_blank; exact Hws.
  - intros Hne Hne'.
    rewrite (scorer_rows_tail U config before (ws ++ after) (ws' ++ after)); [reflexivity | |];
      intros; rewrite (scorer_rows_spaces U config ws after Hws),
                      (scorer_rows_spaces U config ws' after Hws');
      destruct ws, ws'; congruence.
Qed.

Lemma pattern_spaces_only_separate_witness :
  Forall (fun pc => g_unichar_isspace basic_latin pc = true) (cps " ") /\
  Forall (fun pc => g_unichar_isspace basic_latin pc = true) [32; 9; 32] /\
  fuzzyScore basic_latin (settings MM_FUZZY true false) (cps "ab" ++ cps " " ++ cps "cd")
    (cps "abcd") =
  fuzzyScore basic_latin (settings MM_FUZZY true false) (cps "ab" ++ [32; 9; 32] ++ cps "cd")
    (cps "abcd").
Proof.
  assert (H1 : Forall (fun pc => g_unichar_isspace basic_latin pc = true) (cps " "))
    by (repeat constructor).
  assert (H2 : Forall (fun pc => g_unichar_isspace basic_latin pc = true) [32; 9; 32])
    by (repeat constructor).
  split; [exact H1 |]. split; [exact H2 |].
  apply (proj2 (proj2 (pattern_spaces_only_separate basic_latin (settings MM_FUZZY true false)
                         (cps " ") [32; 9; 32] (cps "ab") (cps "cd") (cps "abcd") H1 H2)));
    discriminate.
Defined.

(** ** A pattern that is found gets a proper score *)

Lemma gap_decay_app (lefts : Z) (d1 d2 : list Z) :
  gap_decay lefts (d1 ++ d2) = gap_decay (gap_decay lefts d1) d2.
Proof. unfold gap_decay. apply fold_left_app. Qed.

Lemma gap_decay_ge (d : list Z) :
  forall lefts, lefts - 5 * Z.of_nat (length d) <= gap_decay lefts d.
Proof.
  unfold gap_decay, GAP_SCORE. induction d as [|x d IH]; intros lefts; cbn [fold_left length].
  - lia.
  - specialize (IH (Z.max (lefts + -5) x)). lia.
Qed.

Lemma gap_decay_last (lefts : Z) (d : list Z) (x : Z) : x <= gap_decay lefts (d ++ [x]).
Proof.
  rewrite gap_decay_app. unfold gap_decay at 1. cbn [fold_left]. lia.
Qed.

Section ScorerEmbedding.
Variable U : Unicode.
Variable config : Settings.

Lemma exact_row_cons (pc : gunichar) (pfirst pstart : bool) (si : Z) (sc : gunichar)
    (str : utf8) (score_si : Z) (score : list Z) (dp_si : Z) (dp : list Z)
    (lefts uleft ulefts : Z) :
  fst (exact_row U config pc pfirst pstart si (sc :: str) (score_si :: score) (dp_si :: dp)
         lefts uleft ulefts) =
  (if scorer_char_eq U config pc sc then
     if pfirst
     then LEADING_GAP_SCORE * si +
          score_si * (if pstart then PATTERN_START_MULTIPLIER else PATTERN_NON_START_MULTIPLIER)
     else Z.max (uleft + CONSECUTIVE_SCORE)
                (ulefts + score_si * (if pstart then PATTERN_START_MULTIPLIER
                                      else PATTERN_NON_START_MULTIPLIER))
   else MIN_SCORE)
  :: fst (exact_row U config pc pfirst pstart (si + 1) str score dp
            (Z.max (lefts + GAP_SCORE) dp_si) dp_si (Z.max (lefts + GAP_SCORE) dp_si)).
Proof.
  cbn [exact_row].
  destruct (exact_row U config pc pfirst pstart (si + 1) str score dp
              (Z.max (lefts + GAP_SCORE) dp_si) dp_si (Z.max (lefts + GAP_SCORE) dp_si)).
  reflexivity.
Qed.

Lemma exact_row_length (pc : gunichar) (pfirst pstart : bool) (str : utf8) :
  forall si score dp lefts uleft ulefts,
    length score = length str -> length dp = length str ->
    length (fst (exact_row U config pc pfirst pstart si str score dp lefts uleft ulefts)) =
    length str.
Proof.
  induction str as [|sc str IH]; intros si score dp lefts uleft ulefts Hs Hd.
  - reflexivity.
  - destruct score as [|score_si score]; [discriminate |].
    destruct dp as [|dp_si dp]; [discriminate |].
    rewrite exact_row_cons. cbn [length] in *. f_equal. apply IH; lia.
Qed.

(** After a part of the row that is not empty, the row goes on from the
    best value of that part. *)
Lemma exact_row_app (pc : gunichar) (pfirst pstart : bool) (s2 : utf8) (sc2 d2 : list Z)
    (s1 : utf8) :
  forall si sc1 d1 lefts uleft ulefts,
    s1 <> [] -> length sc1 = length s1 -> length d1 = length s1 ->
    exists r1 uleft',
      length r1 = length s1 /\
      fst (exact_row U config pc pfirst pstart si (s1 ++ s2) (sc1 ++ sc2) (d1 ++ d2)
             lefts uleft ulefts) =
      r1 ++ fst (exact_row U config pc pfirst pstart (si + Z.of_nat (length s1)) s2 sc2 d2
                   (gap_decay lefts d1) uleft' (gap_decay lefts d1)).
Proof.
  induction s1 as [|c s1 IH]; intros si sc1 d1 lefts uleft ulefts Hne Hs Hd; [congruence |].
  destruct sc1 as [|v sc1]; [discriminate |]. destruct d1 as [|d0 d1]; [discriminate |].
  cbn [app]. rewrite exact_row_cons. cbn [length] in *.
  destruct s1 as [|c' s1].
  - destruct sc1; [| discriminate]. destruct d1; [| discriminate].
    eexists [_], d0. split; [reflexivity |]. cbn [app length gap_decay fold_left].
    replace (si + Z.of_nat 1) with (si + 1) by lia. reflexivity.
  - destruct (IH (si + 1) sc1 d1 (Z.max (lefts + GAP_SCORE) d0) d0 (Z.max (lefts + GAP_SCORE) d0))
      as (r1 & uleft' & Hr1 & E); [discriminate | lia | lia |].
    eexists (_ :: r1), uleft'. split; [cbn [length]; rewrite Hr1; reflexivity |].
    rewrite E. cbn [app]. f_equal. f_equal.
    replace (si + 1 + Z.of_nat (length (c' :: s1))) with (si + Z.of_nat (S (length (c' :: s1))))
      by lia.
    reflexivity.
Qed.

(** A row that is not the first, from a point where [ulefts] is the running
    best value: the cell of the character the pattern character is found at
    is at least that value less the gap penalty of the characters passed. *)
Lemma exact_row_hit (Q s : utf8) :
  embeds U config Q s ->
  forall pc P, Q = pc :: P ->
  forall pstart si score dp lefts uleft,
    length score = length s -> length dp = length s ->
    Forall (fun v => 0 <= v) score ->
    exists a c b a' x b',
      s = a ++ c :: b /\
      fst (exact_row U config pc false pstart si s score dp lefts uleft lefts) = a' ++ x :: b' /\
      length a' = length a /\ length b' = length b /\
      lefts - 5 * Z.of_nat (length a) <= x /\ embeds U config P b.
Proof.
  induction 1 as [C|p P0 c C Heq Hemb _|P0 c C Hemb IH];
    intros pc P EQ pstart si score dp lefts uleft Hs Hd Hscore.
  - discriminate.
  - inversion EQ; subst. clear EQ.
    destruct score as [|v score]; [discriminate |]. destruct dp as [|d0 dp]; [discriminate |].
    inversion Hscore as [|? ? Hv Hscore']; subst.
    rewrite exact_row_cons, Heq. cbn [length] in *.
    exists [], c, C, []. eexists. eexists. split; [reflexivity |].
    split; [reflexivity |]. split; [reflexivity |]. split.
    + apply exact_row_length; lia.
    + split; [| exact Hemb]. cbn [length].
      unfold PATTERN_START_MULTIPLIER, PATTERN_NON_START_MULTIPLIER. destruct pstart; lia.
  - destruct score as [|v score]; [discriminate |]. destruct dp as [|d0 dp]; [discriminate |].
    inversion Hscore as [|? ? Hv Hscore']; subst.
    rewrite exact_row_cons. cbn [length] in *.
    destruct (IH pc P eq_refl pstart (si + 1) score dp (Z.max (lefts + GAP_SCORE) d0) d0)
      as (a & c1 & b & a' & x & b' & Es & Er & Ha & Hb & Hx & Hemb'); [lia | lia | exact Hscore' |].
    exists (c :: a), c1, b. eexists (_ :: a'), x, b'.
    split; [rewrite Es; reflexivity |]. split; [rewrite Er; reflexivity |].
    split; [cbn [length]; rewrite Ha; reflexivity |]. split; [exact Hb |].
    split; [| exact Hemb']. unfold GAP_SCORE in Hx. cbn [length]. lia.
Qed.

(** The first row: the cell is at least the leading gap penalty. *)
Lemma exact_row_first_hit (Q s : utf8) :
  embeds U config Q s ->
  forall pc P, Q = pc :: P ->
  forall pstart si score dp lefts uleft ulefts,
    length score = length s -> length dp = length s ->
    Forall (fun v => 0 <= v) score ->
    exists a c b a' x b',
      s = a ++ c :: b /\
      fst (exact_row U config pc true pstart si s score dp lefts uleft ulefts) = a' ++ x :: b' /\
      length a' = length a /\ length b' = length b /\
      -4 * (si + Z.of_nat (length a)) <= x /\ embeds U config P b.
Proof.
  induction 1 as [C|p P0 c C Heq Hemb _|P0 c C Hemb IH];
    intros pc P EQ pstart si score dp lefts uleft ulefts Hs Hd Hscore.
  - discriminate.
  - inversion EQ; subst. clear EQ.
    destruct score as [|v score]; [discriminate |]. destruct dp as [|d0 dp]; [discriminate |].
    inversion Hscore as [|? ? Hv Hscore']; subst.
    rewrite exact_row_cons, Heq. cbn [length] in *.
    exists [], c, C, []. eexists. eexists. split; [reflexivity |].
    split; [reflexivity |]. split; [reflexivity |]. split.
    + apply exact_row_length; lia.
    + split; [| exact Hemb]. cbn [length].
      unfold LEADING_GAP_SCORE, PATTERN_START_MULTIPLIER, PATTERN_NON_START_MULTIPLIER.
      destruct pstart; lia.
  - destruct score as [|v score]; [discriminate |]. destruct dp as [|d0 dp]; [discriminate |].
    inversion Hscore as [|? ? Hv Hscore']; subst.
    rewrite exact_row_cons. cbn [length] in *.
    destruct (IH pc P eq_refl pstart (si + 1) score dp (Z.max (lefts + GAP_SCORE) d0) d0
                (Z.max (lefts + GAP_SCORE) d0))
      as (a & c1 & b & a' & x & b' & Es & Er & Ha & Hb & Hx & Hemb'); [lia | lia | exact Hscore' |].
    exists (c :: a), c1, b. eexists (_ :: a'), x, b'.
    split; [rewrite Es; reflexivity |]. split; [rewrite Er; reflexivity |].
    split; [cbn [length]; rewrite Ha; reflexivity |]. split; [exact Hb |].
    split; [| exact Hemb']. cbn [length]. lia.
Qed.

Lemma exact_rows_embedded (pattern : utf8) :
  forall (s1 s2 : utf8) (score d1 d2 : list Z) pstart uleft ulefts,
    s1 <> [] -> length d1 = length s1 -> length d2 = length s2 ->
    length score = length (s1 ++ s2) -> Forall (fun v => 0 <= v) score ->
    embeds U config (pattern_letters U pattern) s2 ->
    -5 * Z.of_nat (length s1) <= gap_decay MIN_SCORE d1 ->
    -5 * Z.of_nat (length (s1 ++ s2)) <=
      gap_decay MIN_SCORE
        (exact_rows U config pattern false pstart (s1 ++ s2) score (d1 ++ d2) uleft ulefts).
Proof.
  induction pattern as [|pc pattern IH];
    intros s1 s2 score d1 d2 pstart uleft ulefts Hne Hd1 Hd2 Hs Hscore Hemb Hbest.
  - cbn [exact_rows]. rewrite gap_decay_app, length_app.
    pose proof (gap_decay_ge d2 (gap_decay MIN_SCORE d1)). lia.
  - cbn [exact_rows]. unfold pattern_letters in Hemb. cbn [filter] in Hemb.
    destruct (g_unichar_isspace U pc); cbn [negb] in Hemb.
    + apply IH; assumption.
    + rewrite <- (firstn_skipn (length s1) score).
      assert (Hsc1 : length (firstn (length s1) score) = length s1).
      { rewrite length_firstn, Hs, length_app. lia. }
      assert (Hsc2 : length (skipn (length s1) score) = length s2).
      { rewrite length_skipn, Hs, length_app. lia. }
      assert (Hpos : Forall (fun v => 0 <= v) (skipn (length s1) score)).
      { apply Forall_forall. intros v Hv. rewrite Forall_forall in Hscore. apply Hscore.
        rewrite <- (firstn_skipn (length s1) score). apply in_or_app. right. exact Hv. }
      destruct (exact_row_app pc false pstart s2 (skipn (length s1) score) d2 s1 0
                  (firstn (length s1) score) d1 MIN_SCORE uleft ulefts Hne Hsc1 Hd1)
        as (r1 & uleft1 & Hr1 & Er).
      destruct (exact_row_hit _ _ Hemb pc _ eq_refl pstart (0 + Z.of_nat (length s1))
                  (skipn (length s1) score) d2 (gap_decay MIN_SCORE d1) uleft1 Hsc2 Hd2 Hpos)
        as (a & c & b & a' & x & b' & Es & Eh & Ha & Hb & Hx & Hemb').
      rewrite Eh in Er.
      destruct (exact_row U config pc false pstart 0 (s1 ++ s2)
                  (firstn (length s1) score ++ skipn (length s1) score) (d1 ++ d2)
                  MIN_SCORE uleft ulefts) as [dp' [uleft' ulefts']].
      cbn [fst] in Er. subst dp' s2.
      rewrite (firstn_skipn (length s1) score).
      replace (s1 ++ a ++ c :: b) with ((s1 ++ a ++ [c]) ++ b)
        by (rewrite <- !app_assoc; reflexivity).
      replace (r1 ++ a' ++ x :: b') with ((r1 ++ a' ++ [x]) ++ b')
        by (rewrite <- !app_assoc; reflexivity).
      apply IH.
      * destruct s1; [congruence | discriminate].
      * rewrite !length_app. cbn [length]. lia.
      * exact Hb.
      * rewrite Hs. rewrite <- !app_assoc. reflexivity.
      * exact Hscore.
      * exact Hemb'.
      * pose proof (gap_decay_last MIN_SCORE (r1 ++ a') x) as Hlast.
        rewrite <- app_assoc in Hlast. rewrite !length_app. cbn [length]. lia.
Qed.

Lemma exact_rows_first_embedded (pattern : utf8) :
  forall (s : utf8) (score dp : list Z) pstart uleft ulefts,
    length score = length s -> length dp = length s -> Forall (fun v => 0 <= v) score ->
    pattern_letters U pattern <> [] ->
    embeds U config (pattern_letters U pattern) s ->
    -5 * Z.of_nat (length s) <=
      gap_decay MIN_SCORE (exact_rows U config pattern true pstart s score dp uleft ulefts).
Proof.
  induction pattern as [|pc pattern IH];
    intros s score dp pstart uleft ulefts Hs Hd Hscore Hne Hemb.
  - cbn in Hne. congruence.
  - cbn [exact_rows]. unfold pattern_letters in Hemb, Hne. cbn [filter] in Hemb, Hne.
    destruct (g_unichar_isspace U pc); cbn [negb] in Hemb, Hne.
    + apply IH; assumption.
    + destruct (exact_row_first_hit _ _ Hemb pc _ eq_refl pstart 0 score dp MIN_SCORE
                  uleft ulefts Hs Hd Hscore)
        as (a & c & b & a' & x & b' & Es & Eh & Ha & Hb & Hx & Hemb').
      destruct (exact_row U config pc true pstart 0 s score dp MIN_SCORE uleft ulefts)
        as [dp' [uleft' ulefts']].
      cbn [fst] in Eh. subst dp' s.
      replace (a ++ c :: b) with ((a ++ [c]) ++ b) by (rewrite <- app_assoc; reflexivity).
      replace (a' ++ x :: b') with ((a' ++ [x]) ++ b') by (rewrite <- app_assoc; reflexivity).
      apply exact_rows_embedded.
      * destruct a; discriminate.
      * rewrite !length_app. cbn [length]. lia.
      * exact Hb.
      * rewrite Hs. rewrite <- app_assoc. reflexivity.
      * exact Hscore.
      * exact Hemb'.
      * pose proof (gap_decay_last MIN_SCORE a' x). rewrite length_app. cbn [length]. lia.
Qed.
End ScorerEmbedding.

(** X18.  When the characters of the pattern that are not white space are
    found in the candidate in order (compared as the scorer compares them),
    the candidate gets a proper score: at most 5 for each of its characters,
    so at most 1280, far from the 1073741824 of a candidate that is too
    long. *)
Theorem found_pattern_scores (U : Unicode) (config : Settings) (pattern candidate : utf8) :
  g_utf8_strlen pattern <= 21474836 ->
  g_utf8_strlen candidate <= FUZZY_SCORER_MAX_LENGTH ->
  pattern_letters U pattern <> [] ->
  embeds U config (pattern_letters U pattern) candidate ->
  fuzzyScore U config pattern candidate <= 5 * g_utf8_strlen candidate /\
  fuzzyScore U config pattern candidate <= 1280.
Proof.
  intros Hp Hc Hne Hemb. unfold fuzzyScore.
  assert (Hp' : 0 <= g_utf8_strlen pattern <= 21474836) by (unfold g_utf8_strlen in *; lia).
  rewrite (proj1 (evaluate_exact U config pattern _ candidate (g_utf8_strlen candidate) Hp')).
  unfold exact_evaluate.
  destruct (Z.gtb_spec (g_utf8_strlen candidate) FUZZY_SCORER_MAX_LENGTH) as [H|_]; [lia |].
  unfold g_utf8_strlen, FUZZY_SCORER_MAX_LENGTH in *. rewrite !Nat2Z.id, !firstn_all.
  pose proof (exact_rows_first_embedded U config pattern candidate
                (score_loop U NON_WORD candidate) (map (fun _ => MIN_SCORE) candidate)
                true 0 0) as H.
  assert (Hlen : length (score_loop U NON_WORD candidate) = length candidate).
  { rewrite score_loop_positions, length_map, length_seq. reflexivity. }
  assert (Hpos : Forall (fun v => 0 <= v) (score_loop U NON_WORD candidate)).
  { eapply Forall_impl; [| apply score_loop_range]. cbv beta. intros v Hv. lia. }
  specialize (H Hlen (length_map _ _) Hpos Hne Hemb). lia.
Qed.

Lemma found_pattern_scores_witness :
  g_utf8_strlen (cps "a c") <= 21474836 /\
  g_utf8_strlen (cps "abc") <= FUZZY_SCORER_MAX_LENGTH /\
  pattern_letters basic_latin (cps "a c") <> [] /\
  embeds basic_latin (settings MM_FUZZY true false) (pattern_letters basic_latin (cps "a c"))
    (cps "abc") /\
  fuzzyScore basic_latin (settings MM_FUZZY true false) (cps "a c") (cps "abc") <= 1280.
Proof.
  assert (H1 : g_utf8_strlen (cps "a c") <= 21474836) by (vm_compute; discriminate).
  assert (H2 : g_utf8_strlen (cps "abc") <= FUZZY_SCORER_MAX_LENGTH) by (vm_compute; discriminate).
  assert (H3 : pattern_letters basic_latin (cps "a c") <> []) by discriminate.
  assert (H4 : embeds basic_latin (settings MM_FUZZY true false)
                 (pattern_letters basic_latin (cps "a c")) (cps "abc")).
  { apply embeds_take; [reflexivity |]. apply embeds_skip.
    apply embeds_take; [reflexivity |]. apply embeds_nil. }
  split; [exact H1 |]. split; [exact H2 |]. split; [exact H3 |]. split; [exact H4 |].
  exact (proj2 (found_pattern_scores basic_latin (settings MM_FUZZY true false)
                  (cps "a c") (cps "abc") H1 H2 H3 H4)).
Defined.

(* ================================================================= *)
(** * Properties of the command line helpers *)

(** ** [find_arg] *)

Section ArgumentFacts.
Variable key : cstring.

Lemma find_arg_loop_skip (pre rest : list cstring) :
  Forall (arg_differs key) pre ->
  forall i, find_arg_loop i (pre ++ rest) key = find_arg_loop (i + Z.of_nat (length pre)) rest key.
Proof.
  induction 1 as [|a pre Ha _ IH]; intros i; cbn [app find_arg_loop length].
  - f_equal. lia.
  - destruct (Z.eqb_spec (strcasecmp a key) 0) as [E|_]; [contradiction |].
    rewrite IH. f_equal. lia.
Qed.

Lemma find_arg_first (pre : list cstring) (k : cstring) (post : list cstring) :
  Forall (arg_differs key) pre -> strcasecmp k key = 0 ->
  find_arg (pre ++ k :: post) key = Z.of_nat (length pre).
Proof.
  intros Hpre Hk. unfold find_arg, stored_argc.
  rewrite (find_arg_loop_skip pre (k :: post) Hpre). cbn [find_arg_loop].
  rewrite Hk. cbn [Z.eqb]. rewrite length_app. cbn [length].
  destruct (Z.ltb_spec (0 + Z.of_nat (length pre)) (Z.of_nat (length pre + S (length post))));
    lia.
Qed.

Lemma find_arg_none (argv : list cstring) :
  Forall (arg_differs key) argv -> find_arg argv key = -1.
Proof.
  intros H. unfold find_arg, stored_argc.
  rewrite <- (app_nil_r argv) at 1.
  rewrite (find_arg_loop_skip argv [] H). cbn [find_arg_loop].
  destruct (Z.ltb_spec (0 + Z.of_nat (length argv)) (Z.of_nat (length argv))); lia.
Qed.

(** Either no argument is the key, or there is a first one. *)
Lemma first_occurrence (argv : list cstring) :
  Forall (arg_differs key) argv \/
  exists pre k post, argv = pre ++ k :: post /\ Forall (arg_differs key) pre /\ strcasecmp k key = 0.
Proof.
  induction argv as [|a argv IH].
  - left. constructor.
  - destruct (Z.eq_dec (strcasecmp a key) 0) as [E|E].
    + right. exists [], a, argv. split; [reflexivity |]. split; [constructor | exact E].
    + destruct IH as [IH | (pre & k & post & -> & Hpre & Hk)].
      * left. constructor; assumption.
      * right. exists (a :: pre), k, post. split; [reflexivity |].
        split; [constructor; assumption | exact Hk].
Qed.

Lemma first_occurrence_unique (pre pre' : list cstring) (k k' : cstring)
    (post post' : list cstring) :
  pre ++ k :: post = pre' ++ k' :: post' ->
  Forall (arg_differs key) pre -> strcasecmp k key = 0 ->
  Forall (arg_differs key) pre' -> strcasecmp k' key = 0 ->
  pre = pre' /\ k = k' /\ post = post'.
Proof.
  revert pre'. induction pre as [|a pre IH]; intros [|a' pre'] E Hpre Hk Hpre' Hk'.
  - inversion E. auto.
  - inversion E; subst. inversion Hpre'; subst. contradiction.
  - inversion E; subst. inversion Hpre; subst. contradiction.
  - inversion E; subst. inversion Hpre; subst. inversion Hpre'; subst.
    destruct (IH pre' H1 H3 Hk H5 Hk') as (-> & -> & ->). auto.
Qed.

(** The test the variants share. *)
Lemma value_test (argv : list cstring) :
  (exists pre k v post,
      argv = pre ++ k :: v :: post /\ pre <> [] /\ Forall (arg_differs key) pre /\
      strcasecmp k key = 0 /\
      (find_arg argv key >? 0) && (find_arg argv key <? stored_argc argv - 1) = true /\
      argv_at argv (find_arg argv key + 1) = v) \/
  ((find_arg argv key >? 0) && (find_arg argv key <? stored_argc argv - 1) = false /\
   forall pre k v post,
     argv = pre ++ k :: v :: post -> pre <> [] -> Forall (arg_differs key) pre ->
     strcasecmp k key = 0 -> False).
Proof.
  destruct (first_occurrence argv) as [Hnone | (pre & k & post & E & Hpre & Hk)].
  - right. rewrite (find_arg_none argv Hnone). split; [reflexivity |].
    intros pre k v post E _ _ Hk. subst argv.
    rewrite Forall_forall in Hnone. apply (Hnone k); [| exact Hk].
    apply in_or_app. right. left. reflexivity.
  - subst argv. rewrite (find_arg_first pre k post Hpre Hk). unfold stored_argc, argv_at.
    rewrite length_app. cbn [length].
    destruct pre as [|a pre].
    + right. split; [reflexivity |].
      intros pre' k' v' post' E Hne Hpre' Hk'.
      destruct (first_occurrence_unique [] pre' k k' post (v' :: post') E Hpre Hk Hpre' Hk')
        as (<- & _). congruence.
    + destruct post as [|v post].
      * right. split.
        -- apply andb_false_iff. right. apply Z.ltb_ge. cbn [length]. lia.
        -- intros pre' k' v' post' E Hne Hpre' Hk'.
           destruct (first_occurrence_unique (a :: pre) pre' k k' [] (v' :: post')
                       E Hpre Hk Hpre' Hk') as (_ & _ & Habs). discriminate.
      * left. exists (a :: pre), k, v, post. split; [reflexivity |].
        split; [discriminate |]. split; [exact Hpre |]. split; [exact Hk |]. split.
        -- apply andb_true_iff. split; [apply Z.gtb_lt | apply Z.ltb_lt]; cbn [length]; lia.
        -- replace (Z.to_nat (Z.of_nat (length (a :: pre)) + 1)) with (length (a :: pre) + 1)%nat
             by lia.
           rewrite app_nth2 by lia.
           replace (length (a :: pre) + 1 - length (a :: pre))%nat with 1%nat by lia.
           reflexivity.
Qed.
End ArgumentFacts.

(** X19.  [find_arg_str] stores a value exactly when the first argument equal
    to the key (ignoring case) is neither the program name nor the last
    argument, and the value is the argument right after it; later
    occurrences of the key are not looked at.  In particular a key that
    equals the program name is never found, and nothing is stored through a
    NULL pointer. *)
Theorem find_arg_str_first_occurrence (argv : list cstring) (key : cstring) :
  (forall v,
      find_arg_str argv key true = Some v <->
      exists pre k post,
        argv = pre ++ k :: v :: post /\ pre <> [] /\
        Forall (arg_differs key) pre /\ strcasecmp k key = 0) /\
  (forall name rest,
      argv = name :: rest -> strcasecmp name key = 0 -> find_arg_str argv key true = None) /\
  find_arg_str argv key false = None.
Proof.
  assert (Hiff : forall v,
             find_arg_str argv key true = Some v <->
             exists pre k post,
               argv = pre ++ k :: v :: post /\ pre <> [] /\
               Forall (arg_differs key) pre /\ strcasecmp k key = 0).
  { intros v. unfold find_arg_str. cbn [andb].
    destruct (value_test key argv)
      as [(pre & k & v' & post & E & Hne & Hpre & Hk & Htest & Hv) | (Htest & Hnone)].
    - rewrite Htest, Hv. clear Htest Hv. split.
      + intros H. inversion H; subst v'. exists pre, k, post. auto.
      + intros (pre' & k' & post' & E' & Hne' & Hpre' & Hk').
        rewrite E in E'.
        destruct (first_occurrence_unique key pre pre' k k' (v' :: post) (v :: post')
                    E' Hpre Hk Hpre' Hk') as (_ & _ & Hpost).
        inversion Hpost. reflexivity.
    - rewrite Htest. split; [discriminate |].
      intros (pre & k & post & E & Hne & Hpre & Hk). exfalso.
      exact (Hnone pre k v post E Hne Hpre Hk). }
  split; [exact Hiff |]. split; [| reflexivity].
  intros name rest E Hname.
  destruct (find_arg_str argv key true) as [v|] eqn:Hv; [| reflexivity].
  destruct (proj1 (Hiff v) eq_refl) as (pre & k & post & E' & Hne & Hpre & _).
  destruct pre as [|a pre]; [congruence |].
  rewrite E in E'. inversion E'; subst. inversion Hpre; subst. contradiction.
Qed.

(** ** [find_arg_strv] *)

Lemma array_set_middle {A : Type} (l1 : list A) (y x : A) (l2 : list A) :
  array_set (l1 ++ y :: l2) (length l1) x = Some (l1 ++ x :: l2).
Proof.
  induction l1 as [|z l1 IH]; cbn [app length array_set].
  - reflexivity.
  - rewrite IH. reflexivity.
Qed.

Lemma values_after_cons (key a v : cstring) (argv : list cstring) :
  values_after key (a :: v :: argv) =
  if strcasecmp a key =? 0 then v :: values_after key (v :: argv)
  else values_after key (v :: argv).
Proof. reflexivity. Qed.

Section StrvFacts.
Variable stored : list cstring.
Variable key : cstring.

Lemma strv_test (before : list cstring) (a : cstring) (rest : list cstring) :
  stored = before ++ a :: rest ->
  (Z.of_nat (length before) <? stored_argc stored - 1) =
  match rest with [] => false | _ :: _ => true end.
Proof.
  intros E. unfold stored_argc. rewrite E, length_app. cbn [length].
  destruct rest as [|v rest]; cbn [length].
  - apply Z.ltb_ge. lia.
  - apply Z.ltb_lt. lia.
Qed.

Lemma strv_count_values (argv : list cstring) :
  forall before count,
    stored = before ++ argv ->
    strv_count stored (Z.of_nat (length before)) argv key count =
    count + Z.of_nat (length (values_after key argv)).
Proof.
  induction argv as [|a argv IH]; intros before count E.
  - cbn [strv_count values_after length]. lia.
  - cbn [strv_count]. rewrite (strv_test before a argv E).
    replace (Z.of_nat (length before) + 1) with (Z.of_nat (length (before ++ [a])))
      by (rewrite length_app; cbn [length]; lia).
    rewrite IH by (rewrite <- app_assoc; exact E).
    destruct argv as [|v argv].
    + rewrite andb_false_r. cbn [values_after length]. lia.
    + rewrite andb_true_r, values_after_cons.
      destruct (strcasecmp a key =? 0); cbn [length]; lia.
Qed.

Lemma strv_fill_values (argv : list cstring) :
  forall before filled free,
    stored = before ++ argv ->
    (length (values_after key argv) <= free)%nat ->
    strv_fill stored (Z.of_nat (length before)) argv key (Z.of_nat (length filled))
      (map Some filled ++ repeat None free) =
    Some (map Some (filled ++ values_after key argv) ++
          repeat None (free - length (values_after key argv))).
Proof.
  induction argv as [|a argv IH]; intros before filled free E Hfree.
  - cbn [strv_fill values_after length]. rewrite app_nil_r, Nat.sub_0_r. reflexivity.
  - cbn [strv_fill]. rewrite (strv_test before a argv E).
    assert (E' : stored = (before ++ [a]) ++ argv) by (rewrite <- app_assoc; exact E).
    assert (Hnext : Z.of_nat (length before) + 1 = Z.of_nat (length (before ++ [a])))
      by (rewrite length_app; cbn [length]; lia).
    destruct argv as [|v argv].
    + rewrite andb_false_r. rewrite Hnext.
      rewrite (IH (before ++ [a]) filled free E' Hfree). reflexivity.
    + rewrite andb_true_r. rewrite values_after_cons in Hfree |- *.
      destruct (strcasecmp a key =? 0).
      * cbn [length] in Hfree. destruct free as [|free]; [lia |].
        cbn [repeat]. rewrite Nat2Z.id.
        rewrite <- (length_map Some filled) at 1.
        rewrite array_set_middle.
        assert (Hv : argv_at stored (Z.of_nat (length before) + 1) = v).
        { unfold argv_at. rewrite E.
          replace (Z.to_nat (Z.of_nat (length before) + 1)) with (length before + 1)%nat by lia.
          rewrite app_nth2 by lia.
          replace (length before + 1 - length before)%nat with 1%nat by lia. reflexivity. }
        rewrite Hv, Hnext.
        replace (Z.of_nat (length filled) + 1) with (Z.of_nat (length (filled ++ [v])))
          by (rewrite length_app; cbn [length]; lia).
        replace (map Some filled ++ Some v :: repeat None free)
          with (map Some (filled ++ [v]) ++ repeat (@None cstring) free)
          by (rewrite map_app, <- app_assoc; reflexivity).
        rewrite (IH (before ++ [a]) (filled ++ [v]) free E') by lia.
        rewrite <- app_assoc. cbn [app length]. reflexivity.
      * rewrite Hnext. rewrite (IH (before ++ [a]) filled free E' Hfree). reflexivity.
Qed.
End StrvFacts.

Lemma values_after_skip (key : cstring) (pre : list cstring) (k v : cstring)
    (post : list cstring) :
  Forall (arg_differs key) pre ->
  values_after key (pre ++ k :: v :: post) = values_after key (k :: v :: post).
Proof.
  induction 1 as [|a pre Ha _ IH]; [reflexivity |].
  cbn [app]. rewrite <- IH.
  destruct (pre ++ k :: v :: post) as [|w rest] eqn:E.
  - destruct pre; discriminate.
  - rewrite values_after_cons.
    destruct (Z.eqb_spec (strcasecmp a key) 0); [contradiction | reflexivity].
Qed.

(** X20.  [find_arg_strv] returns NULL when no argument equal to the key
    (ignoring case) has an argument after it; otherwise it returns an array
    that holds, in order, the argument after each argument equal to the key
    (the program name included), followed by one NULL.  No write falls
    outside of the array.  What [find_arg_str] stores is the first entry of
    that array. *)
Theorem find_arg_strv_values (argv : list cstring) (key : cstring) :
  find_arg_strv argv key =
    match values_after key argv with
    | [] => StrvNull
    | values => StrvArray (map Some values ++ [None])
    end /\
  (forall v, find_arg_str argv key true = Some v ->
             exists values, values_after key argv = v :: values).
Proof.
  split.
  - unfold find_arg_strv.
    pose proof (strv_count_values argv key argv [] 0 eq_refl) as Hc.
    cbn [length Z.of_nat] in Hc. rewrite Hc. clear Hc.
    pose proof (strv_fill_values argv key argv [] []
                  (S (length (values_after key argv))) eq_refl) as Hf.
    cbn [length Z.of_nat map app] in Hf.
    destruct (values_after key argv) as [|v values].
    + reflexivity.
    + replace (0 + Z.of_nat (length (v :: values)) >? 0) with true
        by (symmetry; apply Z.gtb_lt; cbn [length]; lia).
      replace (Z.to_nat (0 + Z.of_nat (length (v :: values)) + 1))
        with (S (length (v :: values))) by lia.
      rewrite Hf by lia.
      replace (S (length (v :: values)) - length (v :: values))%nat with 1%nat by lia.
      reflexivity.
  - intros v Hv. unfold find_arg_str in Hv. cbn [andb] in Hv.
    destruct (value_test key argv)
      as [(pre & k & v' & post & E & Hne & Hpre & Hk & Htest & Hval) | (Htest & _)].
    + rewrite Htest, Hval in Hv. clear Htest Hval. inversion Hv; subst v'. subst argv.
      rewrite (values_after_skip key pre k v post Hpre), values_after_cons.
      rewrite Hk. cbn [Z.eqb]. eauto.
    + rewrite Htest in Hv. discriminate.
Qed.

(** ** Numbers: [find_arg_int] and [find_arg_uint] *)

Lemma c_str_cons (a : ascii) (s : string) :
  c_str (String a s) = Z.of_N (N_of_ascii a) :: c_str s.
Proof. reflexivity. Qed.

(** One more decimal digit. *)
Ltac next_digit IH :=
  cbn [DecimalString.NilEmpty.string_of_uint Pos.of_uint_acc Pos.of_uint];
  rewrite c_str_cons; cbn [strtol_digits];
  match goal with
  | |- context [digit_value ?c] =>
      let v := eval vm_compute in (digit_value c) in change (digit_value c) with v
  end;
  cbv iota beta;
  match goal with
  | |- context [?v <? 10] => change (v <? 10) with true
  end;
  cbv iota beta.

Lemma strtol_digits_acc (d : Decimal.uint) :
  forall acc : positive,
    strtol_digits 10 (Z.pos acc) (c_str (DecimalString.NilEmpty.string_of_uint d)) =
    Z.pos (Pos.of_uint_acc d acc).
Proof.
  induction d as [|d IH|d IH|d IH|d IH|d IH|d IH|d IH|d IH|d IH|d IH]; intros acc;
    [reflexivity | next_digit IH; rewrite <- IH; f_equal; lia ..].
Qed.

Lemma strtol_digits_decimal (d : Decimal.uint) :
  strtol_digits 10 0 (c_str (DecimalString.NilEmpty.string_of_uint d)) = Z.of_N (Pos.of_uint d).
Proof.
  induction d as [|d IH|d IH|d IH|d IH|d IH|d IH|d IH|d IH|d IH|d IH];
    [reflexivity | next_digit IH; exact IH
     | next_digit IH; cbn [Z.of_N]; rewrite <- strtol_digits_acc; f_equal ..].
Qed.

Lemma decimal_first_digit (d : Decimal.uint) :
  d <> Decimal.Nil ->
  exists b rest, c_str (DecimalString.NilEmpty.string_of_uint d) = b :: rest /\ 48 <= b <= 57.
Proof.
  destruct d; [congruence | intros _; eexists; eexists; split;
                            [cbn [DecimalString.NilEmpty.string_of_uint]; rewrite c_str_cons;
                             reflexivity | vm_compute; split; discriminate] ..].
Qed.

Lemma strtol_prefix_decimal (s : cstring) : strtol_prefix 10 s = s.
Proof.
  destruct s as [|z [|x [|d s]]]; reflexivity.
Qed.

Lemma strtol_magnitude_digits (b : Z) (rest : cstring) :
  48 <= b <= 57 ->
  strtol_magnitude (b :: rest) 10 = (false, strtol_digits 10 0 (b :: rest)) /\
  strtol_magnitude (45 :: b :: rest) 10 = (true, strtol_digits 10 0 (b :: rest)).
Proof.
  intros Hb.
  assert (Hspace : c_isspace b = false).
  { unfold c_isspace, in_range.
    destruct (Z.eqb_spec b 32), (Z.leb_spec 9 b), (Z.leb_spec b 13); try reflexivity; lia. }
  assert (Hminus : (b =? 45) = false) by (apply Z.eqb_neq; lia).
  assert (Hplus : (b =? 43) = false) by (apply Z.eqb_neq; lia).
  unfold strtol_magnitude. cbn [skip_spaces]. rewrite Hspace.
  change (c_isspace 45) with false. cbv iota.
  cbn [strtol_sign]. rewrite Hminus, Hplus. change (45 =? 45) with true. cbv iota.
  rewrite !strtol_prefix_decimal. split; reflexivity.
Qed.

Lemma strtol_magnitude_decimal (n : Z) :
  strtol_magnitude (decimal n) 10 = (n <? 0, Z.abs n).
Proof.
  assert (Hpos : forall p,
            exists b rest,
              c_str (DecimalString.NilEmpty.string_of_uint (Pos.to_uint p)) = b :: rest /\
              48 <= b <= 57 /\ strtol_digits 10 0 (b :: rest) = Z.pos p).
  { intros p.
    destruct (decimal_first_digit (Pos.to_uint p) (DecimalPos.Unsigned.to_uint_nonnil p))
      as (b & rest & E & Hb).
    exists b, rest. split; [exact E |]. split; [exact Hb |].
    rewrite <- E, strtol_digits_decimal, DecimalPos.Unsigned.of_to. reflexivity. }
  assert (Hnil : forall p,
            DecimalString.NilZero.string_of_uint (Pos.to_uint p) =
            DecimalString.NilEmpty.string_of_uint (Pos.to_uint p)).
  { intros p. pose proof (DecimalPos.Unsigned.to_uint_nonnil p).
    destruct (Pos.to_uint p); [congruence | reflexivity ..]. }
  destruct n as [|p|p]; unfold decimal; cbn [Z.to_int DecimalString.NilZero.string_of_int].
  - reflexivity.
  - rewrite Hnil. destruct (Hpos p) as (b & rest & E & Hb & Hv). rewrite E.
    rewrite (proj1 (strtol_magnitude_digits b rest Hb)), Hv. reflexivity.
  - rewrite c_str_cons, Hnil. destruct (Hpos p) as (b & rest & E & Hb & Hv). rewrite E.
    change (Z.of_N (N_of_ascii "-")) with 45.
    rewrite (proj2 (strtol_magnitude_digits b rest Hb)), Hv. reflexivity.
Qed.

(** [strtol] reads back what [printf] writes, as far as [long] goes. *)
Lemma strtol_decimal (n : Z) :
  strtol (decimal n) 10 = Z.max LONG_MIN (Z.min n LONG_MAX).
Proof.
  unfold strtol. rewrite strtol_magnitude_decimal.
  unfold LONG_MIN, LONG_MAX, G_MAXLONG. destruct (Z.ltb_spec n 0); lia.
Qed.

Lemma strtoul_decimal (n : Z) :
  strtoul (decimal n) 10 =
  if Z.abs n >? ULONG_MAX then ULONG_MAX else n mod (ULONG_MAX + 1).
Proof.
  unfold strtoul. rewrite strtol_magnitude_decimal.
  destruct (Z.gtb_spec (Z.abs n) ULONG_MAX) as [H|H]; [reflexivity |].
  unfold ULONG_MAX in *. destruct (Z.ltb_spec n 0) as [Hn|Hn].
  - f_equal. lia.
  - rewrite Z.abs_eq by lia. rewrite Z.mod_small; lia.
Qed.

(** The value is found: the test the variants share holds, and the
    argument read is the one after the key. *)
Lemma value_found (key : cstring) (pre : list cstring) (k v : cstring) (post : list cstring) :
  pre <> [] -> Forall (arg_differs key) pre -> strcasecmp k key = 0 ->
  (find_arg (pre ++ k :: v :: post) key >? 0) &&
  (find_arg (pre ++ k :: v :: post) key <? stored_argc (pre ++ k :: v :: post) - 1) = true /\
  argv_at (pre ++ k :: v :: post) (find_arg (pre ++ k :: v :: post) key + 1) = v.
Proof.
  intros Hne Hpre Hk.
  destruct (value_test key (pre ++ k :: v :: post))
    as [(pre' & k' & v' & post' & E & _ & Hpre' & Hk' & Htest & Hv) | (_ & Hnone)].
  - destruct (first_occurrence_unique key pre pre' k k' (v :: post) (v' :: post')
                E Hpre Hk Hpre' Hk') as (_ & _ & Hpost).
    injection Hpost as Hvv Hpp. rewrite <- Hvv in Hv. split; assumption.
  - exfalso. exact (Hnone pre k v post eq_refl Hne Hpre Hk).
Qed.

(** X21.  [find_arg_int] reads back a number written in decimal: a number
    in the range of [int] is stored as it is; any other number in the range
    of [long] is stored reduced to 32 bits; a number above [LONG_MAX] is
    stored as -1 and a number below [LONG_MIN] as 0.  No error is
    reported. *)
Theorem find_arg_int_decimal (key : cstring) (pre : list cstring) (k : cstring)
    (post : list cstring) (n : Z) :
  pre <> [] -> Forall (arg_differs key) pre -> strcasecmp k key = 0 ->
  find_arg_int (pre ++ k :: decimal n :: post) key true =
    Some (int_wrap (Z.max LONG_MIN (Z.min n LONG_MAX))) /\
  (INT_MIN <= n <= 2147483647 ->
   find_arg_int (pre ++ k :: decimal n :: post) key true = Some n) /\
  (LONG_MAX <= n -> find_arg_int (pre ++ k :: decimal n :: post) key true = Some (-1)) /\
  (n <= LONG_MIN -> find_arg_int (pre ++ k :: decimal n :: post) key true = Some 0).
Proof.
  intros Hne Hpre Hk.
  destruct (value_found key pre k (decimal n) post Hne Hpre Hk) as (Htest & Hv).
  assert (E : find_arg_int (pre ++ k :: decimal n :: post) key true =
              Some (int_wrap (Z.max LONG_MIN (Z.min n LONG_MAX)))).
  { unfold find_arg_int. cbn [andb]. rewrite Htest, Hv, strtol_decimal. reflexivity. }
  rewrite E. unfold LONG_MIN, LONG_MAX, G_MAXLONG, INT_MIN.
  split; [reflexivity |]. split; [| split]; intros H; f_equal.
  - rewrite Z.max_r, Z.min_l by lia. unfold int_wrap. rewrite Z.mod_small; lia.
  - rewrite Z.min_r, Z.max_r by lia. reflexivity.
  - rewrite Z.min_l, Z.max_l by lia. reflexivity.
Qed.

Lemma find_arg_int_decimal_witness :
  [c_str "rofi"] <> [] /\ Forall (arg_differs (c_str "-lines")) [c_str "rofi"] /\
  strcasecmp (c_str "-Lines") (c_str "-lines") = 0 /\
  find_arg_int ([c_str "rofi"] ++ c_str "-Lines" :: decimal (-15) :: []) (c_str "-lines") true =
    Some (-15).
Proof.
  assert (H1 : [c_str "rofi"] <> []) by discriminate.
  assert (H2 : Forall (arg_differs (c_str "-lines")) [c_str "rofi"]).
  { constructor; [| constructor]. vm_compute. discriminate. }
  assert (H3 : strcasecmp (c_str "-Lines") (c_str "-lines") = 0) by reflexivity.
  split; [exact H1 |]. split; [exact H2 |]. split; [exact H3 |].
  apply (proj1 (proj2 (find_arg_int_decimal (c_str "-lines") [c_str "rofi"] (c_str "-Lines")
                         [] (-15) H1 H2 H3))).
  vm_compute. split; discriminate.
Defined.

(** X22.  [find_arg_uint] reads back a number written in decimal: a number
    in the range of [unsigned int] is stored as it is; a negative number is
    accepted and stored reduced to 32 bits, so -1 is stored as 4294967295;
    a number of magnitude above [ULONG_MAX] is stored as 4294967295.  No
    error is reported. *)
Theorem find_arg_uint_decimal (key : cstring) (pre : list cstring) (k : cstring)
    (post : list cstring) (n : Z) :
  pre <> [] -> Forall (arg_differs key) pre -> strcasecmp k key = 0 ->
  (0 <= n <= UINT_MAX ->
   find_arg_uint (pre ++ k :: decimal n :: post) key true = Some n) /\
  (Z.abs n <= ULONG_MAX ->
   find_arg_uint (pre ++ k :: decimal n :: post) key true = Some (uint_wrap n)) /\
  (ULONG_MAX < Z.abs n ->
   find_arg_uint (pre ++ k :: decimal n :: post) key true = Some UINT_MAX) /\
  uint_wrap (-1) = 4294967295.
Proof.
  intros Hne Hpre Hk.
  destruct (value_found key pre k (decimal n) post Hne Hpre Hk) as (Htest & Hv).
  assert (E : find_arg_uint (pre ++ k :: decimal n :: post) key true =
              Some (uint_wrap (if Z.abs n >? ULONG_MAX then ULONG_MAX
                               else n mod (ULONG_MAX + 1)))).
  { unfold find_arg_uint. cbn [andb]. rewrite Htest, Hv, strtoul_decimal. reflexivity. }
  rewrite E. unfold ULONG_MAX, UINT_MAX.
  assert (Hwrap : uint_wrap (n mod (18446744073709551615 + 1)) = uint_wrap n).
  { unfold uint_wrap. apply Z.mod_mod_divide. exists 4294967296. reflexivity. }
  split; [| split; [| split; [| reflexivity]]]; intros H; f_equal.
  - destruct (Z.gtb_spec (Z.abs n) 18446744073709551615); [lia |].
    rewrite Hwrap. apply uint_wrap_small. lia.
  - destruct (Z.gtb_spec (Z.abs n) 18446744073709551615); [lia |]. exact Hwrap.
  - destruct (Z.gtb_spec (Z.abs n) 18446744073709551615); [reflexivity | lia].
Qed.

Lemma find_arg_uint_decimal_witness :
  [c_str "rofi"] <> [] /\ Forall (arg_differs (c_str "-width")) [c_str "rofi"] /\
  strcasecmp (c_str "-width") (c_str "-width") = 0 /\
  find_arg_uint ([c_str "rofi"] ++ c_str "-width" :: decimal (-1) :: []) (c_str "-width") true =
    Some 4294967295.
Proof.
  assert (H1 : [c_str "rofi"] <> []) by discriminate.
  assert (H2 : Forall (arg_differs (c_str "-width")) [c_str "rofi"]).
  { constructor; [| constructor]. vm_compute. discriminate. }
  assert (H3 : strcasecmp (c_str "-width") (c_str "-width") = 0) by reflexivity.
  split; [exact H1 |]. split; [exact H2 |]. split; [exact H3 |].
  apply (proj1 (proj2 (find_arg_uint_decimal (c_str "-width") [c_str "rofi"] (c_str "-width")
                         [] (-1) H1 H2 H3))).
  vm_compute. discriminate.
Defined.

(** ** [helper_parse_char] *)

Lemma hex_escapes_checked :
  forallb (fun b => helper_parse_char (92 :: 120 :: hex2 b) =? b)
          (map Z.of_nat (seq 0 256)) = true.
Proof. vm_compute. reflexivity. Qed.

(** X23.  [helper_parse_char] returns the byte of a string of one byte; it
    returns the byte b for the escape [\x] followed by the two hexadecimal
    digits of b, for every byte b; and it returns the newline for a string,
    the empty one included, that is not one byte long and does not start
    with a backslash.  [find_arg_char] stores what [helper_parse_char] makes
    of the argument after the key. *)
Theorem helper_parse_char_bytes :
  (forall c, helper_parse_char [c] = c) /\
  (forall b, 0 <= b < 256 -> helper_parse_char (92 :: 120 :: hex2 b) = b) /\
  (forall arg, strlen arg <> 1 -> char_at arg 0 <> 92 -> helper_parse_char arg = 10) /\
  (forall key pre k v post,
      pre <> [] -> Forall (arg_differs key) pre -> strcasecmp k key = 0 ->
      find_arg_char (pre ++ k :: v :: post) key true = Some (helper_parse_char v)).
Proof.
  split; [| split; [| split]].
  - intros c. reflexivity.
  - intros b Hb. pose proof hex_escapes_checked as H. rewrite forallb_forall in H.
    apply Z.eqb_eq. apply H. apply in_map_iff. exists (Z.to_nat b).
    split; [lia |]. apply in_seq. lia.
  - intros arg Hlen Hfirst. unfold helper_parse_char.
    destruct (Z.eqb_spec (strlen arg) 1) as [E|_]; [contradiction |].
    destruct (Z.eqb_spec (char_at arg 0) 92) as [E|_]; [contradiction |].
    rewrite !andb_false_r. reflexivity.
  - intros key pre k v post Hne Hpre Hk.
    destruct (value_found key pre k v post Hne Hpre Hk) as (Htest & Hv).
    unfold find_arg_char. cbn [andb]. rewrite Htest, Hv. reflexivity.
Qed.

Lemma helper_parse_char_bytes_witness :
  0 <= 200 < 256 /\ helper_parse_char (c_str "\xc8") = 200.
Proof.
  assert (H : 0 <= 200 < 256) by lia.
  split; [exact H |].
  exact (proj1 (proj2 helper_parse_char_bytes) 200 H).
Defined.

(* ================================================================= *)
(** * Properties of [rofi_force_utf8] *)

Section ForceUtf8Facts.
Variable valid_run : list Z -> nat.
Hypothesis valid_run_le : forall data, (valid_run data <= length data)%nat.
Hypothesis valid_run_prefix :
  forall data, utf8_valid valid_run (firstn (valid_run data) data).
Hypothesis valid_app :
  forall a b, utf8_valid valid_run a -> utf8_valid valid_run b -> utf8_valid valid_run (a ++ b).
Hypothesis valid_replacement : utf8_valid valid_run replacement_character.

Lemma validate_spec (data : list Z) :
  g_utf8_validate valid_run data = true <-> utf8_valid valid_run data.
Proof. unfold g_utf8_validate, utf8_valid. apply Nat.eqb_eq. Qed.

(** The loop ends, and what it writes behind [string] is the rest of the
    buffer repaired. *)
Lemma force_loop_repairs (fuel : nat) :
  forall data string,
    (length data < fuel)%nat ->
    g_utf8_validate valid_run data = false ->
    exists out,
      force_loop valid_run fuel data string = ForcedString (string ++ out) /\
      repaired valid_run data out /\ utf8_valid valid_run out.
Proof.
  induction fuel as [|fuel IH]; intros data string Hfuel Hbad; [lia |].
  assert (Hrun : (valid_run data < length data)%nat).
  { pose proof (valid_run_le data). unfold g_utf8_validate in Hbad.
    apply Nat.eqb_neq in Hbad. lia. }
  assert (Hsplit : exists byte,
             data = firstn (valid_run data) data ++ byte :: skipn (S (valid_run data)) data).
  { destruct (skipn (valid_run data) data) as [|byte rest] eqn:E.
    - apply (f_equal (@length Z)) in E. rewrite length_skipn in E. cbn [length] in E. lia.
    - exists byte.
      change (S (valid_run data)) with (1 + valid_run data)%nat.
      rewrite <- skipn_skipn, E. cbn [skipn]. rewrite <- E. symmetry. apply firstn_skipn. }
  destruct Hsplit as (byte & Hsplit).
  assert (Hshorter : (length (skipn (S (valid_run data)) data) < fuel)%nat).
  { rewrite length_skipn. lia. }
  cbn [force_loop].
  destruct (g_utf8_validate valid_run (skipn (S (valid_run data)) data)) eqn:Hnext.
  - exists (firstn (valid_run data) data ++ replacement_character ++
            skipn (S (valid_run data)) data).
    apply validate_spec in Hnext. split; [| split].
    + rewrite <- !app_assoc. reflexivity.
    + rewrite Hsplit at 1. apply repaired_byte; [apply valid_run_prefix |].
      apply repaired_valid. exact Hnext.
    + apply valid_app; [apply valid_run_prefix |]. apply valid_app; assumption.
  - destruct (IH (skipn (S (valid_run data)) data)
                (string ++ firstn (valid_run data) data ++ replacement_character)
                Hshorter Hnext) as (out & E & Hrep & Hout).
    exists (firstn (valid_run data) data ++ replacement_character ++ out).
    split; [| split].
    + rewrite E, <- !app_assoc. reflexivity.
    + rewrite Hsplit at 1. apply repaired_byte; [apply valid_run_prefix | exact Hrep].
    + apply valid_app; [apply valid_run_prefix |]. apply valid_app; assumption.
Qed.

Lemma force_utf8_result (data : list Z) :
  exists out,
    rofi_force_utf8 valid_run (Some data) = ForcedString out /\
    repaired valid_run data out /\ utf8_valid valid_run out /\
    (utf8_valid valid_run data -> out = data).
Proof.
  unfold rofi_force_utf8. destruct (g_utf8_validate valid_run data) eqn:H.
  - apply validate_spec in H. exists data. split; [reflexivity |].
    split; [apply repaired_valid; exact H |]. split; [exact H | reflexivity].
  - destruct (force_loop_repairs (S (length data)) data [] ltac:(lia) H)
      as (out & E & Hrep & Hout).
    exists out. split; [exact E |]. split; [exact Hrep |]. split; [exact Hout |].
    intros Hvalid. apply validate_spec in Hvalid. congruence.
Qed.
End ForceUtf8Facts.

(** ** The validator of UTF-8 *)

Lemma utf8_valid_run_le (n : nat) :
  forall data, (length data <= n)%nat -> (utf8_valid_run data <= length data)%nat.
Proof.
  induction n as [|n IH]; intros data Hn.
  - destruct data; [cbn; lia | cbn [length] in Hn; lia].
  - destruct data as [|b0 r0]; [cbn; lia |]. cbn [utf8_valid_run length] in *.
    destruct (in_range 1 127 b0); [specialize (IH r0); lia |].
    destruct (in_range 194 223 b0).
    { destruct r0 as [|b1 r1]; [lia |]. cbn [length] in *.
      destruct (is_cont b1); [specialize (IH r1); lia | lia]. }
    destruct (in_range 224 239 b0).
    { destruct r0 as [|b1 [|b2 r2]]; try lia. cbn [length] in *.
      destruct (second_of_three b0 b1 && is_cont b2); [specialize (IH r2); lia | lia]. }
    destruct (in_range 240 244 b0); [| lia].
    destruct r0 as [|b1 [|b2 [|b3 r3]]]; try lia. cbn [length] in *.
    destruct (second_of_four b0 b1 && is_cont b2 && is_cont b3); [specialize (IH r3); lia | lia].
Qed.

Lemma utf8_valid_run_prefix (n : nat) :
  forall data,
    (length data <= n)%nat ->
    utf8_valid_run (firstn (utf8_valid_run data) data) = utf8_valid_run data.
Proof.
  induction n as [|n IH]; intros data Hn.
  - destruct data; [reflexivity | cbn [length] in Hn; lia].
  - destruct data as [|b0 r0]; [reflexivity |]. cbn [utf8_valid_run length] in *.
    destruct (in_range 1 127 b0) eqn:H1.
    { cbn [firstn utf8_valid_run]. rewrite H1, IH by lia. reflexivity. }
    destruct (in_range 194 223 b0) eqn:H2.
    { destruct r0 as [|b1 r1]; [reflexivity |]. cbn [length] in *.
      destruct (is_cont b1) eqn:C1; [| reflexivity].
      cbn [firstn utf8_valid_run]. rewrite H1, H2, C1, IH by lia. reflexivity. }
    destruct (in_range 224 239 b0) eqn:H3.
    { destruct r0 as [|b1 [|b2 r2]]; try reflexivity. cbn [length] in *.
      destruct (second_of_three b0 b1 && is_cont b2) eqn:C; [| reflexivity].
      cbn [firstn utf8_valid_run]. rewrite H1, H2, H3, C, IH by lia. reflexivity. }
    destruct (in_range 240 244 b0) eqn:H4; [| reflexivity].
    destruct r0 as [|b1 [|b2 [|b3 r3]]]; try reflexivity. cbn [length] in *.
    destruct (second_of_four b0 b1 && is_cont b2 && is_cont b3) eqn:C; [| reflexivity].
    cbn [firstn utf8_valid_run]. rewrite H1, H2, H3, H4, C, IH by lia. reflexivity.
Qed.

Lemma utf8_valid_run_app (n : nat) :
  forall a b,
    (length a <= n)%nat -> utf8_valid_run a = length a ->
    utf8_valid_run (a ++ b) = (length a + utf8_valid_run b)%nat.
Proof.
  induction n as [|n IH]; intros a b Hn Ha.
  - destruct a; [reflexivity | cbn [length] in Hn; lia].
  - destruct a as [|b0 r0]; [reflexivity |]. cbn [utf8_valid_run length app] in *.
    destruct (in_range 1 127 b0).
    { rewrite IH by lia. reflexivity. }
    destruct (in_range 194 223 b0).
    { destruct r0 as [|b1 r1]; [discriminate |]. cbn [length app] in *.
      destruct (is_cont b1); [| discriminate]. rewrite IH by lia. reflexivity. }
    destruct (in_range 224 239 b0).
    { destruct r0 as [|b1 [|b2 r2]]; try discriminate. cbn [length app] in *.
      destruct (second_of_three b0 b1 && is_cont b2); [| discriminate].
      rewrite IH by lia. reflexivity. }
    destruct (in_range 240 244 b0); [| discriminate].
    destruct r0 as [|b1 [|b2 [|b3 r3]]]; try discriminate. cbn [length app] in *.
    destruct (second_of_four b0 b1 && is_cont b2 && is_cont b3); [| discriminate].
    rewrite IH by lia. reflexivity.
Qed.

(** The validator of UTF-8 has the properties asked of a validator. *)
Lemma utf8_validator :
  (forall data, (utf8_valid_run data <= length data)%nat) /\
  (forall data, utf8_valid utf8_valid_run (firstn (utf8_valid_run data) data)) /\
  (forall a b, utf8_valid utf8_valid_run a -> utf8_valid utf8_valid_run b ->
               utf8_valid utf8_valid_run (a ++ b)) /\
  utf8_valid utf8_valid_run replacement_character.
Proof.
  split; [| split; [| split]].
  - intros data. apply (utf8_valid_run_le (length data)). lia.
  - intros data. unfold utf8_valid.
    rewrite (utf8_valid_run_prefix (length data)) by lia.
    rewrite length_firstn. pose proof (utf8_valid_run_le (length data) data). lia.
  - intros a b Ha Hb. unfold utf8_valid in *.
    rewrite (utf8_valid_run_app (length a)), length_app by (assumption || lia). lia.
  - reflexivity.
Qed.



(** X25.  For such a validator, [rofi_force_utf8] returns the buffer itself
    exactly when the validator accepts the buffer, and forcing twice is
    forcing once: what it returns it returns unchanged when given it
    again. *)
Theorem rofi_force_utf8_fixed (valid_run : list Z -> nat) (data : list Z) :
  (forall d, (valid_run d <= length d)%nat) ->
  (forall d, utf8_valid valid_run (firstn (valid_run d) d)) ->
  (forall a b, utf8_valid valid_run a -> utf8_valid valid_run b ->
               utf8_valid valid_run (a ++ b)) ->
  utf8_valid valid_run replacement_character ->
  (rofi_force_utf8 valid_run (Some data) = ForcedString data <-> utf8_valid valid_run data) /\
  (forall out,
      rofi_force_utf8 valid_run (Some data) = ForcedString out ->
      rofi_force_utf8 valid_run (Some out) = ForcedString out).
Proof.
  intros V1 V2 V3 V4.
  assert (Hvalid : forall d, utf8_valid valid_run d ->
                             rofi_force_utf8 valid_run (Some d) = ForcedString d).
  { intros d Hd. unfold rofi_force_utf8.
    rewrite (proj2 (validate_spec valid_run d) Hd). reflexivity. }
  destruct (force_utf8_result valid_run V1 V2 V3 V4 data) as (out & E & _ & Hout & _).
  split.
  - split; [| apply Hvalid]. intros H. rewrite E in H. inversion H; subst. exact Hout.
  - intros out' H. rewrite E in H. inversion H; subst. apply Hvalid. exact Hout.
Qed.

Lemma rofi_force_utf8_fixed_witness :
  rofi_force_utf8 utf8_valid_run (Some [97; 239; 191; 189; 98]) =
    ForcedString [97; 239; 191; 189; 98].
Proof.
  apply (proj2 (rofi_force_utf8_fixed utf8_valid_run [97; 255; 98]
                  (proj1 utf8_validator) (proj1 (proj2 utf8_validator))
                  (proj1 (proj2 (proj2 utf8_validator)))
                  (proj2 (proj2 (proj2 utf8_validator))))).
  reflexivity.
Defined.

(* ================================================================= *)
(** * Properties of [helper_parse_setup] *)

Section ParseSetupFacts.
Variable pcre_word : gunichar -> bool.
Hypothesis close_brace_no_word : pcre_word 125 = false.
Variable h : GHashTable.

Lemma replace_eval_plain (text s : utf8) :
  Forall (fun c => c <> 123) text ->
  replace_eval pcre_word h (text ++ s) None = text ++ replace_eval pcre_word h s None.
Proof.
  induction 1 as [|c text Hc _ IH]; [reflexivity |].
  cbn [app replace_eval]. destruct (Z.eqb_spec c 123) as [E|_]; [contradiction |].
  rewrite IH. reflexivity.
Qed.

Lemma replace_eval_key (key s : utf8) :
  Forall (fun c => key_char pcre_word c = true) key ->
  forall run,
    replace_eval pcre_word h (key ++ s) (Some run) =
    replace_eval pcre_word h s (Some (rev key ++ run)).
Proof.
  induction 1 as [|c key Hc _ IH]; intros run; [reflexivity |].
  cbn [app replace_eval rev]. rewrite Hc, IH, <- app_assoc. reflexivity.
Qed.

Lemma replace_eval_placeholder (key s : utf8) :
  key <> [] -> Forall (fun c => key_char pcre_word c = true) key ->
  replace_eval pcre_word h (placeholder key ++ s) None =
  helper_eval_cb h (placeholder key) ++ replace_eval pcre_word h s None.
Proof.
  intros Hne Hkey. unfold placeholder. cbn [app replace_eval]. cbn [Z.eqb Pos.eqb].
  rewrite <- app_assoc.
  etransitivity; [apply (replace_eval_key key (125 :: s) Hkey []) |].
  cbn [replace_eval]. unfold key_char at 1. rewrite close_brace_no_word.
  cbn [Z.eqb Pos.eqb orb andb]. rewrite app_nil_r, rev_involutive.
  destruct (rev key) as [|c run] eqn:E.
  - apply (f_equal (@rev Z)) in E. rewrite rev_involutive in E. exfalso. exact (Hne E).
  - reflexivity.
Qed.
End ParseSetupFacts.

(** X26.  [helper_parse_setup] hands to [g_shell_parse_argv] the string with
    its placeholders replaced, and returns what the parser makes of it.
    Text without an opening brace is handed on as it is.  A placeholder (a
    key of characters of [[-\w]], not empty, between braces) after such text
    is replaced by the value the table holds for it, or by nothing when the
    table holds none: the placeholder never stays.  The value is not
    searched for placeholders again; the replacement goes on behind the
    placeholder. *)
Theorem helper_parse_setup_placeholders (pcre_word : gunichar -> bool)
    (g_shell_parse_argv : utf8 -> option (list utf8))
    (terminal ssh : option utf8) (ap : list (option utf8)) :
  pcre_word 123 = false -> pcre_word 125 = false ->
  (forall string,
      helper_parse_setup pcre_word g_shell_parse_argv terminal ssh string ap =
      g_shell_parse_argv (setup_string pcre_word terminal ssh string ap)) /\
  (forall text,
      Forall (fun c => c <> 123) text ->
      setup_string pcre_word terminal ssh text ap = text) /\
  (forall text key rest,
      Forall (fun c => c <> 123) text ->
      key <> [] -> Forall (fun c => key_char pcre_word c = true) key ->
      setup_string pcre_word terminal ssh (text ++ placeholder key ++ rest) ap =
      text ++
      match g_hash_table_lookup (setup_table terminal ssh ap) (placeholder key) with
      | Some value => value
      | None => []
      end ++
      setup_string pcre_word terminal ssh rest ap).
Proof.
  intros Hopen Hclose. split; [reflexivity |]. split.
  - intros text Htext. unfold setup_string.
    rewrite <- (app_nil_r text) at 1.
    rewrite (replace_eval_plain pcre_word _ text [] Htext). apply app_nil_r.
  - intros text key rest Htext Hne Hkey. unfold setup_string.
    rewrite (replace_eval_plain pcre_word _ text _ Htext).
    rewrite (replace_eval_placeholder pcre_word Hclose _ key rest Hne Hkey).
    reflexivity.
Qed.

Lemma helper_parse_setup_placeholders_witness :
  in_range 97 122 123 = false /\ in_range 97 122 125 = false /\
  Forall (fun c => c <> 123) (cps "exec ") /\
  cps "cmd" <> [] /\ Forall (fun c => key_char (in_range 97 122) c = true) (cps "cmd") /\
  setup_string (in_range 97 122) (Some (cps "xterm")) None
    (cps "exec " ++ placeholder (cps "cmd") ++ cps " {x}")
    [Some (cps "{cmd}"); Some (cps "{ls}")] =
  cps "exec {ls} ".
Proof.
  assert (H1 : in_range 97 122 123 = false) by reflexivity.
  assert (H2 : in_range 97 122 125 = false) by reflexivity.
  assert (H3 : Forall (fun c => c <> 123) (cps "exec ")) by (repeat constructor; discriminate).
  assert (H4 : cps "cmd" <> []) by discriminate.
  assert (H5 : Forall (fun c => key_char (in_range 97 122) c = true) (cps "cmd"))
    by (repeat constructor).
  split; [exact H1 |]. split; [exact H2 |]. split; [exact H3 |]. split; [exact H4 |].
  split; [exact H5 |].
  exact (eq_trans
           (proj2 (proj2 (helper_parse_setup_placeholders (in_range 97 122) (fun s => Some [s])
                            (Some (cps "xterm")) None [Some (cps "{cmd}"); Some (cps "{ls}")]
                            H1 H2)) (cps "exec ") (cps "cmd") (cps " {x}") H3 H4 H5)
           eq_refl).
Defined.

(** ** The table of replacements *)

Lemma setup_arguments_stop (stop : list (option utf8)) (h : GHashTable) :
  setup_stops stop -> setup_arguments stop h = h.
Proof.
  destruct stop as [|[k|] [|[v|] stop]]; cbn; intros H; try reflexivity. contradiction.
Qed.

Lemma setup_arguments_lookup (stop : list (option utf8)) (key : utf8)
    (pairs : list (utf8 * utf8)) :
  setup_stops stop ->
  forall h,
    g_hash_table_lookup (setup_arguments (setup_pairs pairs ++ stop) h) key =
    match latest_value pairs key with
    | Some value => Some value
    | None => g_hash_table_lookup h key
    end.
Proof.
  intros Hstop. induction pairs as [|[k value] pairs IH]; intros h.
  - cbn [setup_pairs flat_map app latest_value]. rewrite setup_arguments_stop by exact Hstop.
    reflexivity.
  - cbn [setup_pairs flat_map app fst snd setup_arguments latest_value].
    change (flat_map (fun p => [Some (fst p); Some (snd p)]) pairs) with (setup_pairs pairs).
    rewrite IH. destruct (latest_value pairs key); [reflexivity |].
    unfold g_hash_table_insert. cbn [g_hash_table_lookup].
    destruct (list_eq_dec Z.eq_dec k key); reflexivity.
Qed.

(** X27.  The value [helper_parse_setup] replaces a placeholder by is the one
    of the latest pair of the argument list that names it; the list is read
    up to the first NULL key or NULL value.  A placeholder that no pair names
    is replaced by [config.ssh_client] when it is [{ssh-client}], by
    [config.terminal_emulator] when it is [{terminal}], and has no value
    otherwise. *)
Theorem setup_table_latest (terminal ssh : option utf8) (pairs : list (utf8 * utf8))
    (stop : list (option utf8)) (key : utf8) :
  setup_stops stop ->
  g_hash_table_lookup (setup_table terminal ssh (setup_pairs pairs ++ stop)) key =
  match latest_value pairs key with
  | Some value => Some value
  | None =>
      if list_eq_dec Z.eq_dec (cps "{ssh-client}") key then ssh
      else if list_eq_dec Z.eq_dec (cps "{terminal}") key then terminal
      else None
  end.
Proof.
  intros Hstop. unfold setup_table. rewrite (setup_arguments_lookup stop key pairs Hstop).
  reflexivity.
Qed.

Lemma setup_table_latest_witness :
  setup_stops [None; Some (cps "{cmd}"); Some (cps "late")] /\
  g_hash_table_lookup
    (setup_table (Some (cps "xterm")) None
       (setup_pairs [(cps "{cmd}", cps "ls"); (cps "{terminal}", cps "st");
                     (cps "{cmd}", cps "pwd")] ++
        [None; Some (cps "{cmd}"); Some (cps "late")]))
    (cps "{cmd}") = Some (cps "pwd").
Proof.
  assert (H : setup_stops [None; Some (cps "{cmd}"); Some (cps "late")]) by exact I.
  split; [exact H |].
  exact (eq_trans
           (setup_table_latest (Some (cps "xterm")) None
              [(cps "{cmd}", cps "ls"); (cps "{terminal}", cps "st"); (cps "{cmd}", cps "pwd")]
              [None; Some (cps "{cmd}"); Some (cps "late")] (cps "{cmd}") H)
           eq_refl).
Defined.
